(** * AI Wargame: board rules and minimax search

    A shallow embedding of [ai_wargame_skeleton.py]: the unit tables, the
    board with its legality predicates and action resolvers, the move
    generator, the three heuristics and the minimax search, followed by
    the properties the specification states about them.

    Python integers are unbounded and are modelled by [Z].  The board is
    the list of rows the source keeps ([list[list[Unit | None]]]), read
    and written by index.  Methods that mutate the game take the game
    and return the new one.  A method that dereferences a cell it
    assumes occupied returns [option]: [None] stands for the
    [AttributeError] the source would raise on an empty cell.

    The text the methods build ([to_string], [from_string]) is modelled
    on [string]; the keyboard is the list of the lines typed.  The trace
    file, the console, the broker and the command line are left out. *)

From Stdlib Require Import ZArith Lia Bool QArith Ascii.
From stdpp Require Import base option list gmap strings pretty.

#[local] Open Scope Z_scope.

(** ** Constants, enumerations *)

Definition MAX_HEURISTIC_SCORE : Z := 2000000000.
Definition MIN_HEURISTIC_SCORE : Z := -2000000000.

Inductive UnitType := AI | Tech | Virus | Program | Firewall.
Inductive Player := Attacker | Defender.
Inductive GameType :=
  AttackerVsDefender | AttackerVsComp | CompVsDefender | CompVsComp.

#[global] Instance UnitType_eq_dec : EqDecision UnitType.
Proof. solve_decision. Defined.
#[global] Instance Player_eq_dec : EqDecision Player.
Proof. solve_decision. Defined.

(** [UnitType.value]: the position of the type in the two tables. *)
Definition UnitType_value (t : UnitType) : nat :=
  match t with AI => 0 | Tech => 1 | Virus => 2 | Program => 3 | Firewall => 4 end%nat.

Definition Player_next (p : Player) : Player :=
  match p with Attacker => Defender | Defender => Attacker end.

(** ** Unit *)

Record Unit := mkUnit { player : Player; type : UnitType; health : Z }.

#[global] Instance Unit_eq_dec : EqDecision Unit.
Proof. solve_decision. Defined.

Definition damage_table : list (list Z) :=
  [ [3;3;3;3;1];
    [1;1;6;1;1];
    [9;6;1;6;1];
    [3;3;3;3;1];
    [1;1;1;1;1] ].

Definition repair_table : list (list Z) :=
  [ [0;1;1;0;0];
    [3;0;0;3;3];
    [0;0;0;0;0];
    [0;0;0;0;0];
    [0;0;0;0;0] ].

(** [table[a.value][b.value]]; both indices are always below 5. *)
Definition table_entry (tbl : list (list Z)) (a b : UnitType) : Z :=
  (tbl !!! UnitType_value a) !!! UnitType_value b.

Definition Unit_is_alive (u : Unit) : bool := 0 <? health u.

Definition with_health (u : Unit) (h : Z) : Unit :=
  mkUnit (player u) (type u) h.

Definition Unit_mod_health (u : Unit) (health_delta : Z) : Unit :=
  let h := health u + health_delta in
  if h <? 0 then with_health u 0
  else if 9 <? h then with_health u 9
  else with_health u h.

Definition Unit_damage_amount (self target : Unit) : Z :=
  let amount := table_entry damage_table (type self) (type target) in
  if health target - amount <? 0 then health target else amount.

Definition Unit_repair_amount (self target : Unit) : Z :=
  let amount := table_entry repair_table (type self) (type target) in
  if 9 <? health target + amount then 9 - health target else amount.

(** ** Coord and CoordPair *)

Record Coord := mkCoord { row : Z; col : Z }.
Record CoordPair := mkCoordPair { src : Coord; dst : Coord }.

#[global] Instance Coord_eq_dec : EqDecision Coord.
Proof. solve_decision. Defined.
#[global] Instance CoordPair_eq_dec : EqDecision CoordPair.
Proof. solve_decision. Defined.

(** [range(a, b)]. *)
Definition range (a b : Z) : list Z := seqZ a (b - a).

Definition Coord_iter_range (c : Coord) (dist : Z) : list Coord :=
  r ← range (row c - dist) (row c + 1 + dist);
  k ← range (col c - dist) (col c + 1 + dist);
  [mkCoord r k].

Definition Coord_iter_adjacent (c : Coord) : list Coord :=
  [ mkCoord (row c - 1) (col c);
    mkCoord (row c) (col c - 1);
    mkCoord (row c + 1) (col c);
    mkCoord (row c) (col c + 1) ].

Definition CoordPair_iter_rectangle (p : CoordPair) : list Coord :=
  r ← range (row (src p)) (row (dst p) + 1);
  k ← range (col (src p)) (col (dst p) + 1);
  [mkCoord r k].

Definition CoordPair_from_dim (dim : Z) : CoordPair :=
  mkCoordPair (mkCoord 0 0) (mkCoord (dim - 1) (dim - 1)).

(** ** Options, Stats, Game *)

(** [max_depth] is the natural number the search counts down to 0;
    [max_time] and the clock readings are the rationals the floats
    denote; [max_turns] and [heuristic] may be [None] as in the source. *)
Record Options := mkOptions {
  dim : Z;
  max_depth : nat;
  min_depth : nat;
  max_time : Q;
  game_type : GameType;
  alpha_beta : bool;
  max_turns : option Z;
  randomize_moves : bool;
  broker : option string;
  heuristic : option string
}.

Definition default_Options : Options :=
  mkOptions 5 4 2 (5 # 1) AttackerVsDefender true (Some 100) true None (Some "e0"%string).

Record Stats := mkStats {
  evaluations_per_depth : gmap Z Z;
  total_seconds : Q
}.

Record Game := mkGame {
  board : list (list (option Unit));
  next_player : Player;
  turns_played : Z;
  options : Options;
  stats : Stats;
  _attacker_has_ai : bool;
  _defender_has_ai : bool
}.

Definition with_board (g : Game) (b : list (list (option Unit))) : Game :=
  mkGame b (next_player g) (turns_played g) (options g) (stats g)
         (_attacker_has_ai g) (_defender_has_ai g).

Definition is_valid_coord (g : Game) (coord : Coord) : bool :=
  if (row coord <? 0) || (dim (options g) <=? row coord)
     || (col coord <? 0) || (dim (options g) <=? col coord)
  then false else true.

(** [self.board[coord.row][coord.col]] for a non-negative index pair.  On
    a board of [dim] rows of [dim] cells every valid coordinate has its
    cell; a missing cell (an [IndexError] in the source) reads as empty
    here and is excluded by [wf_game] where it matters. *)
Definition board_cell (b : list (list (option Unit))) (coord : Coord) : option Unit :=
  r ← b !! Z.to_nat (row coord); mjoin (r !! Z.to_nat (col coord)).

Definition get (g : Game) (coord : Coord) : option Unit :=
  if is_valid_coord g coord then board_cell (board g) coord else None.

Definition set (g : Game) (coord : Coord) (unit : option Unit) : Game :=
  if is_valid_coord g coord
  then with_board g
         (alter (λ r, <[Z.to_nat (col coord) := unit]> r) (Z.to_nat (row coord)) (board g))
  else g.

Definition with_attacker_has_ai (g : Game) (b : bool) : Game :=
  mkGame (board g) (next_player g) (turns_played g) (options g) (stats g)
         b (_defender_has_ai g).

Definition with_defender_has_ai (g : Game) (b : bool) : Game :=
  mkGame (board g) (next_player g) (turns_played g) (options g) (stats g)
         (_attacker_has_ai g) b.

Definition remove_dead (g : Game) (coord : Coord) : Game :=
  match get g coord with
  | Some unit =>
      if negb (Unit_is_alive unit) then
        let g := set g coord None in
        if decide (type unit = AI) then
          if decide (player unit = Attacker)
          then with_attacker_has_ai g false
          else with_defender_has_ai g false
        else g
      else g
  | None => g
  end.

(** The source mutates the unit object the cell refers to; every cell
    owns its own object (fresh units at set-up, a deep copy per clone),
    so the mutation is a write to that cell. *)
Definition mod_health (g : Game) (coord : Coord) (health_delta : Z) : Game :=
  match get g coord with
  | Some target => remove_dead (set g coord (Some (Unit_mod_health target health_delta))) coord
  | None => g
  end.

(** Only called on an occupied [coord] (the legality check has read the
    source unit, the heuristic walks the player's units); on an empty one
    the source fails on [self.get(coord).player] as soon as a neighbour
    is occupied, which reads as [false] here. *)
Definition is_engaged_in_combat (g : Game) (coord : Coord) : bool :=
  existsb
    (λ adj_unit,
       is_valid_coord g adj_unit &&
       match get g adj_unit, get g coord with
       | Some a, Some u => negb (bool_decide (player a = player u))
       | _, _ => false
       end)
    (Coord_iter_adjacent coord).

Definition is_move_down (coords : CoordPair) : bool :=
  bool_decide ([row (src coords) + 1; col (src coords)] = [row (dst coords); col (dst coords)]).
Definition is_move_right (coords : CoordPair) : bool :=
  bool_decide ([row (src coords); col (src coords) + 1] = [row (dst coords); col (dst coords)]).
Definition is_move_up (coords : CoordPair) : bool :=
  bool_decide ([row (src coords) - 1; col (src coords)] = [row (dst coords); col (dst coords)]).
Definition is_move_left (coords : CoordPair) : bool :=
  bool_decide ([row (src coords); col (src coords) - 1] = [row (dst coords); col (dst coords)]).

Definition is_adjacent (s d : Coord) : bool :=
  if (row s =? row d) && (Z.abs (col s - col d) =? 1) then true
  else if (col s =? col d) && (Z.abs (row s - row d) =? 1) then true
  else false.

(** AI, Firewall or Program: the types the two movement rules bind. *)
Definition is_AI_Firewall_Program (u : Unit) : bool :=
  bool_decide (type u = AI) || bool_decide (type u = Firewall)
  || bool_decide (type u = Program).

Definition is_valid_move (g : Game) (coords : CoordPair) : bool :=
  if negb (is_valid_coord g (src coords)) || negb (is_valid_coord g (dst coords))
  then false
  else
    match get g (src coords) with
    | None => false
    | Some unit =>
        if negb (bool_decide (player unit = next_player g)) then false
        else if negb (is_adjacent (src coords) (dst coords)) then false
        else if is_AI_Firewall_Program unit && is_engaged_in_combat g (src coords)
        then false
        else if bool_decide (player unit = Attacker) && is_AI_Firewall_Program unit
                && (is_move_down coords || is_move_right coords)
        then false
        else if bool_decide (player unit = Defender) && is_AI_Firewall_Program unit
                && (is_move_up coords || is_move_left coords)
        then false
        else
          match get g (dst coords) with None => true | Some _ => false end
    end.

Definition is_valid_to_attack (g : Game) (coords : CoordPair) : bool :=
  match get g (src coords), get g (dst coords) with
  | Some src_unit, Some dst_unit =>
      is_adjacent (src coords) (dst coords)
      && bool_decide (player src_unit = next_player g)
      && negb (bool_decide (player src_unit = player dst_unit))
  | _, _ => false
  end.

Definition is_valid_to_repair (g : Game) (coords : CoordPair) : bool :=
  match get g (src coords), get g (dst coords) with
  | Some src_unit, Some dst_unit =>
      is_adjacent (src coords) (dst coords)
      && bool_decide (player src_unit = next_player g)
      && bool_decide (player src_unit = player dst_unit)
      && negb (Unit_repair_amount src_unit dst_unit =? 0)
      && (health dst_unit <? 9)
  | _, _ => false
  end.

Definition is_valid_to_self_destruct (g : Game) (coords : CoordPair) : bool :=
  match get g (src coords) with
  | Some src_unit =>
      if bool_decide (player src_unit = next_player g)
      then bool_decide (src coords = dst coords)
      else false
  | None => false
  end.

Definition attack (g : Game) (coords : CoordPair) : option Game :=
  src_unit ← get g (src coords);
  dst_unit ← get g (dst coords);
  let attack_amount_src_to_dst := Unit_damage_amount src_unit dst_unit in
  let attack_amount_dst_to_src := Unit_damage_amount dst_unit src_unit in
  let g := mod_health g (src coords) (- attack_amount_dst_to_src) in
  Some (mod_health g (dst coords) (- attack_amount_src_to_dst)).

Definition repair (g : Game) (coords : CoordPair) : option Game :=
  src_unit ← get g (src coords);
  dst_unit ← get g (dst coords);
  let repair_amount := Unit_repair_amount src_unit dst_unit in
  Some (mod_health g (dst coords) repair_amount).

Definition self_destruct (g : Game) (coords : CoordPair) : option Game :=
  let itself := src coords in
  u ← get g itself;
  let g := mod_health g itself (- health u) in
  Some (foldl (λ g coord, mod_health g coord (-2)) g (Coord_iter_range itself 1)).

Definition perform_move (g : Game) (coords : CoordPair)
  : option (Game * (bool * string)) :=
  if is_valid_move g coords then
    let g := set g (dst coords) (get g (src coords)) in
    let g := set g (src coords) None in
    Some (g, (true, "move"%string))
  else if is_valid_to_attack g coords then
    g ← attack g coords; Some (g, (true, "attack"%string))
  else if is_valid_to_repair g coords then
    g ← repair g coords; Some (g, (true, "repair"%string))
  else if is_valid_to_self_destruct g coords then
    g ← self_destruct g coords; Some (g, (true, "self-destruct"%string))
  else Some (g, (false, "invalid move"%string)).

Definition next_turn (g : Game) : Game :=
  mkGame (board g) (Player_next (next_player g)) (turns_played g + 1)
         (options g) (stats g) (_attacker_has_ai g) (_defender_has_ai g).

(** [copy.copy] of the game with a deep copy of the board. *)
Definition clone (g : Game) : Game := with_board g (board g).

(** [__post_init__]: an empty [dim] by [dim] board, then the two camps. *)
Definition post_init (g : Game) : Game :=
  let dim := dim (options g) in
  let g := with_board g (replicate (Z.to_nat dim) (replicate (Z.to_nat dim) None)) in
  let md := dim - 1 in
  let g := set g (mkCoord 0 0) (Some (mkUnit Defender AI 9)) in
  let g := set g (mkCoord 1 0) (Some (mkUnit Defender Tech 9)) in
  let g := set g (mkCoord 0 1) (Some (mkUnit Defender Tech 9)) in
  let g := set g (mkCoord 2 0) (Some (mkUnit Defender Firewall 9)) in
  let g := set g (mkCoord 0 2) (Some (mkUnit Defender Firewall 9)) in
  let g := set g (mkCoord 1 1) (Some (mkUnit Defender Program 9)) in
  let g := set g (mkCoord md md) (Some (mkUnit Attacker AI 9)) in
  let g := set g (mkCoord (md - 1) md) (Some (mkUnit Attacker Virus 9)) in
  let g := set g (mkCoord md (md - 1)) (Some (mkUnit Attacker Virus 9)) in
  let g := set g (mkCoord (md - 2) md) (Some (mkUnit Attacker Program 9)) in
  let g := set g (mkCoord md (md - 2)) (Some (mkUnit Attacker Program 9)) in
  set g (mkCoord (md - 1) (md - 1)) (Some (mkUnit Attacker Firewall 9)).

(** [Game(options=options)]: the dataclass defaults, then [post_init]. *)
Definition new_Game (opts : Options) : Game :=
  post_init (mkGame [] Attacker 0 opts (mkStats ∅ 0%Q) true true).

Definition player_units (g : Game) (p : Player) : list (Coord * Unit) :=
  coord ← CoordPair_iter_rectangle (CoordPair_from_dim (dim (options g)));
  match get g coord with
  | Some unit => if bool_decide (player unit = p) then [(coord, unit)] else []
  | None => []
  end.

Definition has_winner (g : Game) : option Player :=
  if match max_turns (options g) with
     | Some mt => mt <=? turns_played g
     | None => false
     end
  then Some Defender
  else if _attacker_has_ai g then
    if _defender_has_ai g then None else Some Attacker
  else Some Defender.

Definition is_finished (g : Game) : bool :=
  match has_winner g with Some _ => true | None => false end.

Definition get_moves_for_player (g : Game) (current_player : Player) : list CoordPair :=
  '(s, _) ← player_units g current_player;
  filter (λ move, is_valid_move g move || is_valid_to_attack g move
                  || is_valid_to_repair g move)
         ((λ d, mkCoordPair s d) <$> Coord_iter_adjacent s)
  ++ [mkCoordPair s s].

Definition move_candidates (g : Game) : list CoordPair :=
  '(s, _) ← player_units g (next_player g);
  filter (λ move, is_valid_move g move || is_valid_to_attack g move
                  || is_valid_to_repair g move)
         ((λ d, mkCoordPair s d) <$> Coord_iter_adjacent s)
  ++ [mkCoordPair s s].

(** ** Heuristics *)

(** The heuristics walk the units of a player and increment counters;
    a counter incremented once per element satisfying [P] is
    [count_if P].  The tests of one [if]/[elif] chain exclude each
    other, so each counter of the chain is a [count_if] of its own. *)
Definition count_if {A} (P : A → bool) (l : list A) : Z :=
  foldl (λ n x, if P x then n + 1 else n) 0 l.

Definition has_type (t : UnitType) (x : Coord * Unit) : bool :=
  bool_decide (type (snd x) = t).

Definition opponent_of (maximizing_player : Player) : Player :=
  if bool_decide (maximizing_player = Defender) then Attacker else Defender.

Definition heuristic_e0 (board : Game) (maximizing_player : Player) : Z :=
  let units1 := player_units board maximizing_player in
  let virus_p1 := count_if (has_type Virus) units1 in
  let tech_p1 := count_if (has_type Tech) units1 in
  let firewall_p1 := count_if (has_type Firewall) units1 in
  let program_p1 := count_if (has_type Program) units1 in
  let ai_p1 := count_if (has_type AI) units1 in
  let p1_score := 3 * (virus_p1 + tech_p1 + firewall_p1 + program_p1) + 9999 * ai_p1 in
  let units2 := player_units board (opponent_of maximizing_player) in
  let virus_p2 := count_if (has_type Virus) units2 in
  let tech_p2 := count_if (has_type Tech) units2 in
  let firewall_p2 := count_if (has_type Firewall) units2 in
  let program_p2 := count_if (has_type Program) units2 in
  let ai_p2 := count_if (has_type AI) units2 in
  let p2_score := 3 * (virus_p2 + tech_p2 + firewall_p2 + program_p2) + 9999 * ai_p2 in
  p1_score - p2_score.

Definition ai_in_combat (board : Game) (x : Coord * Unit) : bool :=
  has_type AI x && is_engaged_in_combat board (fst x).

Definition heuristic_e1 (board : Game) (maximizing_player : Player) : Z :=
  let units1 := player_units board maximizing_player in
  let p1_number_of_unit := count_if (λ _, true) units1 in
  let p1_ai := count_if (has_type AI) units1 in
  let p1_score := - 100 * count_if (ai_in_combat board) units1 in
  let p1_score := p1_score + (p1_number_of_unit + 9999 * p1_ai) in
  let units2 := player_units board (opponent_of maximizing_player) in
  let p2_number_of_unit := count_if (λ _, true) units2 in
  let p2_ai := count_if (has_type AI) units2 in
  let p2_score := - 100 * count_if (ai_in_combat board) units2 in
  let p2_score := p2_score + (p2_number_of_unit + 9999 * p2_ai) in
  p1_score - p2_score.

Definition heuristic_e2 (board : Game) (maximizing_player : Player) : Z :=
  let opponent := opponent_of maximizing_player in
  let units1 := player_units board maximizing_player in
  let ai_p1 := count_if (has_type AI) units1 in
  let virus_p1 := count_if (has_type Virus) units1 in
  let tech_p1 := count_if (has_type Tech) units1 in
  let p1_score := 9999 * ai_p1 + 1000 * virus_p1 + 1000 * tech_p1 in
  let units2 := player_units board opponent in
  let ai_p2 := count_if (has_type AI) units2 in
  let virus_p2 := count_if (has_type Virus) units2 in
  let tech_p2 := count_if (has_type Tech) units2 in
  let p2_score := 9999 * ai_p2 + 1000 * virus_p2 + 1000 * tech_p2 in
  let number_of_legal_moves_for_maximizing_player :=
    Z.of_nat (length (get_moves_for_player board maximizing_player)) in
  let number_of_legal_moves_for_opponent_player :=
    Z.of_nat (length (get_moves_for_player board opponent)) in
  (p1_score - p2_score)
  + (number_of_legal_moves_for_maximizing_player
     - number_of_legal_moves_for_opponent_player).

(** The leaf evaluation: [self.options.heuristic] picks the function. *)
Definition evaluate (self game : Game) (maximizing_player : Player) : Z :=
  if bool_decide (heuristic (options self) = Some "e1"%string)
  then heuristic_e1 game maximizing_player
  else if bool_decide (heuristic (options self) = Some "e2"%string)
  then heuristic_e2 game maximizing_player
  else heuristic_e0 game maximizing_player.

(** ** Minimax *)

(** The two module-level accumulators of the search: [map], the number
    of children visited per remaining depth, and [nb_of_leaf_nodes]. *)
Record SearchStats := mkSearchStats {
  evals_map : gmap nat Z;
  nb_of_leaf_nodes : Z
}.

(** [map[depth] = map.get(depth, 0) + 1] *)
Definition count_eval (depth : nat) (st : SearchStats) : SearchStats :=
  mkSearchStats (<[depth := default 0 (evals_map st !! depth) + 1]> (evals_map st))
                (nb_of_leaf_nodes st).

Definition count_leaf (st : SearchStats) : SearchStats :=
  mkSearchStats (evals_map st) (nb_of_leaf_nodes st + 1).

Definition SearchResult : Type := Z * option CoordPair * SearchStats.

(** The two [for] loops over the candidate moves.  [recurse] is the
    recursive call on a child, one level shallower; the loop state is
    the running best value and move, the window and the accumulators. *)
Section loops.
Variable recurse : Game → Z → Z → SearchStats → option SearchResult.
Variable game : Game.
Variable depth : nat.

Fixpoint max_loop (moves : list CoordPair) (max_eval : Z)
    (best_move : option CoordPair) (alpha beta : Z) (st : SearchStats)
  : option SearchResult :=
  match moves with
  | [] => Some (max_eval, best_move, st)
  | move :: moves =>
      let st := count_eval depth st in
      let temp_game := clone game in
      '(temp_game, (success, _)) ← perform_move temp_game move;
      if success : bool then
        let temp_game := next_turn temp_game in
        '(current_eval, _, st) ← recurse temp_game alpha beta st;
        let '(max_eval, best_move) :=
          if max_eval <? current_eval then (current_eval, Some move)
          else (max_eval, best_move) in
        if alpha_beta (options game) then
          let alpha := Z.max alpha current_eval in
          if beta <=? alpha then Some (max_eval, best_move, st)
          else max_loop moves max_eval best_move alpha beta st
        else max_loop moves max_eval best_move alpha beta st
      else max_loop moves max_eval best_move alpha beta st
  end.

Fixpoint min_loop (moves : list CoordPair) (min_eval : Z)
    (best_move : option CoordPair) (alpha beta : Z) (st : SearchStats)
  : option SearchResult :=
  match moves with
  | [] => Some (min_eval, best_move, st)
  | move :: moves =>
      let st := count_eval depth st in
      let temp_game := clone game in
      '(temp_game, (success, _)) ← perform_move temp_game move;
      if success : bool then
        let temp_game := next_turn temp_game in
        '(current_eval, _, st) ← recurse temp_game alpha beta st;
        let '(min_eval, best_move) :=
          if current_eval <? min_eval then (current_eval, Some move)
          else (min_eval, best_move) in
        if alpha_beta (options game) then
          let beta := Z.min beta current_eval in
          if beta <=? alpha then Some (min_eval, best_move, st)
          else min_loop moves min_eval best_move alpha beta st
        else min_loop moves min_eval best_move alpha beta st
      else min_loop moves min_eval best_move alpha beta st
  end.
End loops.

(** [depth] is the natural number the source counts down to 0 (the
    interpreter's recursion limit is not modelled); [self] is the game
    the search was started on, whose options pick the heuristic. *)
Fixpoint minimax (self game : Game) (depth : nat) (is_maximizing_player : bool)
    (maximizing_player : Player) (alpha beta : Z) (st : SearchStats)
  : option SearchResult :=
  match depth, has_winner game with
  | S d, None =>
      let moves := move_candidates game in
      if is_maximizing_player then
        max_loop (λ temp a b st, minimax self temp d false maximizing_player a b st)
                 game depth moves MIN_HEURISTIC_SCORE None alpha beta st
      else
        min_loop (λ temp a b st, minimax self temp d true maximizing_player a b st)
                 game depth moves MAX_HEURISTIC_SCORE None alpha beta st
  | _, _ =>
      Some (evaluate self game maximizing_player, None, count_leaf st)
  end.

(** ** Search statistics and the top-level call *)

(** [sort_map]: the per-depth counts keyed by distance from the root,
    in insertion order; [None] stands for the [KeyError] raised when a
    depth from 1 to [max_depth] has no count yet. *)
Definition sort_map (g : Game) (st : SearchStats) : option (list (nat * Z)) :=
  let limit := (max_depth (options g) + 1)%nat in
  mapM (λ key, value ← evals_map st !! (limit - key)%nat; Some (key, value))
       (seq 1 (limit - 1)).

(** The four report functions build text for the trace from these
    numbers; the text is not modelled, the numbers and the exceptions
    are. *)
Definition get_cumulative_evals (g : Game) (st : SearchStats) : option Z :=
  sorted_map ← sort_map g st;
  Some (foldl (λ count kv, count + snd kv) 0 sorted_map).

(** [list(sorted_map)[-1]] raises [IndexError] on an empty mapping. *)
Definition get_cumulative_evals_by_depth (g : Game) (st : SearchStats)
  : option (list (nat * Z)) :=
  sorted_map ← sort_map g st;
  last_key ← last (fst <$> sorted_map);
  Some sorted_map.

(** [value / total] raises [ZeroDivisionError] when [total] is 0. *)
Definition get_cumulative_perc_evals (g : Game) (st : SearchStats)
  : option (list (nat * Q)) :=
  total ← get_cumulative_evals g st;
  sorted_map ← sort_map g st;
  last_key ← last (fst <$> sorted_map);
  mapM (λ kv, if total =? 0 then None
              else Some (fst kv, (inject_Z (snd kv) / inject_Z total * 100)%Q))
       sorted_map.

Definition get_avg_branching_factor (g : Game) (st : SearchStats) : option Q :=
  total ← get_cumulative_evals g st;
  let nb_of_non_root_nodes := total - 1 in
  total ← get_cumulative_evals g st;
  let nb_of_non_leaf_nodes := total - nb_of_leaf_nodes st in
  if nb_of_non_leaf_nodes =? 0 then None
  else Some (inject_Z nb_of_non_root_nodes / inject_Z nb_of_non_leaf_nodes)%Q.

(** [suggest_move]: the search from the live game, then the clock, then
    the report.  The second reading of the clock is the input
    [elapsed_seconds]; the trace file and the console are not modelled.
    The result is the game (its [stats.total_seconds] updated), the
    suggested move and the accumulators; [None] stands for an exception
    raised by one of the report functions. *)
Definition suggest_move (g : Game) (elapsed_seconds : Q) (st : SearchStats)
  : option (Game * option CoordPair * SearchStats) :=
  '(score, move, st) ← minimax g g (max_depth (options g)) true (next_player g)
                           MIN_HEURISTIC_SCORE MAX_HEURISTIC_SCORE st;
  if negb (Qle_bool elapsed_seconds (max_time (options g))) then Some (g, None, st)
  else
    let stats' := mkStats (evaluations_per_depth (stats g))
                          (total_seconds (stats g) + elapsed_seconds)%Q in
    let g := mkGame (board g) (next_player g) (turns_played g) (options g) stats'
                    (_attacker_has_ai g) (_defender_has_ai g) in
    _ ← get_cumulative_evals g st;
    _ ← get_cumulative_evals_by_depth g st;
    _ ← get_cumulative_perc_evals g st;
    _ ← get_avg_branching_factor g st;
    Some (g, move, st).

(** ** Text: coordinates, units and the board as strings *)

(** A [str] is a [string], one character per code point below 256; the
    console and the trace file are not modelled, the strings the methods
    return are.  [None] is the exception a method raises, as before. *)

Definition newline : string := String "010"%char "".

(** [s[i]] on a string and on a list: a negative index counts from the
    end, an index outside raises [IndexError]. *)
Definition str_index (s : string) (i : Z) : option ascii :=
  let n := Z.of_nat (String.length s) in
  if i <? 0 then (if i + n <? 0 then None else String.get (Z.to_nat (i + n)) s)
  else String.get (Z.to_nat i) s.

Definition list_index {A} (l : list A) (i : Z) : option A :=
  let n := Z.of_nat (length l) in
  if i <? 0 then (if i + n <? 0 then None else l !! Z.to_nat (i + n))
  else l !! Z.to_nat i.

(** [str.isspace] on one character: the characters [strip] removes. *)
Definition is_space (c : ascii) : bool :=
  let n := Z.of_N (N_of_ascii c) in
  ((9 <=? n) && (n <=? 13)) || ((28 <=? n) && (n <=? 32)) || (n =? 133) || (n =? 160).

Fixpoint str_lstrip (s : string) : string :=
  match s with
  | String c s' => if is_space c then str_lstrip s' else s
  | EmptyString => EmptyString
  end.

Definition str_strip (s : string) : string :=
  String.rev (str_lstrip (String.rev (str_lstrip s))).

(** [s.replace(sep, "")] for a one-character [sep]. *)
Fixpoint str_remove (sep : ascii) (s : string) : string :=
  match s with
  | String c s' =>
      if Ascii.eqb c sep then str_remove sep s' else String c (str_remove sep s')
  | EmptyString => EmptyString
  end.

(** [upper] and [lower] change the 26 letters.  A character above 127
    that the source would also change (to a character outside the
    alphabets below, or to two characters) is left as it is: neither
    form is found in those alphabets. *)
Definition upper_char (c : ascii) : ascii :=
  let n := N_of_ascii c in
  if ((97 <=? n) && (n <=? 122))%N then ascii_of_N (n - 32) else c.

Definition lower_char (c : ascii) : ascii :=
  let n := N_of_ascii c in
  if ((65 <=? n) && (n <=? 90))%N then ascii_of_N (n + 32) else c.

Fixpoint str_map (f : ascii → ascii) (s : string) : string :=
  match s with
  | String c s' => String (f c) (str_map f s')
  | EmptyString => EmptyString
  end.

Definition str_upper : string → string := str_map upper_char.
Definition str_lower : string → string := str_map lower_char.

(** [hay.find(sub)]: the first position of [sub] in [hay], or -1. *)
Definition str_find (hay sub : string) : Z :=
  match String.index 0 sub hay with Some i => Z.of_nat i | None => -1 end.

Definition row_letters : string := "ABCDEFGHIJKLMNOPQRSTUVWXYZ".
Definition col_digits : string := "0123456789abcdef".
Definition separators : list ascii := String.list_ascii_of_string " ,.:;-_".

Definition Coord_col_string (c : Coord) : option string :=
  if col c <? 16
  then coord_char ← str_index col_digits (col c); Some (String coord_char "")
  else Some "?"%string.

Definition Coord_row_string (c : Coord) : option string :=
  if row c <? 26
  then coord_char ← str_index row_letters (row c); Some (String coord_char "")
  else Some "?"%string.

Definition Coord_to_string (c : Coord) : option string :=
  r ← Coord_row_string c; k ← Coord_col_string c; Some (r +:+ k).

(** The first two steps of both [from_string]: strip, then drop every
    separator. *)
Definition clean (s : string) : string :=
  foldl (λ s sep, str_remove sep s) (str_strip s) separators.

Definition find_row (s : string) : Z := str_find row_letters (str_upper s).
Definition find_col (s : string) : Z := str_find col_digits (str_lower s).

(** [Coord.from_string]; [None] is the [None] the source returns. *)
Definition Coord_from_string (s : string) : option Coord :=
  let s := clean s in
  if (String.length s =? 2)%nat then
    Some (mkCoord (find_row (String.substring 0 1 s)) (find_col (String.substring 1 1 s)))
  else None.

Definition CoordPair_to_string (p : CoordPair) : option string :=
  s ← Coord_to_string (src p); d ← Coord_to_string (dst p); Some (s +:+ " " +:+ d).

Definition CoordPair_from_quad (row0 col0 row1 col1 : Z) : CoordPair :=
  mkCoordPair (mkCoord row0 col0) (mkCoord row1 col1).

Definition CoordPair_from_string (s : string) : option CoordPair :=
  let s := clean s in
  if (String.length s =? 4)%nat then
    Some (mkCoordPair
            (mkCoord (find_row (String.substring 0 1 s)) (find_col (String.substring 1 1 s)))
            (mkCoord (find_row (String.substring 2 1 s)) (find_col (String.substring 3 1 s))))
  else None.

Definition Player_name (p : Player) : string :=
  match p with Attacker => "Attacker" | Defender => "Defender" end.

Definition UnitType_name (t : UnitType) : string :=
  match t with
  | AI => "AI" | Tech => "Tech" | Virus => "Virus"
  | Program => "Program" | Firewall => "Firewall"
  end.

(** [name.lower()[0]], [name.upper()[0]] and [str(health)]; the names
    are not empty, so [[0]] is the one-character prefix. *)
Definition Unit_to_string (u : Unit) : string :=
  let p := String.substring 0 1 (str_lower (Player_name (player u))) in
  let t := String.substring 0 1 (str_upper (UnitType_name (type u))) in
  p +:+ t +:+ pretty (health u).

Definition spaces (n : nat) : string := String.string_of_list_ascii (replicate n " "%char).

(** The format [{s:^3}]: centred in 3 columns, the odd space on the
    right; a longer string is left as it is. *)
Definition center3 (s : string) : string :=
  let pad := (3 - String.length s)%nat in
  let left := (pad / 2)%nat in
  spaces left +:+ s +:+ spaces (pad - left).

Definition str_concat (l : list string) : string := foldr String.append "" l.

(** [Game.to_string]: two header lines, the column labels, one line per
    row.  The scratch [Coord] the source reuses only carries the index
    being printed. *)
Definition Game_to_string (g : Game) : option string :=
  let dim := dim (options g) in
  let output := "Next player: " +:+ Player_name (next_player g) +:+ newline in
  let output := output +:+ "Turns played: " +:+ pretty (turns_played g) +:+ newline in
  let output := output +:+ newline +:+ "   " in
  labels ← mapM (λ col, label ← Coord_col_string (mkCoord 0 col);
                        Some (center3 label +:+ " ")) (range 0 dim);
  let output := output +:+ str_concat labels +:+ newline in
  rows ← mapM (λ row,
                 label ← Coord_row_string (mkCoord row (dim - 1));
                 let cells :=
                   (λ col, match get g (mkCoord row col) with
                           | None => " .  "
                           | Some unit => center3 (Unit_to_string unit) +:+ " "
                           end) <$> range 0 dim in
                 Some (label +:+ ": " +:+ str_concat cells +:+ newline))
              (range 0 dim);
  Some (output +:+ str_concat rows).

(** ** The remaining board accessor *)

(** [is_empty] indexes the board directly: no bounds check, so a negative
    index reads from the far side and an index past the end raises. *)
Definition is_empty (g : Game) (coord : Coord) : option bool :=
  r ← list_index (board g) (row coord);
  cell ← list_index r (col coord);
  Some (bool_decide (cell = None)).

(** ** Turns *)

(** What a method that reads the keyboard does with the lines typed:
    it returns a value and leaves the lines it has not read, or it calls
    [exit()], or [input()] fails at the end of the input. *)
Inductive Console (A : Type) : Type :=
  | Returns (a : A) (rest : list string)
  | Exits
  | EndOfInput
  | OutOfFuel.
Arguments Returns {A} a rest.
Arguments Exits {A}.
Arguments EndOfInput {A}.
Arguments OutOfFuel {A}.

Fixpoint read_move (g : Game) (inputs : list string) : Console CoordPair :=
  match inputs with
  | [] => EndOfInput
  | s :: inputs =>
      if bool_decide (s = "q"%string) then Exits
      else
        match CoordPair_from_string s with
        | Some coords =>
            if is_valid_coord g (src coords) && is_valid_coord g (dst coords)
            then Returns coords inputs
            else read_move g inputs
        | None => read_move g inputs
        end
  end.

(** The sentence [human_turn] returns for the trace. *)
Definition turn_text (verb : string) (mv : CoordPair) (tail : string) : option string :=
  s ← Coord_to_string (src mv); d ← Coord_to_string (dst mv);
  Some (verb +:+ s +:+ " to " +:+ d +:+ tail).

(** [human_turn] with no broker configured: the keyboard loop.  [fuel]
    bounds the passes through the [while True]. *)
Fixpoint human_turn (fuel : nat) (g : Game) (inputs : list string)
  : option (Console (Game * string)) :=
  match fuel with
  | O => Some OutOfFuel
  | S fuel =>
      match read_move g inputs with
      | Returns mv inputs =>
          '(g, (success, result)) ← perform_move g mv;
          if success : bool then
            if bool_decide (result = "attack"%string) then
              text ← turn_text " attacks from " mv "."; Some (Returns (next_turn g, text) inputs)
            else if bool_decide (result = "repair"%string) then
              text ← turn_text " repairs from " mv "."; Some (Returns (next_turn g, text) inputs)
            else if bool_decide (result = "self-destruct"%string) then
              text ← turn_text " self-destructs from " mv "."; Some (Returns (next_turn g, text) inputs)
            else if bool_decide (result = "move"%string) then
              text ← turn_text " moves from " mv "."; Some (Returns (next_turn g, text) inputs)
            else human_turn fuel g inputs
          else
            text ← turn_text " move from " mv ". The move is not valid! Try again.";
            Some (Returns (g, text) inputs)
      | Exits => Some Exits
      | EndOfInput => Some EndOfInput
      | OutOfFuel => Some OutOfFuel
      end
  end.

(** [computer_turn]: the suggested move is played on the live game; the
    line written to the trace names both ends of the move. *)
Definition computer_turn (g : Game) (elapsed_seconds : Q) (st : SearchStats)
  : option (Game * option CoordPair * SearchStats) :=
  '(g, mv, st) ← suggest_move g elapsed_seconds st;
  match mv with
  | Some m =>
      '(g, (success, result)) ← perform_move g m;
      if success : bool then
        _ ← turn_text (result +:+ " from ") m newline;
        Some (next_turn g, Some m, st)
      else Some (g, Some m, st)
  | None => Some (g, None, st)
  end.

(** * Specification-level definitions *)

(** ** Well-formed boards and the effect of a hit *)

(** The board has [dim] rows of [dim] cells. *)
Definition wf_game (g : Game) : Prop :=
  length (board g) = Z.to_nat (dim (options g)) ∧
  Forall (λ r, length r = Z.to_nat (dim (options g))) (board g).

(** The coordinate is valid and the board really has that cell. *)
Definition has_cell (g : Game) (c : Coord) : Prop :=
  is_valid_coord g c = true ∧
  ∃ r, board g !! Z.to_nat (row c) = Some r ∧ (Z.to_nat (col c) < length r)%nat.

(** What a cell holds after its unit took [delta]: the unit with the
    clamped health, or nothing when that health is 0. *)
Definition struck (delta : Z) (o : option Unit) : option Unit :=
  match o with
  | Some t =>
      let t' := Unit_mod_health t delta in
      if Unit_is_alive t' then Some t' else None
  | None => None
  end.

(** The hit removes an AI of player [p]. *)
Definition kills_ai (delta : Z) (p : Player) (o : option Unit) : bool :=
  match o with
  | Some t =>
      negb (Unit_is_alive (Unit_mod_health t delta))
      && bool_decide (type t = AI) && bool_decide (player t = p)
  | None => false
  end.

Definition has_ai (g : Game) (p : Player) : bool :=
  match p with Attacker => _attacker_has_ai g | Defender => _defender_has_ai g end.

(** ** The legality conditions in the specification's words *)

Definition in_bounds (g : Game) (c : Coord) : Prop :=
  0 ≤ row c < dim (options g) ∧ 0 ≤ col c < dim (options g).

Definition orthogonally_adjacent (s d : Coord) : Prop :=
  (row s = row d ∧ Z.abs (col s - col d) = 1) ∨
  (col s = col d ∧ Z.abs (row s - row d) = 1).

Definition moves_down (m : CoordPair) : Prop :=
  row (dst m) = row (src m) + 1 ∧ col (dst m) = col (src m).
Definition moves_right (m : CoordPair) : Prop :=
  row (dst m) = row (src m) ∧ col (dst m) = col (src m) + 1.
Definition moves_up (m : CoordPair) : Prop :=
  row (dst m) = row (src m) - 1 ∧ col (dst m) = col (src m).
Definition moves_left (m : CoordPair) : Prop :=
  row (dst m) = row (src m) ∧ col (dst m) = col (src m) - 1.

(** AI, Firewall and Program: bound by the direction rule and the lock. *)
Definition restricted_type (u : Unit) : Prop :=
  type u = AI ∨ type u = Firewall ∨ type u = Program.

(** An enemy of [u] stands in a cell orthogonally next to [c]. *)
Definition engaged (g : Game) (c : Coord) (u : Unit) : Prop :=
  ∃ n e, orthogonally_adjacent c n ∧ get g n = Some e ∧ player e ≠ player u.

Definition valid_move_conditions (g : Game) (m : CoordPair) : Prop :=
  in_bounds g (src m) ∧ in_bounds g (dst m) ∧
  ∃ u, get g (src m) = Some u ∧ player u = next_player g ∧
       orthogonally_adjacent (src m) (dst m) ∧
       get g (dst m) = None ∧
       ¬ (restricted_type u ∧ player u = Attacker ∧ (moves_down m ∨ moves_right m)) ∧
       ¬ (restricted_type u ∧ player u = Defender ∧ (moves_up m ∨ moves_left m)) ∧
       ¬ (restricted_type u ∧ engaged g (src m) u).

Definition valid_repair_conditions (g : Game) (m : CoordPair) : Prop :=
  ∃ s d, get g (src m) = Some s ∧ get g (dst m) = Some d ∧
         orthogonally_adjacent (src m) (dst m) ∧
         player s = next_player g ∧ player s = player d ∧
         table_entry repair_table (type s) (type d) ≠ 0 ∧
         health d < 9.

(** Every unit on the grid has a health from 1 to 9. *)
Definition units_healthy (g : Game) : Prop :=
  ∀ c u, get g c = Some u → 1 ≤ health u ≤ 9.

(** [turns_played >= max_turns], with a limit configured. *)
Definition turn_limit_reached (g : Game) : bool :=
  match max_turns (options g) with
  | Some mt => mt <=? turns_played g
  | None => false
  end.

(** The winner as the claim words it: Attacker when only the Defender's
    AI is dead, Defender when only the Attacker's AI is dead, none
    otherwise. *)
Definition claimed_winner (g : Game) : option Player :=
  if turn_limit_reached g then Some Defender
  else match _attacker_has_ai g, _defender_has_ai g with
       | true, false => Some Attacker
       | false, true => Some Defender
       | _, _ => None
       end.

(** The 5 by 5 opening position with both AIs struck off. *)
Definition both_ais_dead : Game :=
  let g := new_Game default_Options in
  let g := set g (mkCoord 0 0) None in
  let g := set g (mkCoord 4 4) None in
  with_defender_has_ai (with_attacker_has_ai g false) false.

Definition healthy_cell (o : option Unit) : bool :=
  match o with
  | Some u => (1 <=? health u) && (health u <=? 9)
  | None => true
  end.

Definition units_healthy_check (g : Game) : bool :=
  forallb (forallb healthy_cell) (board g).

(** Turns every [b = true ↔ P] whose [b] has been decided into [P] or
    its negation. *)
Ltac reflect_all :=
  repeat match goal with
    | H : true = true ↔ _ |- _ => apply proj1 in H; specialize (H eq_refl)
    | H : false = true ↔ ?P |- _ =>
        let H' := fresh "Hn" in
        assert (H' : ¬ P) by (let X := fresh in intros X; apply H in X; discriminate X);
        clear H
    end.

(** ** Damage in the specification's words *)

(** The cell of a unit that lost [damage]: empty once the health is
    spent, else the unit with the health that is left. *)
Definition after_damage (u : Unit) (damage : Z) : option Unit :=
  if health u - damage <=? 0 then None
  else Some (with_health u (health u - damage)).

(** Losing [damage] removes [u], and [u] is the AI of player [p]. *)
Definition ai_lost (u : Unit) (damage : Z) (p : Player) : bool :=
  (health u - damage <=? 0) && bool_decide (type u = AI) && bool_decide (player u = p).

(** Chebyshev distance at most 1: the 3 by 3 block around [center]. *)
Definition in_block (center c : Coord) : Prop :=
  Z.abs (row c - row center) ≤ 1 ∧ Z.abs (col c - col center) ≤ 1.

(** The cells of the block that lie on the board. *)
Definition block_cells (g : Game) (center : Coord) : list Coord :=
  filter (λ c, is_valid_coord g c = true) (Coord_iter_range center 1).

(** ** The invariant of the game states *)

(** A unit of type AI owned by [p] stands somewhere on the grid. *)
Definition ai_on_grid (g : Game) (p : Player) : Prop :=
  ∃ c u, get g c = Some u ∧ type u = AI ∧ player u = p.

(** Each AI flag is set exactly when that player's AI is on the grid. *)
Definition flags_consistent (g : Game) : Prop :=
  ∀ p, has_ai g p = true ↔ ai_on_grid g p.

Definition game_invariant (g : Game) : Prop :=
  units_healthy g ∧ flags_consistent g.

(** No player has two AIs. *)
Definition one_ai_each (g : Game) : Prop :=
  ∀ c1 c2 u1 u2,
    get g c1 = Some u1 → get g c2 = Some u2 →
    type u1 = AI → type u2 = AI → player u1 = player u2 → c1 = c2.

(** What the moves really preserve: the invariant on a well-formed
    board with at most one AI per player. *)
Definition strong_invariant (g : Game) : Prop :=
  wf_game g ∧ units_healthy g ∧ flags_consistent g ∧ one_ai_each g.

(** The opening position of a game configured with a 2 by 2 board. *)
Definition cramped : Game :=
  new_Game (mkOptions 2 4 2 (5 # 1) AttackerVsDefender true (Some 100) true None
                      (Some "e0"%string)).

(** The states of a game started with options [opts]. *)
Inductive reachable (opts : Options) : Game → Prop :=
  | reachable_new : reachable opts (new_Game opts)
  | reachable_perform_move g m g' r :
      reachable opts g → perform_move g m = Some (g', r) → reachable opts g'
  | reachable_next_turn g :
      reachable opts g → reachable opts (next_turn g).

(** ** The move generator *)

(** What the generator is said to yield for player [p]: a move from a
    cell of one of [p]'s units to an orthogonal neighbour that passes
    one of the three legality tests, or to the cell itself. *)
Definition candidate_conditions (g : Game) (p : Player) (m : CoordPair) : Prop :=
  ∃ u, get g (src m) = Some u ∧ player u = p ∧
       ((orthogonally_adjacent (src m) (dst m) ∧
         (is_valid_move g m = true ∨ is_valid_to_attack g m = true
          ∨ is_valid_to_repair g m = true))
        ∨ dst m = src m).

(** The moves the generator yields from one source cell. *)
Definition moves_from (g : Game) (s : Coord) : list CoordPair :=
  filter (λ move, is_valid_move g move || is_valid_to_attack g move
                  || is_valid_to_repair g move)
         ((λ d, mkCoordPair s d) <$> Coord_iter_adjacent s)
  ++ [mkCoordPair s s].

(** ** Switching alpha-beta on or off *)

(** The same game with [options.alpha_beta] set to [b]. *)
Definition with_alpha_beta (g : Game) (b : bool) : Game :=
  let o := options g in
  mkGame (board g) (next_player g) (turns_played g)
         (mkOptions (dim o) (max_depth o) (min_depth o) (max_time o) (game_type o)
                    b (max_turns o) (randomize_moves o) (broker o) (heuristic o))
         (stats g) (_attacker_has_ai g) (_defender_has_ai g).

(** The game after a successful move and the turn change; [None] when
    the move is refused. *)
Definition child (g : Game) (m : CoordPair) : option Game :=
  match perform_move (clone g) m with
  | Some (g', (true, _)) => Some (next_turn g')
  | _ => None
  end.

(** ** What a pruned search may return *)

Definition score (r : SearchResult) : Z := fst (fst r).

(** The value [v] of a search in the window from [alpha] to [beta]
    against the exact value [m]: exact inside the window, a bound on
    the side where it falls outside. *)
Definition window_sound (alpha beta v m : Z) : Prop :=
  (v ≤ alpha → m ≤ v) ∧ (beta ≤ v → v ≤ m) ∧ (alpha < v < beta → v = m).

(** ** The range of the heuristics *)

(** The number of cells the scan of the board visits. *)
Definition cell_count (g : Game) : Z :=
  Z.of_nat (Z.to_nat (dim (options g)) * Z.to_nat (dim (options g))).

(** Decides the type tests on a unit whose type is known. *)
Ltac decide_types :=
  repeat match goal with
    | |- context [has_type ?t (?c, ?u)] =>
        change (has_type t (c, u)) with (bool_decide (type u = t))
    end;
  cbn [type];
  repeat match goal with
    | |- context [bool_decide (?a = ?b)] =>
        let x := eval vm_compute in (bool_decide (a = b)) in
        change (bool_decide (a = b)) with x
    end.

(** ** Counting the units of a board row by row *)

Definition Zsum {A} (f : A → Z) (l : list A) : Z := foldr (λ x acc, f x + acc) 0 l.

(** 1 for a cell whose unit satisfies [P]. *)
Definition cell_value (P : Unit → bool) (o : option Unit) : Z :=
  match o with Some u => if P u then 1 else 0 | None => 0 end.

(** The number of units of the board that satisfy [P]. *)
Definition tally (P : Unit → bool) (b : list (list (option Unit))) : Z :=
  Zsum (Zsum (cell_value P)) b.

(** ** A board on which pruning changes the score *)

(** A 448 by 448 board: six given cells in the top left corner, every
    other cell [a]. *)
Definition corner_board (x0 x1 x2 y0 y1 y2 a : option Unit) : list (list (option Unit)) :=
  (x0 :: x1 :: x2 :: replicate 445 a)
  :: (y0 :: y1 :: y2 :: replicate 445 a)
  :: replicate 446 (replicate 448 a).

Definition huge_options : Options :=
  mkOptions 448 1 1 (5 # 1) CompVsComp true (Some 100) true None (Some "e0"%string).

Definition corner_game (x0 x1 x2 y0 y1 y2 : option Unit) (p : Player) (turns : Z)
    (attacker_has_ai : bool) : Game :=
  mkGame (corner_board x0 x1 x2 y0 y1 y2 (Some (mkUnit Attacker AI 9)))
         p turns huge_options (mkStats ∅ 0%Q) attacker_has_ai true.

(** Attacker to move; an Attacker AI in every cell but (0,1), an
    Attacker Virus, and (0,2), the Defender's AI. *)
Definition huge : Game :=
  corner_game (Some (mkUnit Attacker AI 9)) (Some (mkUnit Attacker Virus 9))
              (Some (mkUnit Defender AI 9))
              (Some (mkUnit Attacker AI 9)) (Some (mkUnit Attacker AI 9))
              (Some (mkUnit Attacker AI 9)) Attacker 0 true.

(** [huge] after the self-destruct at (0,0), which clears the
    Attacker's AI flag, and after the one at (0,1). *)
Definition huge_after_00 : Game :=
  corner_game None (Some (mkUnit Attacker Virus 7)) (Some (mkUnit Defender AI 9))
              (Some (mkUnit Attacker AI 7)) (Some (mkUnit Attacker AI 7))
              (Some (mkUnit Attacker AI 9)) Defender 1 false.

Definition huge_after_01 : Game :=
  corner_game (Some (mkUnit Attacker AI 7)) None (Some (mkUnit Defender AI 7))
              (Some (mkUnit Attacker AI 7)) (Some (mkUnit Attacker AI 7))
              (Some (mkUnit Attacker AI 7)) Defender 1 true.

Definition self_destruct_at (r k : Z) : CoordPair :=
  mkCoordPair (mkCoord r k) (mkCoord r k).

(** ** The top-level call *)

(** The search took longer than the configured budget. *)
Definition timed_out (g : Game) (elapsed_seconds : Q) : Prop :=
  (max_time (options g) < elapsed_seconds)%Q.

(** The move [suggest_move] answers with, when it returns. *)
Definition answer_of (r : option (Game * option CoordPair * SearchStats))
  : option (option CoordPair) :=
  (λ x, snd (fst x)) <$> r.

(** The 5 by 5 opening position of a game configured with search depth
    [depth], and the accumulators before any search. *)
Definition opening_at_depth (depth : nat) : Game :=
  new_Game (mkOptions 5 depth 2 (5 # 1) CompVsComp true (Some 100) true None
                      (Some "e0"%string)).

Definition no_stats : SearchStats := mkSearchStats ∅ 0.

(** The accumulators as a first search at depth 2 leaves them. *)
Definition stats_after_first_search : SearchStats :=
  match minimax (opening_at_depth 2) (opening_at_depth 2) 2 true Attacker
                MIN_HEURISTIC_SCORE MAX_HEURISTIC_SCORE no_stats with
  | Some (_, _, st) => st
  | None => no_stats
  end.

(** A position the Defender has won: the Attacker's AI is gone. *)
Definition attacker_ai_lost : Game :=
  with_attacker_has_ai (set (opening_at_depth 2) (mkCoord 4 4) None) false.

(** ** Concrete positions *)

(** The 5 by 5 opening position. *)
Definition opening : Game := new_Game default_Options.

(** The opening position with an Attacker Virus dropped next to the
    Defender's Program. *)
Definition skirmish : Game :=
  set opening (mkCoord 2 1) (Some (mkUnit Attacker Virus 9)).

(** The opening position, Defender to move, its Program down to 5. *)
Definition workshop : Game :=
  next_turn (set opening (mkCoord 1 1) (Some (mkUnit Defender Program 5))).

(** ** Further properties of the code: geometry and the board *)

(** The four one-step moves of a pair, as the source tests them. *)
Definition is_unit_step (m : CoordPair) : bool :=
  is_move_down m || is_move_right m || is_move_up m || is_move_left m.

(** The row a Python index reaches on a board of [d] rows. *)
Definition wrapped (d : Z) (c : Coord) : Coord := mkCoord (row c `mod` d) (col c `mod` d).

(** ** Further properties of the code: the rules *)

(** How many of the four actions the pair is valid for. *)
Definition valid_actions (g : Game) (m : CoordPair) : Z :=
  Z.b2z (is_valid_move g m) + Z.b2z (is_valid_to_attack g m)
  + Z.b2z (is_valid_to_repair g m) + Z.b2z (is_valid_to_self_destruct g m).

(** The number of units of a player on the board. *)
Definition unit_count (g : Game) (p : Player) : nat := length (player_units g p).

(** The fields of the game no action touches, and the two flags, which
    an action may only clear. *)
Definition same_turn (g g' : Game) : Prop :=
  next_player g' = next_player g ∧ turns_played g' = turns_played g ∧
  options g' = options g ∧ stats g' = stats g ∧
  (wf_game g → wf_game g') ∧
  ∀ p, has_ai g' p = true → has_ai g p = true.

(** ** Further properties of the code: the heuristics and the search *)

(** The move of a search result. *)
Definition best_move (r : SearchResult) : option CoordPair := snd (fst r).

(** The accumulators of a search of depth 1 started on empty ones,
    after [n] candidates: each was counted once at depth 1 and once as
    a leaf. *)
Definition one_level (n : Z) (st : SearchStats) : Prop :=
  0 ≤ n ∧ nb_of_leaf_nodes st = n ∧
  evals_map st = if n =? 0 then ∅ else {[ 1%nat := n ]}.

(** The call returned before the budget ran out. *)
Definition in_time (g : Game) (elapsed_seconds : Q) : Prop :=
  Qle_bool elapsed_seconds (max_time (options g)) = true.

(** ** Further properties of the code: text *)

(** A character [strip] keeps and that is no separator. *)
Definition plain (c : ascii) : bool :=
  negb (is_space c) && forallb (λ sep, negb (Ascii.eqb c sep)) separators.

(** The letter of a row and the digit of a column, when they have one. *)
Definition row_letter (r : Z) : option ascii := String.get (Z.to_nat r) row_letters.
Definition col_digit (k : Z) : option ascii := String.get (Z.to_nat k) col_digits.

(** The coordinates that have a name of their own: rows A to Z, columns
    0 to f. *)
Definition nameable (c : Coord) : Prop := 0 ≤ row c < 26 ∧ 0 ≤ col c < 16.

(** The first two characters of a unit's text. *)
Definition player_letter (p : Player) : ascii :=
  match p with Attacker => "a" | Defender => "d" end%char.
Definition type_letter (t : UnitType) : ascii :=
  match t with AI => "A" | Tech => "T" | Virus => "V" | Program => "P" | Firewall => "F" end%char.

(** ** Further properties of the code: turns *)

(** The position is the same: only the statistics may differ. *)
Definition same_position (g g' : Game) : Prop :=
  board g' = board g ∧ next_player g' = next_player g ∧
  turns_played g' = turns_played g ∧ options g' = options g ∧
  _attacker_has_ai g' = _attacker_has_ai g ∧ _defender_has_ai g' = _defender_has_ai g.

(** The game with its statistics replaced, as [suggest_move] leaves it. *)
Definition with_stats (g : Game) (s : Stats) : Game :=
  mkGame (board g) (next_player g) (turns_played g) (options g) s
         (_attacker_has_ai g) (_defender_has_ai g).

(** The turn has passed to the other player. *)
Definition turn_passed (g g' : Game) : Prop :=
  turns_played g' = turns_played g + 1 ∧ next_player g' = Player_next (next_player g).

(** A coordinate the keyboard can name on the board of [g]. *)
Definition typed_cell (g : Game) (c : Coord) : Prop :=
  is_valid_coord g c = true ∧ row c ≤ 25 ∧ col c ≤ 15.

(** ** Further properties of the code: the printed board *)

(** The label of a column or a row that is not negative. *)
Definition col_label (k : Z) : string := default "?"%string (Coord_col_string (mkCoord 0 k)).
Definition row_label (r : Z) : string := default "?"%string (Coord_row_string (mkCoord r 0)).

(** The four characters printed for a cell. *)
Definition cell_text (o : option Unit) : string :=
  match o with
  | None => " .  "
  | Some unit => center3 (Unit_to_string unit) +:+ " "
  end.

(** The parts of the printed game: the two lines that name the player
    and the turn, the line of column labels, the lines of the rows. *)
Definition turn_lines (g : Game) : string :=
  "Next player: " +:+ Player_name (next_player g) +:+ newline
  +:+ "Turns played: " +:+ pretty (turns_played g).

Definition label_line (dim : Z) : string :=
  newline +:+ newline +:+ "   "
  +:+ str_concat ((λ k, center3 (col_label k) +:+ " ") <$> range 0 dim) +:+ newline.

Definition row_cells (g : Game) (r : Z) : string :=
  str_concat ((λ k, cell_text (get g (mkCoord r k))) <$> range 0 (dim (options g))).

Definition row_line (g : Game) (r : Z) : string :=
  row_label r +:+ ": " +:+ row_cells g r +:+ newline.

Definition row_lines (g : Game) : string :=
  str_concat (row_line g <$> range 0 (dim (options g))).

(** ** Further properties of the code: the opening position *)

(** The two camps [__post_init__] lays out on a board whose last index
    is [md], in the order the rows are scanned. *)
Definition camp (md : Z) (p : Player) : list (Coord * Unit) :=
  match p with
  | Defender =>
      [ (mkCoord 0 0, mkUnit Defender AI 9); (mkCoord 0 1, mkUnit Defender Tech 9);
        (mkCoord 0 2, mkUnit Defender Firewall 9); (mkCoord 1 0, mkUnit Defender Tech 9);
        (mkCoord 1 1, mkUnit Defender Program 9); (mkCoord 2 0, mkUnit Defender Firewall 9) ]
  | Attacker =>
      [ (mkCoord (md - 2) md, mkUnit Attacker Program 9);
        (mkCoord (md - 1) (md - 1), mkUnit Attacker Firewall 9);
        (mkCoord (md - 1) md, mkUnit Attacker Virus 9);
        (mkCoord md (md - 2), mkUnit Attacker Program 9);
        (mkCoord md (md - 1), mkUnit Attacker Virus 9);
        (mkCoord md md, mkUnit Attacker AI 9) ]
  end.

(** ** Concrete moves and lines *)

(** The Attacker's Program steps up from C4 to B4. *)
Definition program_up : CoordPair := mkCoordPair (mkCoord 2 4) (mkCoord 1 4).

(** The Attacker's Virus at D4 self-destructs. *)
Definition virus_blast : CoordPair := mkCoordPair (mkCoord 3 4) (mkCoord 3 4).

(** Three lines typed at the opening position: a word, a pair off the
    board, the move of the Program. *)
Definition typed_lines : list string := ["pass"; "Z9 Z8"; "c4-b4"; "q"]%string.

(** * Properties *)

(** ** Coordinates *)

Lemma is_valid_coord_true g c :
  is_valid_coord g c = true ↔
  0 ≤ row c < dim (options g) ∧ 0 ≤ col c < dim (options g).
Proof.
  unfold is_valid_coord.
  destruct (row c <? 0) eqn:E1, (dim (options g) <=? row c) eqn:E2,
           (col c <? 0) eqn:E3, (dim (options g) <=? col c) eqn:E4; simpl;
    split; intros; try discriminate; try done; lia.
Qed.

Lemma is_valid_coord_false g c :
  is_valid_coord g c = false ↔
  ¬ (0 ≤ row c < dim (options g) ∧ 0 ≤ col c < dim (options g)).
Proof.
  rewrite <- is_valid_coord_true. destruct (is_valid_coord g c); split; congruence.
Qed.

Lemma Coord_eq c c' : row c = row c' → col c = col c' → c = c'.
Proof. destruct c, c'; simpl; congruence. Qed.

Lemma Coord_neq c c' : c ≠ c' → row c ≠ row c' ∨ col c ≠ col c'.
Proof.
  intros Hne. destruct (decide (row c = row c')); [|by left].
  right. intros ?. by apply Hne, Coord_eq.
Qed.

(** ** Reading and writing cells *)

Lemma get_Some_valid g c u : get g c = Some u → is_valid_coord g c = true.
Proof. unfold get. by destruct (is_valid_coord g c). Qed.

Lemma get_invalid g c : is_valid_coord g c = false → get g c = None.
Proof. unfold get. by intros ->. Qed.

Lemma get_Some_has_cell g c u : get g c = Some u → has_cell g c.
Proof.
  intros H. split; [by eapply get_Some_valid|].
  unfold get in H. destruct (is_valid_coord g c); [|done].
  unfold board_cell in H.
  destruct (board g !! Z.to_nat (row c)) as [r|] eqn:Er; [|done]. simpl in H.
  exists r. split; [done|].
  destruct (r !! Z.to_nat (col c)) eqn:Ec; [|done].
  by eapply lookup_lt_Some.
Qed.

Lemma wf_has_cell g c : wf_game g → is_valid_coord g c = true → has_cell g c.
Proof.
  intros [Hl Hr] Hv. split; [done|].
  apply is_valid_coord_true in Hv.
  destruct (lookup_lt_is_Some_2 (board g) (Z.to_nat (row c))) as [r Er]; [lia|].
  exists r. split; [done|].
  rewrite Forall_forall in Hr. rewrite (Hr r); [lia|].
  by eapply list_elem_of_lookup_2.
Qed.

Lemma set_options g c u : options (set g c u) = options g.
Proof. unfold set. by destruct (is_valid_coord g c). Qed.
Lemma set_next_player g c u : next_player (set g c u) = next_player g.
Proof. unfold set. by destruct (is_valid_coord g c). Qed.
Lemma set_turns_played g c u : turns_played (set g c u) = turns_played g.
Proof. unfold set. by destruct (is_valid_coord g c). Qed.
Lemma set_stats g c u : stats (set g c u) = stats g.
Proof. unfold set. by destruct (is_valid_coord g c). Qed.
Lemma set_attacker_has_ai g c u : _attacker_has_ai (set g c u) = _attacker_has_ai g.
Proof. unfold set. by destruct (is_valid_coord g c). Qed.
Lemma set_defender_has_ai g c u : _defender_has_ai (set g c u) = _defender_has_ai g.
Proof. unfold set. by destruct (is_valid_coord g c). Qed.

Lemma set_has_ai g c u p : has_ai (set g c u) p = has_ai g p.
Proof. destruct p; simpl; [apply set_attacker_has_ai | apply set_defender_has_ai]. Qed.

Lemma set_is_valid_coord g c u c' : is_valid_coord (set g c u) c' = is_valid_coord g c'.
Proof. unfold is_valid_coord. by rewrite set_options. Qed.

Lemma wf_set g c u : wf_game g → wf_game (set g c u).
Proof.
  intros [Hl Hr]. unfold wf_game. rewrite set_options.
  unfold set. destruct (is_valid_coord g c); [|done]. simpl.
  split; [by rewrite length_alter|].
  rewrite Forall_forall in Hr |- *. intros r Hin.
  apply list_elem_of_lookup in Hin as [i Hi].
  rewrite list_lookup_alter in Hi. case_decide.
  - destruct (board g !! Z.to_nat (row c)) as [r0|] eqn:E; [|done].
    simpl in Hi. inversion Hi; subst. rewrite length_insert.
    apply Hr. by eapply list_elem_of_lookup_2.
  - apply Hr. by eapply list_elem_of_lookup_2.
Qed.

Lemma has_cell_set g c u c' : has_cell (set g c u) c' ↔ has_cell g c'.
Proof.
  unfold has_cell. rewrite set_is_valid_coord.
  unfold set. destruct (is_valid_coord g c); [|done]. simpl.
  split; intros [Hv [r [Hr Hc]]]; (split; [done|]).
  - rewrite list_lookup_alter in Hr. case_decide as Hd.
    + destruct (board g !! Z.to_nat (row c)) as [r0|] eqn:E; [|done].
      simpl in Hr. inversion Hr; subst. rewrite length_insert in Hc.
      exists r0. by rewrite <- Hd.
    + by exists r.
  - destruct (decide (Z.to_nat (row c) = Z.to_nat (row c'))) as [Hd|Hd].
    + exists (<[Z.to_nat (col c) := u]> r). rewrite length_insert. split; [|done].
      rewrite list_lookup_alter. rewrite decide_True by done.
      rewrite Hd, Hr. done.
    + exists r. split; [|done]. by rewrite list_lookup_alter_ne.
Qed.

Lemma get_set_eq g c u : has_cell g c → get (set g c u) c = u.
Proof.
  intros [Hv [r [Hr Hc]]]. unfold get. rewrite set_is_valid_coord, Hv.
  unfold set. rewrite Hv. simpl. unfold board_cell.
  rewrite list_lookup_alter_eq, Hr. simpl.
  by rewrite list_lookup_insert_eq.
Qed.

Lemma get_set_ne g c u c' : c ≠ c' → get (set g c u) c' = get g c'.
Proof.
  intros Hne. unfold get. rewrite set_is_valid_coord.
  destruct (is_valid_coord g c') eqn:Hv'; [|done].
  unfold set. destruct (is_valid_coord g c) eqn:Hv; [|done]. simpl.
  apply is_valid_coord_true in Hv, Hv'. unfold board_cell.
  rewrite list_lookup_alter. case_decide as Hd; [|done].
  rewrite <- Hd.
  destruct (board g !! Z.to_nat (row c)) as [r|]; [|done]. simpl.
  rewrite list_lookup_insert_ne; [done|].
  destruct (Coord_neq _ _ Hne); lia.
Qed.

Lemma get_set g c u c' :
  has_cell g c → get (set g c u) c' = if decide (c' = c) then u else get g c'.
Proof.
  intros Hc. case_decide as Hd.
  - subst. by apply get_set_eq.
  - by apply get_set_ne.
Qed.

(** ** The effect of [mod_health] *)

Lemma get_with_attacker_has_ai g b c : get (with_attacker_has_ai g b) c = get g c.
Proof. done. Qed.
Lemma get_with_defender_has_ai g b c : get (with_defender_has_ai g b) c = get g c.
Proof. done. Qed.

Lemma Unit_mod_health_type u d : type (Unit_mod_health u d) = type u.
Proof. unfold Unit_mod_health. by repeat case_match. Qed.
Lemma Unit_mod_health_player u d : player (Unit_mod_health u d) = player u.
Proof. unfold Unit_mod_health. by repeat case_match. Qed.
Lemma Unit_mod_health_health u d :
  health (Unit_mod_health u d) = Z.max 0 (Z.min 9 (health u + d)).
Proof. unfold Unit_mod_health. repeat case_match; simpl; lia. Qed.

Lemma Unit_mod_health_range u d : 0 ≤ health (Unit_mod_health u d) ≤ 9.
Proof. rewrite Unit_mod_health_health. lia. Qed.

Lemma get_mod_health g c d c' :
  get (mod_health g c d) c' = if decide (c' = c) then struck d (get g c) else get g c'.
Proof.
  unfold mod_health. destruct (get g c) as [t|] eqn:E.
  - pose proof (get_Some_has_cell _ _ _ E) as Hc.
    unfold remove_dead. rewrite get_set_eq by done. simpl.
    assert (Hc' : has_cell (set g c (Some (Unit_mod_health t d))) c)
      by by apply has_cell_set.
    destruct (Unit_is_alive (Unit_mod_health t d)); simpl.
    + by rewrite get_set.
    + repeat case_decide;
        rewrite ?get_with_attacker_has_ai, ?get_with_defender_has_ai, !get_set;
        try done; by repeat case_decide.
  - simpl. case_decide; by subst.
Qed.

Lemma mod_health_options g c d : options (mod_health g c d) = options g.
Proof.
  unfold mod_health, remove_dead.
  repeat case_match; simpl; by rewrite ?set_options.
Qed.
Lemma mod_health_next_player g c d : next_player (mod_health g c d) = next_player g.
Proof.
  unfold mod_health, remove_dead.
  repeat case_match; simpl; by rewrite ?set_next_player.
Qed.
Lemma mod_health_turns_played g c d : turns_played (mod_health g c d) = turns_played g.
Proof.
  unfold mod_health, remove_dead.
  repeat case_match; simpl; by rewrite ?set_turns_played.
Qed.
Lemma mod_health_stats g c d : stats (mod_health g c d) = stats g.
Proof.
  unfold mod_health, remove_dead.
  repeat case_match; simpl; by rewrite ?set_stats.
Qed.

Lemma wf_mod_health g c d : wf_game g → wf_game (mod_health g c d).
Proof.
  intros Hwf. unfold mod_health, remove_dead.
  repeat case_match; try done; repeat apply wf_set; try done;
    (destruct (wf_set _ c None (wf_set _ c (Some (Unit_mod_health u d)) Hwf)) as [? ?];
     split; simpl; done).
Qed.

Lemma has_ai_mod_health g c d p :
  has_ai (mod_health g c d) p = has_ai g p && negb (kills_ai d p (get g c)).
Proof.
  unfold mod_health. destruct (get g c) as [t|] eqn:E; simpl.
  - pose proof (get_Some_has_cell _ _ _ E) as Hc.
    unfold remove_dead. rewrite get_set_eq by done.
    rewrite Unit_mod_health_type, Unit_mod_health_player.
    destruct (Unit_is_alive (Unit_mod_health t d)); simpl.
    + by rewrite set_has_ai, andb_true_r.
    + destruct (decide (type t = AI)) as [Ht|Ht].
      * rewrite (bool_decide_eq_true_2 _ Ht).
        destruct (decide (player t = Attacker)) as [Hp|Hp].
        -- rewrite Hp. destruct p; simpl.
           ++ by rewrite andb_false_r.
           ++ by rewrite !set_defender_has_ai, andb_true_r.
        -- destruct (player t) eqn:Ep; [done|]. destruct p; simpl.
           ++ by rewrite !set_attacker_has_ai, andb_true_r.
           ++ by rewrite andb_false_r.
      * rewrite (bool_decide_eq_false_2 _ Ht). simpl.
        by rewrite !set_has_ai, andb_true_r.
  - by rewrite andb_true_r.
Qed.

(** A run of hits over distinct cells. *)
Lemma get_foldl_mod_health l d : ∀ g c',
  NoDup l →
  get (foldl (λ g c, mod_health g c d) g l) c'
  = if decide (c' ∈ l) then struck d (get g c') else get g c'.
Proof.
  induction l as [|c l IH]; intros g c' Hnd; [done|cbn [foldl]].
  - apply NoDup_cons in Hnd as [Hnin Hnd].
    rewrite IH by done. rewrite get_mod_health.
    destruct (decide (c' = c)) as [->|Hne].
    + destruct (decide (c ∈ l)); [done|].
      destruct (decide (c ∈ c :: l)) as [|Hn]; [done|].
      exfalso. apply Hn. by left.
    + destruct (decide (c' ∈ l)) as [Hin|Hin];
        destruct (decide (c' ∈ c :: l)) as [Hin'|Hin']; try done.
      * exfalso. apply Hin'. by right.
      * exfalso. by apply elem_of_cons in Hin' as [?|?].
Qed.

Lemma has_ai_foldl_mod_health l d p : ∀ g,
  NoDup l →
  has_ai (foldl (λ g c, mod_health g c d) g l) p
  = has_ai g p && forallb (λ c, negb (kills_ai d p (get g c))) l.
Proof.
  induction l as [|c l IH]; intros g Hnd; simpl.
  - by rewrite andb_true_r.
  - apply NoDup_cons in Hnd as [Hnin Hnd].
    rewrite IH by done. rewrite has_ai_mod_health, <- andb_assoc.
    do 2 f_equal. clear IH. induction l as [|x l IHl]; simpl; [done|].
    apply not_elem_of_cons in Hnin as [Hne Hnin].
    apply NoDup_cons in Hnd as [? Hnd].
    rewrite get_mod_health. destruct (decide (x = c)) as [->|_]; [done|].
    f_equal. by apply IHl.
Qed.

Lemma foldl_mod_health_fields l d : ∀ g,
  let g' := foldl (λ g c, mod_health g c d) g l in
  options g' = options g ∧ next_player g' = next_player g ∧
  turns_played g' = turns_played g ∧ stats g' = stats g.
Proof.
  induction l as [|c l IH]; intros g; simpl; [done|].
  destruct (IH (mod_health g c d)) as (-> & -> & -> & ->).
  by rewrite mod_health_options, mod_health_next_player,
             mod_health_turns_played, mod_health_stats.
Qed.

(** ** Reflection of the boolean tests *)

Lemma is_adjacent_true s d : is_adjacent s d = true ↔ orthogonally_adjacent s d.
Proof.
  unfold is_adjacent, orthogonally_adjacent.
  destruct (row s =? row d) eqn:E1, (Z.abs (col s - col d) =? 1) eqn:E2,
           (col s =? col d) eqn:E3, (Z.abs (row s - row d) =? 1) eqn:E4; simpl;
    split; intros; try done; try lia.
Qed.

Lemma is_adjacent_iter_adjacent s d :
  orthogonally_adjacent s d ↔ d ∈ Coord_iter_adjacent s.
Proof.
  unfold orthogonally_adjacent, Coord_iter_adjacent.
  rewrite !elem_of_cons, elem_of_nil. destruct s as [r k], d as [r' k']; simpl.
  split.
  - intros [[? ?]|[? ?]].
    + destruct (decide (k' = k - 1)); [right; left; f_equal; lia|].
      right; right; right; left; f_equal; lia.
    + destruct (decide (r' = r - 1)); [left; f_equal; lia|].
      right; right; left; f_equal; lia.
  - intros [H|[H|[H|[H|[]]]]]; inversion H; subst; lia.
Qed.

Lemma is_adjacent_ne s d : is_adjacent s d = true → s ≠ d.
Proof. intros H%is_adjacent_true ->. destruct H; lia. Qed.

Lemma is_move_down_true m : is_move_down m = true ↔ moves_down m.
Proof.
  unfold is_move_down, moves_down. rewrite bool_decide_eq_true.
  split; [intros H; inversion H; lia | intros [-> ->]; done].
Qed.
Lemma is_move_right_true m : is_move_right m = true ↔ moves_right m.
Proof.
  unfold is_move_right, moves_right. rewrite bool_decide_eq_true.
  split; [intros H; inversion H; lia | intros [-> ->]; done].
Qed.
Lemma is_move_up_true m : is_move_up m = true ↔ moves_up m.
Proof.
  unfold is_move_up, moves_up. rewrite bool_decide_eq_true.
  split; [intros H; inversion H; lia | intros [-> ->]; done].
Qed.
Lemma is_move_left_true m : is_move_left m = true ↔ moves_left m.
Proof.
  unfold is_move_left, moves_left. rewrite bool_decide_eq_true.
  split; [intros H; inversion H; lia | intros [-> ->]; done].
Qed.

Lemma is_AI_Firewall_Program_true u :
  is_AI_Firewall_Program u = true ↔ restricted_type u.
Proof.
  unfold is_AI_Firewall_Program, restricted_type.
  rewrite !orb_true_iff, !bool_decide_eq_true. tauto.
Qed.

Lemma is_engaged_in_combat_true g c u :
  get g c = Some u → is_engaged_in_combat g c = true ↔ engaged g c u.
Proof.
  intros Hu. unfold is_engaged_in_combat, engaged.
  rewrite existsb_exists. setoid_rewrite <- list_elem_of_In.
  setoid_rewrite <- is_adjacent_iter_adjacent. rewrite Hu. split.
  - intros (n & Hn & H). apply andb_true_iff in H as [_ H].
    destruct (get g n) as [e|] eqn:E; [|done].
    apply negb_true_iff, bool_decide_eq_false in H. by exists n, e.
  - intros (n & e & Hn & He & Hp). exists n. split; [done|].
    rewrite (get_Some_valid _ _ _ He), He. simpl.
    by apply negb_true_iff, bool_decide_eq_false.
Qed.

Lemma in_bounds_valid g c : in_bounds g c ↔ is_valid_coord g c = true.
Proof. by rewrite is_valid_coord_true. Qed.

(** ** C3: the legality of a plain move *)

Lemma is_valid_move_conditions g m :
  is_valid_move g m = true ↔ valid_move_conditions g m.
Proof.
  unfold is_valid_move, valid_move_conditions. rewrite !in_bounds_valid.
  destruct (is_valid_coord g (src m)) eqn:Hs; simpl; [|naive_solver].
  destruct (is_valid_coord g (dst m)) eqn:Hd; simpl; [|naive_solver].
  destruct (get g (src m)) as [u|] eqn:Hu; [|naive_solver].
  pose proof (is_AI_Firewall_Program_true u) as Hr.
  pose proof (is_engaged_in_combat_true g (src m) u Hu) as He.
  pose proof (is_move_down_true m) as Hdn.
  pose proof (is_move_right_true m) as Hrt.
  pose proof (is_move_up_true m) as Hup.
  pose proof (is_move_left_true m) as Hlf.
  pose proof (is_adjacent_true (src m) (dst m)) as Ha.
  pose proof (bool_decide_eq_true (player u = next_player g)) as Hp.
  pose proof (bool_decide_eq_true (player u = Attacker)) as Hpa.
  pose proof (bool_decide_eq_true (player u = Defender)) as Hpd.
  destruct (bool_decide (player u = next_player g)); simpl; reflect_all;
    [|split; [done|intros (_ & _ & u' & Hu' & ?); simplify_eq; tauto]].
  destruct (is_adjacent (src m) (dst m)); simpl; reflect_all;
    [|split; [done|intros (_ & _ & u' & Hu' & ?); simplify_eq; tauto]].
  destruct (is_AI_Firewall_Program u), (is_engaged_in_combat g (src m)),
    (bool_decide (player u = Attacker)), (bool_decide (player u = Defender)),
    (is_move_down m), (is_move_right m), (is_move_up m), (is_move_left m);
    simpl; reflect_all;
    try (split; [done|intros (_ & _ & u' & Hu' & ?); simplify_eq; tauto]);
    (destruct (get g (dst m)) eqn:Hget;
     [split; [done|intros (_ & _ & u' & Hu' & ?); simplify_eq; naive_solver]
     |split; [intros _; do 2 (split; [done|]); exists u; tauto|done]]).
Qed.

(** C3. [is_valid_move] holds exactly when both coordinates are in
    bounds, the source holds a unit of the player to move, the
    destination is orthogonally adjacent and empty, the unit is not an
    Attacker AI, Firewall or Program going down or right nor a Defender
    one going up or left, and it is not an AI, Firewall or Program with
    an enemy in an orthogonal neighbour cell.  Tech and Virus, not being
    restricted types, pass the last three conditions. *)
Theorem is_valid_move_iff g m :
  is_valid_move g m = true ↔ valid_move_conditions g m.
Proof. apply is_valid_move_conditions. Qed.

(** ** Checking a concrete board *)

Lemma get_in_board g c u :
  get g c = Some u → ∃ r, r ∈ board g ∧ Some u ∈ r.
Proof.
  unfold get, board_cell. destruct (is_valid_coord g c); [|done].
  destruct (board g !! Z.to_nat (row c)) as [r|] eqn:Er; [|done]. simpl.
  destruct (r !! Z.to_nat (col c)) as [o|] eqn:Ec; [|done]. simpl. intros ->.
  exists r. split; by eapply list_elem_of_lookup_2.
Qed.

Lemma units_healthy_check_sound g : units_healthy_check g = true → units_healthy g.
Proof.
  unfold units_healthy_check. rewrite forallb_forall. intros H c u Hu.
  apply get_in_board in Hu as (r & Hr & Hin).
  apply list_elem_of_In in Hr, Hin. specialize (H r Hr).
  rewrite forallb_forall in H. specialize (H _ Hin). simpl in H. lia.
Qed.

(** ** C1: the dispatch of [perform_move] *)

Lemma attack_defined g m : is_valid_to_attack g m = true → is_Some (attack g m).
Proof.
  unfold is_valid_to_attack, attack.
  destruct (get g (src m)); [|done]. destruct (get g (dst m)); [|done]. by eexists.
Qed.

Lemma repair_defined g m : is_valid_to_repair g m = true → is_Some (repair g m).
Proof.
  unfold is_valid_to_repair, repair.
  destruct (get g (src m)); [|done]. destruct (get g (dst m)); [|done]. by eexists.
Qed.

Lemma self_destruct_defined g m :
  is_valid_to_self_destruct g m = true → is_Some (self_destruct g m).
Proof.
  unfold is_valid_to_self_destruct, self_destruct.
  destruct (get g (src m)); [|done]. by eexists.
Qed.

Lemma perform_move_total g m : is_Some (perform_move g m).
Proof.
  unfold perform_move.
  destruct (is_valid_move g m); [by eexists|].
  destruct (is_valid_to_attack g m) eqn:Ha.
  { destruct (attack_defined _ _ Ha) as [g' ->]. by eexists. }
  destruct (is_valid_to_repair g m) eqn:Hr.
  { destruct (repair_defined _ _ Hr) as [g' ->]. by eexists. }
  destruct (is_valid_to_self_destruct g m) eqn:Hs.
  { destruct (self_destruct_defined _ _ Hs) as [g' ->]. by eexists. }
  by eexists.
Qed.

(** C1. [perform_move] always returns; it resolves the first applicable
    action in the order plain move, attack, repair, self-destruct and
    returns [true] with that action's tag, and when none applies it
    returns [false] with "invalid move" and the game it was given. *)
Theorem perform_move_priority g m :
  ∃ g' r, perform_move g m = Some (g', r) ∧
    if is_valid_move g m then
      g' = set (set g (dst m) (get g (src m))) (src m) None ∧ r = (true, "move"%string)
    else if is_valid_to_attack g m then
      attack g m = Some g' ∧ r = (true, "attack"%string)
    else if is_valid_to_repair g m then
      repair g m = Some g' ∧ r = (true, "repair"%string)
    else if is_valid_to_self_destruct g m then
      self_destruct g m = Some g' ∧ r = (true, "self-destruct"%string)
    else g' = g ∧ r = (false, "invalid move"%string).
Proof.
  unfold perform_move.
  destruct (is_valid_move g m); [by eexists _, _|].
  destruct (is_valid_to_attack g m) eqn:Ha.
  { destruct (attack_defined _ _ Ha) as [g' ->]. by eexists _, _. }
  destruct (is_valid_to_repair g m) eqn:Hr.
  { destruct (repair_defined _ _ Hr) as [g' ->]. by eexists _, _. }
  destruct (is_valid_to_self_destruct g m) eqn:Hs.
  { destruct (self_destruct_defined _ _ Hs) as [g' ->]. by eexists _, _. }
  by eexists _, _.
Qed.

(** ** C4: the winner *)

(** C4, as stated, fails: with both AIs dead below the turn limit the
    code names the Defender, the claim no one. *)
Lemma has_winner_both_dead :
  has_winner both_ais_dead = Some Defender ∧
  claimed_winner both_ais_dead = None ∧
  has_winner both_ais_dead ≠ claimed_winner both_ais_dead.
Proof. by vm_compute. Qed.

(** C4, amended. [has_winner] names the Defender once the turn limit is
    reached; below it, the Defender whenever the Attacker's AI is dead
    (also when both are), the Attacker when only the Defender's AI is
    dead, and no one while both AIs live. *)
Theorem has_winner_cases g :
  has_winner g =
    if turn_limit_reached g then Some Defender
    else match _attacker_has_ai g, _defender_has_ai g with
         | false, _ => Some Defender
         | true, false => Some Attacker
         | true, true => None
         end.
Proof.
  unfold has_winner, turn_limit_reached.
  by destruct (max_turns (options g)) as [mt|], (_attacker_has_ai g), (_defender_has_ai g);
    try destruct (mt <=? turns_played g).
Qed.

(** The claim's table is right on the three other flag combinations. *)
Lemma has_winner_claimed g :
  (_attacker_has_ai g || _defender_has_ai g || turn_limit_reached g) = true →
  has_winner g = claimed_winner g.
Proof.
  unfold has_winner, claimed_winner, turn_limit_reached.
  by destruct (max_turns (options g)) as [mt|], (_attacker_has_ai g), (_defender_has_ai g);
    try destruct (mt <=? turns_played g).
Qed.

(** ** C6: repair *)

Lemma table_entry_repair_range a b :
  table_entry repair_table a b = 0 ∨ table_entry repair_table a b = 1
  ∨ table_entry repair_table a b = 3.
Proof. destruct a, b; vm_compute; tauto. Qed.

Lemma table_entry_damage_range a b : 1 ≤ table_entry damage_table a b ≤ 9.
Proof. destruct a, b; vm_compute; split; discriminate. Qed.

Lemma Unit_repair_amount_capped s d :
  health d < 9 →
  Unit_repair_amount s d = Z.min (table_entry repair_table (type s) (type d)) (9 - health d).
Proof.
  intros Hd. unfold Unit_repair_amount.
  pose proof (table_entry_repair_range (type s) (type d)).
  destruct (9 <? _) eqn:E; lia.
Qed.

Lemma is_valid_to_repair_iff g m :
  is_valid_to_repair g m = true ↔ valid_repair_conditions g m.
Proof.
  unfold is_valid_to_repair, valid_repair_conditions.
  destruct (get g (src m)) as [s|]; [|naive_solver].
  destruct (get g (dst m)) as [d|]; [|naive_solver].
  rewrite !andb_true_iff, !bool_decide_eq_true, is_adjacent_true,
    negb_true_iff, Z.eqb_neq, Z.ltb_lt.
  pose proof (table_entry_repair_range (type s) (type d)) as Ht.
  split.
  - intros ((((Ha & Hp) & Hq) & Hr) & Hh). exists s, d.
    repeat split; try done. rewrite Unit_repair_amount_capped in Hr by done. lia.
  - intros (s' & d' & Hs & Hd & Ha & Hp & Hq & Hr & Hh). simplify_eq.
    repeat split; try done. rewrite Unit_repair_amount_capped by done. lia.
Qed.

(** C6. [is_valid_to_repair] holds exactly when both cells are occupied
    and adjacent, the source unit belongs to the player to move, both
    units have one owner, the repair table entry is not 0 and the target
    has less than 9 health; so a target at 9 or a pair with entry 0 is
    rejected.  On a board of healthy units a valid repair raises the
    target's health by the table entry, capped at 9, and leaves every
    other cell (the repairer's among them) and the AI flags as they
    were. *)
Theorem repair_correct g m :
  (is_valid_to_repair g m = true ↔ valid_repair_conditions g m) ∧
  (∀ s d, get g (src m) = Some s → get g (dst m) = Some d →
          health d = 9 ∨ table_entry repair_table (type s) (type d) = 0 →
          is_valid_to_repair g m = false) ∧
  (units_healthy g → is_valid_to_repair g m = true →
   ∃ s d g',
     get g (src m) = Some s ∧ get g (dst m) = Some d ∧ repair g m = Some g' ∧
     let h' := Z.min 9 (health d + table_entry repair_table (type s) (type d)) in
     health d < h' ≤ 9 ∧
     get g' (dst m) = Some (with_health d h') ∧
     get g' (src m) = Some s ∧
     (∀ c, c ≠ dst m → get g' c = get g c) ∧
     (∀ p, has_ai g' p = has_ai g p)).
Proof.
  split; [apply is_valid_to_repair_iff|]. split.
  - intros s d Hs Hd Hbad. apply not_true_is_false. rewrite is_valid_to_repair_iff.
    intros (s' & d' & Hs' & Hd' & _ & _ & _ & Hr & Hh). simplify_eq. lia.
  - intros Hh Hv. apply is_valid_to_repair_iff in Hv
      as (s & d & Hs & Hd & Ha & Hp & Hq & Hr & Hlt).
    exists s, d. unfold repair. rewrite Hs, Hd. simpl. eexists.
    do 3 (split; [done|]).
    pose proof (table_entry_repair_range (type s) (type d)) as Ht.
    pose proof (Hh _ _ Hd) as Hrange.
    set (h' := Z.min 9 _).
    assert (Hne : src m ≠ dst m) by by apply is_adjacent_ne, is_adjacent_true.
    assert (Hstruck : struck (Unit_repair_amount s d) (Some d) = Some (with_health d h')).
    { unfold struck. rewrite Unit_repair_amount_capped by done.
      unfold Unit_mod_health, Unit_is_alive. subst h'.
      repeat case_match; simpl in *; try lia; f_equal; unfold with_health; f_equal; lia. }
    split; [subst h'; lia|]. split; [|split; [|split]].
    + rewrite get_mod_health, decide_True by done. by rewrite Hd.
    + by rewrite get_mod_health, decide_False.
    + intros c Hc. by rewrite get_mod_health, decide_False.
    + intros p. rewrite has_ai_mod_health, Hd.
      unfold kills_ai. unfold struck in Hstruck.
      destruct (Unit_is_alive (Unit_mod_health d (Unit_repair_amount s d))); [|done].
      simpl. by rewrite andb_true_r.
Qed.

(** ** Rectangles of coordinates *)

Lemma elem_of_range a b x : x ∈ range a b ↔ a ≤ x < b.
Proof. unfold range. rewrite elem_of_seqZ. lia. Qed.

Lemma NoDup_range a b : NoDup (range a b).
Proof. apply NoDup_seqZ. Qed.

Lemma length_range a b : length (range a b) = Z.to_nat (b - a).
Proof. apply length_seqZ. Qed.

Section rect.
Variables rows cols : list Z.

Lemma elem_of_rect c :
  c ∈ (r ← rows; k ← cols; [mkCoord r k]) ↔ row c ∈ rows ∧ col c ∈ cols.
Proof.
  rewrite list_elem_of_bind. setoid_rewrite list_elem_of_bind.
  setoid_rewrite list_elem_of_singleton. split.
  - intros (r & (k & -> & Hk) & Hr). done.
  - intros [Hr Hk]. exists (row c). split; [|done].
    exists (col c). split; [|done]. by destruct c.
Qed.

Lemma NoDup_rect :
  NoDup rows → NoDup cols → NoDup (r ← rows; k ← cols; [mkCoord r k]).
Proof.
  intros Hr Hk. apply NoDup_bind; [| |done].
  - intros r1 r2 c _ _ H1 H2.
    apply list_elem_of_bind in H1 as (k1 & ->%list_elem_of_singleton & _).
    apply list_elem_of_bind in H2 as (k2 & E%list_elem_of_singleton & _).
    by inversion E.
  - intros r _. apply NoDup_bind; [| |done].
    + intros k1 k2 c _ _ ->%list_elem_of_singleton E%list_elem_of_singleton.
      by inversion E.
    + intros k _. apply NoDup_singleton.
Qed.

Lemma length_rect :
  length (r ← rows; k ← cols; [mkCoord r k]) = (length rows * length cols)%nat.
Proof.
  induction rows as [|r rs IH]; [done|].
  rewrite bind_cons, length_app, IH. simpl. f_equal.
  clear. induction cols as [|k ks IHk]; [done|].
  rewrite bind_cons, length_app, IHk. done.
Qed.
End rect.

Lemma elem_of_iter_range center c : c ∈ Coord_iter_range center 1 ↔ in_block center c.
Proof.
  unfold Coord_iter_range, in_block. rewrite elem_of_rect, !elem_of_range. lia.
Qed.

Lemma NoDup_iter_range center dist : NoDup (Coord_iter_range center dist).
Proof. apply NoDup_rect; apply NoDup_range. Qed.

Lemma length_iter_range center : length (Coord_iter_range center 1) = 9%nat.
Proof.
  unfold Coord_iter_range. rewrite length_rect, !length_range.
  replace (row center + 1 + 1 - (row center - 1)) with 3 by lia.
  by replace (col center + 1 + 1 - (col center - 1)) with 3 by lia.
Qed.

Lemma elem_of_iter_rectangle dim c :
  c ∈ CoordPair_iter_rectangle (CoordPair_from_dim dim) ↔
  0 ≤ row c < dim ∧ 0 ≤ col c < dim.
Proof.
  unfold CoordPair_iter_rectangle, CoordPair_from_dim. simpl.
  rewrite elem_of_rect, !elem_of_range. lia.
Qed.

Lemma NoDup_iter_rectangle p : NoDup (CoordPair_iter_rectangle p).
Proof. apply NoDup_rect; apply NoDup_range. Qed.

(** ** Hits on healthy units *)

Lemma struck_damage u damage :
  1 ≤ health u ≤ 9 → 0 ≤ damage → struck (- damage) (Some u) = after_damage u damage.
Proof.
  intros Hh Hd. unfold struck, after_damage, Unit_mod_health, Unit_is_alive, with_health.
  repeat case_match; simpl in *; try lia; repeat f_equal; lia.
Qed.

Lemma kills_ai_damage u damage p :
  1 ≤ health u ≤ 9 → 0 ≤ damage → kills_ai (- damage) p (Some u) = ai_lost u damage p.
Proof.
  intros Hh Hd. unfold kills_ai, ai_lost. do 2 f_equal.
  unfold Unit_mod_health, Unit_is_alive, with_health.
  repeat case_match; simpl in *; lia.
Qed.

Lemma Unit_damage_amount_capped s d :
  0 ≤ health d →
  Unit_damage_amount s d = Z.min (table_entry damage_table (type s) (type d)) (health d).
Proof.
  intros Hd. unfold Unit_damage_amount.
  pose proof (table_entry_damage_range (type s) (type d)).
  destruct (_ <? 0) eqn:E; lia.
Qed.

(** ** C2: attack *)

(** C2. On a board of healthy units, a valid attack computes both
    amounts from the healths before the attack, each the damage-table
    entry capped at the target's health; both are at least 1, so the
    attacker is always hit too.  The source loses the destination's
    amount and the destination the source's: each cell then holds its
    unit with exactly that much less health, or nothing when none is
    left; no health drops below 0; every other cell is untouched, and an
    AI flag is cleared exactly for an AI removed on either side. *)
Theorem attack_correct g m s d :
  units_healthy g → is_valid_to_attack g m = true →
  get g (src m) = Some s → get g (dst m) = Some d →
  let to_dst := Unit_damage_amount s d in
  let to_src := Unit_damage_amount d s in
  to_dst = Z.min (table_entry damage_table (type s) (type d)) (health d) ∧
  to_src = Z.min (table_entry damage_table (type d) (type s)) (health s) ∧
  1 ≤ to_src ≤ health s ∧ 1 ≤ to_dst ≤ health d ∧
  ∃ g', attack g m = Some g' ∧
        get g' (src m) = after_damage s to_src ∧
        get g' (dst m) = after_damage d to_dst ∧
        (∀ c, c ≠ src m → c ≠ dst m → get g' c = get g c) ∧
        (∀ p, has_ai g' p = has_ai g p && negb (ai_lost s to_src p)
                                       && negb (ai_lost d to_dst p)).
Proof.
  intros Hh Hv Hs Hd to_dst to_src.
  pose proof (Hh _ _ Hs) as Hhs. pose proof (Hh _ _ Hd) as Hhd.
  pose proof (table_entry_damage_range (type s) (type d)).
  pose proof (table_entry_damage_range (type d) (type s)).
  assert (Hto_dst : to_dst = Z.min (table_entry damage_table (type s) (type d)) (health d))
    by (apply Unit_damage_amount_capped; lia).
  assert (Hto_src : to_src = Z.min (table_entry damage_table (type d) (type s)) (health s))
    by (apply Unit_damage_amount_capped; lia).
  do 2 (split; [done|]). do 2 (split; [lia|]).
  assert (Hne : src m ≠ dst m).
  { unfold is_valid_to_attack in Hv. rewrite Hs, Hd in Hv.
    apply andb_true_iff in Hv as [[Ha%is_adjacent_ne _]%andb_true_iff _]. done. }
  unfold attack. rewrite Hs, Hd. simpl. eexists. split; [done|].
  fold to_dst to_src. split; [|split; [|split]].
  - rewrite get_mod_health, decide_False by done.
    rewrite get_mod_health, decide_True by done.
    rewrite Hs. apply struck_damage; lia.
  - rewrite get_mod_health, decide_True by done.
    rewrite get_mod_health, decide_False by done.
    rewrite Hd. apply struck_damage; lia.
  - intros c Hc1 Hc2. by rewrite !get_mod_health, !decide_False.
  - intros p. rewrite !has_ai_mod_health, get_mod_health, decide_False by done.
    rewrite Hs, Hd, !kills_ai_damage by lia. done.
Qed.

(** ** C5: self-destruct *)

Lemma struck_two u : 1 ≤ health u ≤ 9 → struck (-2) (Some u) = after_damage u 2.
Proof. intros. by apply (struck_damage u 2). Qed.

Lemma kills_ai_two u p : 1 ≤ health u ≤ 9 → kills_ai (-2) p (Some u) = ai_lost u 2 p.
Proof. intros. by apply (kills_ai_damage u 2 p). Qed.

Lemma struck_own_health u : struck (- health u) (Some u) = None.
Proof.
  unfold struck, Unit_mod_health, Unit_is_alive, with_health.
  repeat case_match; simpl in *; try done; lia.
Qed.

Lemma length_block_cells g center : (length (block_cells g center) ≤ 9)%nat.
Proof.
  unfold block_cells. etrans; [apply length_filter|]. by rewrite length_iter_range.
Qed.

Lemma elem_of_block_cells g center c :
  c ∈ block_cells g center ↔ in_block center c ∧ in_bounds g c.
Proof.
  unfold block_cells. rewrite list_elem_of_filter, elem_of_iter_range, in_bounds_valid. tauto.
Qed.

(** C5. On a board of healthy units, a valid self-destruct empties the
    source cell and takes 2 health from the unit of every other cell of
    the 3 by 3 block around it, removing those left with none; cells
    outside the block are untouched.  An AI flag stays set exactly when
    no AI of that player was the actor or was removed in the block.
    The cells touched lie among the block's cells on the board, which
    are distinct and at most 9. *)
Theorem self_destruct_correct g m :
  units_healthy g → is_valid_to_self_destruct g m = true →
  ∃ g', self_destruct g m = Some g' ∧
        get g' (src m) = None ∧
        (∀ c u, c ≠ src m → in_block (src m) c → get g c = Some u →
                get g' c = after_damage u 2) ∧
        (∀ c, c ≠ src m → get g c = None → get g' c = None) ∧
        (∀ c, ¬ in_block (src m) c → get g' c = get g c) ∧
        (∀ p, has_ai g' p = true ↔
              has_ai g p = true ∧
              ∀ c u, in_block (src m) c → get g c = Some u →
                     type u = AI → player u = p → c ≠ src m ∧ 2 < health u) ∧
        (∀ c, get g' c ≠ get g c → c ∈ block_cells g (src m)) ∧
        NoDup (block_cells g (src m)) ∧
        Z.of_nat (length (block_cells g (src m)))
        = Z.min 9 (Z.of_nat (length (block_cells g (src m)))).
Proof.
  intros Hh Hv. unfold is_valid_to_self_destruct in Hv.
  destruct (get g (src m)) as [a|] eqn:Ha; [|done].
  unfold self_destruct. rewrite Ha. simpl. eexists. split; [done|].
  set (g1 := mod_health g (src m) (- health a)).
  assert (Hg1 : ∀ c, get g1 c = if decide (c = src m) then None else get g c).
  { intros c. unfold g1. rewrite get_mod_health, Ha, struck_own_health. done. }
  assert (Hg' : ∀ c, get (foldl (λ g c, mod_health g c (-2)) g1 (Coord_iter_range (src m) 1)) c
                     = if decide (c = src m) then None
                       else if decide (in_block (src m) c) then struck (-2) (get g c)
                       else get g c).
  { intros c. rewrite get_foldl_mod_health by apply NoDup_iter_range.
    rewrite Hg1. destruct (decide (c = src m)) as [->|Hc].
    - rewrite decide_True; [done|]. apply elem_of_iter_range. unfold in_block. lia.
    - destruct (decide (in_block (src m) c)) as [Hb|Hb].
      + rewrite decide_True; [done|]. by apply elem_of_iter_range.
      + rewrite decide_False; [done|]. by rewrite elem_of_iter_range. }
  split; [by rewrite Hg', decide_True|].
  split; [|split; [|split; [|split; [|split; [|split]]]]].
  - intros c u Hc Hb Hu. rewrite Hg', decide_False, decide_True, Hu by done.
    apply struck_two. by eapply Hh.
  - intros c Hc Hn. rewrite Hg'. rewrite decide_False by done. rewrite Hn.
    by destruct (decide (in_block (src m) c)).
  - intros c Hb. rewrite Hg'. rewrite decide_False.
    + by rewrite decide_False.
    + intros ->. apply Hb. unfold in_block. lia.
  - intros p. rewrite has_ai_foldl_mod_health by apply NoDup_iter_range.
    unfold g1 at 1. rewrite has_ai_mod_health, Ha.
    rewrite !andb_true_iff, negb_true_iff, forallb_forall.
    setoid_rewrite <- list_elem_of_In. setoid_rewrite elem_of_iter_range.
    setoid_rewrite Hg1. split.
    + intros [[Hp Hk] Hall]. split; [done|]. intros c u Hb Hu Ht Hpl.
      destruct (decide (c = src m)) as [->|Hc].
      * exfalso. simplify_eq. unfold kills_ai in Hk.
        rewrite (bool_decide_eq_true_2 _ Ht), (bool_decide_eq_true_2 (player a = player a)) in Hk by done.
        rewrite !andb_true_r in Hk. apply negb_false_iff in Hk.
        unfold Unit_is_alive in Hk. rewrite Unit_mod_health_health in Hk. lia.
      * split; [done|]. specialize (Hall c Hb). rewrite decide_False, Hu in Hall by done.
        rewrite kills_ai_two in Hall by by eapply Hh.
        unfold ai_lost in Hall.
        rewrite (bool_decide_eq_true_2 _ Ht), (bool_decide_eq_true_2 _ Hpl) in Hall.
        rewrite !andb_true_r in Hall. apply negb_true_iff in Hall. lia.
    + intros [Hp Hall]. split; [split; [done|]|].
      * unfold kills_ai. destruct (decide (type a = AI)) as [Ht|Ht];
          [|by rewrite (bool_decide_eq_false_2 _ Ht), andb_false_r].
        destruct (decide (player a = p)) as [Hpl|Hpl];
          [|by rewrite (bool_decide_eq_false_2 _ Hpl), andb_false_r].
        exfalso. destruct (Hall (src m) a); try done. unfold in_block. lia.
      * intros c Hb. destruct (decide (c = src m)) as [->|Hc]; [done|].
        destruct (get g c) as [u|] eqn:Hu; [|done].
        rewrite kills_ai_two by by eapply Hh.
        unfold ai_lost. destruct (decide (type u = AI)) as [Ht|Ht];
          [|by rewrite (bool_decide_eq_false_2 _ Ht), andb_false_r].
        destruct (decide (player u = p)) as [Hpl|Hpl];
          [|by rewrite (bool_decide_eq_false_2 _ Hpl), andb_false_r].
        destruct (Hall c u) as [_ ?]; try done.
        rewrite (proj2 (Z.leb_gt _ _)) by lia. done.
  - intros c Hdiff. apply elem_of_block_cells.
    rewrite Hg' in Hdiff.
    destruct (decide (in_block (src m) c)) as [Hb|Hb].
    + split; [done|]. apply in_bounds_valid.
      destruct (is_valid_coord g c) eqn:Hvc; [done|]. exfalso. apply Hdiff.
      rewrite (get_invalid _ _ Hvc). by repeat case_decide.
    + exfalso. apply Hdiff. rewrite decide_False; [done|].
      intros ->. apply Hb. unfold in_block. lia.
  - apply NoDup_filter, NoDup_iter_range.
  - pose proof (length_block_cells g (src m)). lia.
Qed.

(** ** Preservation by a hit *)

Lemma struck_Some d o u' :
  struck d o = Some u' →
  ∃ u, o = Some u ∧ type u' = type u ∧ player u' = player u ∧ 1 ≤ health u' ≤ 9.
Proof.
  unfold struck. destruct o as [u|]; [|done].
  destruct (Unit_is_alive (Unit_mod_health u d)) eqn:E; [|done].
  intros [= <-]. exists u. rewrite Unit_mod_health_type, Unit_mod_health_player.
  unfold Unit_is_alive in E. pose proof (Unit_mod_health_range u d). repeat split; lia.
Qed.

Lemma strong_invariant_mod_health g c d :
  strong_invariant g → strong_invariant (mod_health g c d).
Proof.
  intros (Hwf & Hh & Hf & Hone).
  assert (Hback : ∀ c' u', get (mod_health g c d) c' = Some u' →
            ∃ u, get g c' = Some u ∧ type u' = type u ∧ player u' = player u
                 ∧ (c' ≠ c → u' = u) ∧ 1 ≤ health u' ≤ 9).
  { intros c' u'. rewrite get_mod_health. case_decide as Hc.
    - subst c'. intros (u & Hu & ? & ? & ?)%struck_Some. exists u. naive_solver.
    - intros Hu. exists u'. repeat split; try done; by eapply Hh. }
  split; [by apply wf_mod_health|]. split; [|split].
  - intros c' u' Hu'. by destruct (Hback _ _ Hu') as (u & _ & _ & _ & _ & ?).
  - intros p. rewrite has_ai_mod_health, andb_true_iff, negb_true_iff, (Hf p).
    split.
    + intros [(c' & u & Hu & Ht & Hp) Hk]. exists c'.
      destruct (decide (c' = c)) as [->|Hc].
      * rewrite get_mod_health, decide_True, Hu by done.
        unfold kills_ai in Hk. rewrite Hu in Hk.
        rewrite (bool_decide_eq_true_2 _ Ht), (bool_decide_eq_true_2 _ Hp),
          !andb_true_r in Hk. apply negb_false_iff in Hk.
        unfold struck. rewrite Hk. eexists.
        by rewrite Unit_mod_health_type, Unit_mod_health_player.
      * exists u. by rewrite get_mod_health, decide_False.
    + intros (c' & u' & Hu' & Ht & Hp).
      destruct (Hback _ _ Hu') as (u & Hu & Ht' & Hp' & _ & _).
      split; [exists c', u; split; [done|split; congruence]|].
      unfold kills_ai. destruct (get g c) as [t|] eqn:Hc; [|done].
      destruct (Unit_is_alive (Unit_mod_health t d)) eqn:Halive; [done|]. simpl.
      destruct (decide (type t = AI ∧ player t = p)) as [[Ht2 Hp2]|Hn].
      * exfalso. assert (c' = c) as -> by (eapply Hone; eauto; congruence).
        rewrite get_mod_health, decide_True, Hc in Hu' by done.
        unfold struck in Hu'. by rewrite Halive in Hu'.
      * apply andb_false_iff. rewrite !bool_decide_eq_false.
        destruct (decide (type t = AI)); [right|left]; tauto.
  - intros c1 c2 u1 u2 H1 H2 Ht1 Ht2 Hp.
    destruct (Hback _ _ H1) as (v1 & Hv1 & ? & ? & _).
    destruct (Hback _ _ H2) as (v2 & Hv2 & ? & ? & _).
    eapply Hone; eauto; congruence.
Qed.

Lemma strong_invariant_foldl_mod_health l d : ∀ g,
  strong_invariant g → strong_invariant (foldl (λ g c, mod_health g c d) g l).
Proof.
  induction l as [|c l IH]; intros g Hg; [done|].
  simpl. by apply IH, strong_invariant_mod_health.
Qed.

(** ** Preservation by the four actions and by [next_turn] *)

Lemma get_relocate g m :
  wf_game g → is_valid_move g m = true →
  ∀ c, get (set (set g (dst m) (get g (src m))) (src m) None) c
       = if decide (c = src m) then None
         else if decide (c = dst m) then get g (src m) else get g c.
Proof.
  intros Hwf Hv c. apply is_valid_move_conditions in Hv as (Hs & Hd & u & Hu & _).
  rewrite get_set by (apply has_cell_set; by eapply get_Some_has_cell).
  case_decide; [done|].
  by rewrite get_set by (apply wf_has_cell; [done|by apply in_bounds_valid]).
Qed.

Lemma strong_invariant_relocate g m :
  strong_invariant g → is_valid_move g m = true →
  strong_invariant (set (set g (dst m) (get g (src m))) (src m) None).
Proof.
  intros (Hwf & Hh & Hf & Hone) Hv.
  pose proof (get_relocate g m Hwf Hv) as Hget.
  apply is_valid_move_conditions in Hv as (_ & _ & a & Ha & _ & Hadj & Hempty & _).
  assert (Hne : src m ≠ dst m) by by apply is_adjacent_ne, is_adjacent_true.
  set (g' := set _ (src m) None) in *.
  (* every unit of [g'] comes from a cell of [g], one for one *)
  assert (Hback : ∀ c u, get g' c = Some u →
            get g (if decide (c = dst m) then src m else c) = Some u ∧ c ≠ src m).
  { intros c u. rewrite Hget. repeat case_decide; try done; naive_solver. }
  split; [by do 2 apply wf_set|]. split; [|split].
  - intros c u Hu. apply Hback in Hu as [Hu _]. by eapply Hh.
  - intros p. unfold g'. rewrite !set_has_ai, (Hf p). split.
    + intros (c & u & Hu & Ht & Hp).
      destruct (decide (c = src m)) as [->|Hc].
      * exists (dst m), u. rewrite Hget, decide_False, decide_True by done.
        split; [congruence|done].
      * exists c, u. rewrite Hget, decide_False, decide_False; [done| |done].
        intros ->. congruence.
    + intros (c & u & Hu & Ht & Hp). apply Hback in Hu as [Hu _].
      eexists _, u. split; [exact Hu|done].
  - intros c1 c2 u1 u2 H1 H2 Ht1 Ht2 Hp.
    apply Hback in H1 as [H1 Hn1]. apply Hback in H2 as [H2 Hn2].
    pose proof (Hone _ _ _ _ H1 H2 Ht1 Ht2 Hp) as Heq.
    repeat case_decide; congruence.
Qed.

Lemma strong_invariant_next_turn g : strong_invariant g → strong_invariant (next_turn g).
Proof. done. Qed.

Lemma strong_invariant_perform_move g m g' r :
  strong_invariant g → perform_move g m = Some (g', r) → strong_invariant g'.
Proof.
  intros Hg. unfold perform_move.
  destruct (is_valid_move g m) eqn:Hm.
  { intros [= <- _]. by apply strong_invariant_relocate. }
  destruct (is_valid_to_attack g m).
  { unfold attack. destruct (get g (src m)); [|done]. destruct (get g (dst m)); [|done].
    simpl. intros [= <- _]. by do 2 apply strong_invariant_mod_health. }
  destruct (is_valid_to_repair g m).
  { unfold repair. destruct (get g (src m)); [|done]. destruct (get g (dst m)); [|done].
    simpl. intros [= <- _]. by apply strong_invariant_mod_health. }
  destruct (is_valid_to_self_destruct g m).
  { unfold self_destruct. destruct (get g (src m)); [|done].
    simpl. intros [= <- _].
    by apply strong_invariant_foldl_mod_health, strong_invariant_mod_health. }
  by intros [= <- _].
Qed.

(** ** The opening position *)

Lemma get_empty_board g n c :
  get (with_board g (replicate n (replicate n None))) c = None.
Proof.
  unfold get. destruct (is_valid_coord _ c); [|done]. simpl. unfold board_cell.
  destruct (replicate n _ !! _) as [r|] eqn:E; [|done]. simpl.
  apply lookup_replicate in E as [-> _].
  destruct (replicate n _ !! _) as [o|] eqn:E'; [|done].
  by apply lookup_replicate in E' as [-> _].
Qed.

Lemma wf_empty_board g :
  wf_game (with_board g (replicate (Z.to_nat (dim (options g)))
                                   (replicate (Z.to_nat (dim (options g))) None))).
Proof.
  split; simpl; [by rewrite length_replicate|].
  apply Forall_replicate. by rewrite length_replicate.
Qed.

Lemma get_new_Game opts c :
  3 ≤ dim opts →
  let md := dim opts - 1 in
  get (new_Game opts) c =
    if decide (c = mkCoord (md - 1) (md - 1)) then Some (mkUnit Attacker Firewall 9)
    else if decide (c = mkCoord md (md - 2)) then Some (mkUnit Attacker Program 9)
    else if decide (c = mkCoord (md - 2) md) then Some (mkUnit Attacker Program 9)
    else if decide (c = mkCoord md (md - 1)) then Some (mkUnit Attacker Virus 9)
    else if decide (c = mkCoord (md - 1) md) then Some (mkUnit Attacker Virus 9)
    else if decide (c = mkCoord md md) then Some (mkUnit Attacker AI 9)
    else if decide (c = mkCoord 1 1) then Some (mkUnit Defender Program 9)
    else if decide (c = mkCoord 0 2) then Some (mkUnit Defender Firewall 9)
    else if decide (c = mkCoord 2 0) then Some (mkUnit Defender Firewall 9)
    else if decide (c = mkCoord 0 1) then Some (mkUnit Defender Tech 9)
    else if decide (c = mkCoord 1 0) then Some (mkUnit Defender Tech 9)
    else if decide (c = mkCoord 0 0) then Some (mkUnit Defender AI 9)
    else None.
Proof.
  intros Hdim md. unfold new_Game, post_init. cbn [options].
  set (e := with_board _ _).
  assert (Hcell : ∀ c, is_valid_coord e c = true → has_cell e c)
    by (intros ?; apply wf_has_cell, (wf_empty_board (mkGame [] Attacker 0 opts _ true true))).
  assert (Hvalid : ∀ r k, 0 ≤ r < dim opts → 0 ≤ k < dim opts → has_cell e (mkCoord r k))
    by (intros r k ? ?; apply Hcell, is_valid_coord_true; simpl; lia).
  fold md.
  repeat (rewrite get_set by (rewrite ?has_cell_set; apply Hvalid; lia);
          case_decide; [done|]).
  apply get_empty_board.
Qed.

Lemma wf_new_Game opts : wf_game (new_Game opts).
Proof.
  unfold new_Game, post_init. repeat apply wf_set.
  apply (wf_empty_board (mkGame [] Attacker 0 opts _ true true)).
Qed.

Lemma new_Game_flags opts p : has_ai (new_Game opts) p = true.
Proof. unfold new_Game, post_init. rewrite !set_has_ai. by destruct p. Qed.

Lemma new_Game_options opts : options (new_Game opts) = opts.
Proof. unfold new_Game, post_init. by rewrite !set_options. Qed.

Lemma strong_invariant_new_Game opts : 3 ≤ dim opts → strong_invariant (new_Game opts).
Proof.
  intros Hdim. pose proof (get_new_Game opts) as Hget. simpl in Hget.
  split; [apply wf_new_Game|]. split; [|split].
  - intros c u. rewrite Hget by done.
    repeat case_decide; intros [= <-]; simpl; lia.
  - intros p. rewrite new_Game_flags. split; [intros _|done]. destruct p.
    + exists (mkCoord (dim opts - 1) (dim opts - 1)), (mkUnit Attacker AI 9).
      rewrite Hget by done.
      repeat (rewrite decide_False by (intros E; inversion E; lia)).
      by rewrite decide_True.
    + exists (mkCoord 0 0), (mkUnit Defender AI 9).
      rewrite Hget by done.
      repeat (rewrite decide_False by (intros E; inversion E; lia)).
      by rewrite decide_True.
  - intros c1 c2 u1 u2. rewrite !Hget by done.
    repeat case_decide; intros [= <-] [= <-]; simpl; try done; congruence.
Qed.

(** ** C7: the invariant of every reachable state *)

Lemma reachable_strong_invariant opts g :
  3 ≤ dim opts → reachable opts g → strong_invariant g.
Proof.
  intros Hdim. induction 1.
  - by apply strong_invariant_new_Game.
  - by eapply strong_invariant_perform_move.
  - by apply strong_invariant_next_turn.
Qed.

Lemma strong_invariant_game_invariant g : strong_invariant g → game_invariant g.
Proof. by intros (_ & ? & ? & _). Qed.

(** C7, as stated, fails for the opening position of a 2 by 2 game: the
    Attacker's camp is laid over the Defender's, the Attacker's Firewall
    replaces the Defender's AI at (0,0), and the Defender's AI flag is
    set with no Defender AI on the grid. *)
Lemma cramped_opening_breaks_invariant :
  board cramped
  = [ [Some (mkUnit Attacker Firewall 9); Some (mkUnit Attacker Virus 9)];
      [Some (mkUnit Attacker Virus 9); Some (mkUnit Attacker AI 9)] ] ∧
  _defender_has_ai cramped = true ∧
  ¬ ai_on_grid cramped Defender ∧
  ¬ game_invariant cramped.
Proof.
  assert (Hb : board cramped
               = [ [Some (mkUnit Attacker Firewall 9); Some (mkUnit Attacker Virus 9)];
                   [Some (mkUnit Attacker Virus 9); Some (mkUnit Attacker AI 9)] ])
    by (vm_compute; reflexivity).
  assert (Hno : ¬ ai_on_grid cramped Defender).
  { intros (c & u & Hu & Ht & Hp). apply get_in_board in Hu as (r & Hr & Hin).
    rewrite Hb in Hr. rewrite !elem_of_cons, elem_of_nil in Hr.
    destruct Hr as [->|[->|[]]]; rewrite !elem_of_cons, elem_of_nil in Hin;
      destruct Hin as [[= ->]|[[= ->]|[]]]; discriminate. }
  split; [exact Hb|]. split; [reflexivity|]. split; [exact Hno|].
  intros [_ Hf]. apply Hno, (Hf Defender). reflexivity.
Qed.

(** C7, amended. In a game started on a board of dimension at least 3,
    every unit on the grid has a health from 1 to 9 and each AI flag is
    set exactly when that player's AI is on the grid: this holds for the
    opening position, and in every reachable state it holds and still
    holds after any [perform_move] and after [next_turn]. *)
Theorem game_invariant_reachable opts :
  3 ≤ dim opts →
  game_invariant (new_Game opts) ∧
  ∀ g, reachable opts g →
       game_invariant g ∧
       (∀ m g' r, perform_move g m = Some (g', r) → game_invariant g') ∧
       game_invariant (next_turn g).
Proof.
  intros Hdim. split.
  - by apply strong_invariant_game_invariant, strong_invariant_new_Game.
  - intros g Hg. pose proof (reachable_strong_invariant _ _ Hdim Hg) as Hs.
    split; [by apply strong_invariant_game_invariant|]. split.
    + intros m g' r Hm. eapply strong_invariant_game_invariant,
        strong_invariant_perform_move; eauto.
    + by apply strong_invariant_game_invariant, strong_invariant_next_turn.
Qed.

Lemma elem_of_player_units g p c u :
  (c, u) ∈ player_units g p ↔ get g c = Some u ∧ player u = p.
Proof.
  unfold player_units. rewrite list_elem_of_bind. split.
  - intros (c' & Hin & _). destruct (get g c') as [u'|] eqn:E; [|by apply elem_of_nil in Hin].
    destruct (bool_decide (player u' = p)) eqn:Hp; [|by apply elem_of_nil in Hin].
    apply list_elem_of_singleton in Hin as [= -> ->].
    by apply bool_decide_eq_true in Hp.
  - intros [Hu Hp]. exists c. split.
    + rewrite Hu, (bool_decide_eq_true_2 _ Hp). by apply list_elem_of_singleton.
    + apply elem_of_iter_rectangle, is_valid_coord_true. by eapply get_Some_valid.
Qed.

Lemma NoDup_player_units g p : NoDup (player_units g p).
Proof.
  unfold player_units. apply NoDup_bind; [| |apply NoDup_iter_rectangle].
  - intros c1 c2 [c u] _ _ H1 H2.
    destruct (get g c1); [|by apply elem_of_nil in H1].
    destruct (get g c2); [|by apply elem_of_nil in H2].
    repeat case_match; try (by apply elem_of_nil in H1); try (by apply elem_of_nil in H2).
    apply list_elem_of_singleton in H1, H2. congruence.
  - intros c _. repeat case_match; try apply NoDup_nil_2. apply NoDup_singleton.
Qed.

Lemma NoDup_iter_adjacent c : NoDup (Coord_iter_adjacent c).
Proof.
  unfold Coord_iter_adjacent. repeat (apply NoDup_cons; split);
    rewrite ?elem_of_cons, ?elem_of_nil; try apply NoDup_nil_2;
    intros H; repeat destruct H as [H|H]; try done; inversion H; lia.
Qed.

Lemma elem_of_moves_from g s m :
  m ∈ moves_from g s ↔
  src m = s ∧
  ((orthogonally_adjacent s (dst m) ∧
    (is_valid_move g m = true ∨ is_valid_to_attack g m = true
     ∨ is_valid_to_repair g m = true))
   ∨ dst m = s).
Proof.
  unfold moves_from.
  rewrite elem_of_app, list_elem_of_filter, list_elem_of_fmap, list_elem_of_singleton.
  setoid_rewrite <- is_adjacent_iter_adjacent.
  rewrite !Is_true_true, !orb_true_iff. split.
  - intros [[Hv (d & -> & Hd)]| ->]; simpl; [|by auto]. split; [done|]. left. tauto.
  - intros [<- [[Ha Hv]| Hd]].
    + left. split; [tauto|]. exists (dst m). by destruct m.
    + right. destruct m; simpl in *; congruence.
Qed.

Lemma NoDup_moves_from g s : NoDup (moves_from g s).
Proof.
  unfold moves_from. apply NoDup_app. split; [|split].
  - apply NoDup_filter, NoDup_fmap_2, NoDup_iter_adjacent.
    intros d1 d2. by intros [= ->].
  - intros m [_ (d & -> & Hd)%list_elem_of_fmap]%list_elem_of_filter
             [= Heq]%list_elem_of_singleton.
    apply is_adjacent_iter_adjacent in Hd. subst d. destruct Hd; lia.
  - apply NoDup_singleton.
Qed.

Lemma get_moves_for_player_moves_from g p :
  get_moves_for_player g p = (x ← player_units g p; moves_from g (fst x)).
Proof.
  unfold get_moves_for_player. apply list_bind_ext; [|done]. by intros [s u].
Qed.

(** C9. For every board and player, the generator yields exactly the
    moves whose source holds a unit of that player and whose destination
    is either an orthogonal neighbour for which [is_valid_move],
    [is_valid_to_attack] or [is_valid_to_repair] holds, or the source
    itself (the self-destruct move, under no further condition); each
    such move is yielded once, and [move_candidates] is the generator
    for the player to move. *)
Theorem get_moves_for_player_exact g p :
  (∀ m, m ∈ get_moves_for_player g p ↔ candidate_conditions g p m) ∧
  (∀ s u, get g s = Some u → player u = p →
          mkCoordPair s s ∈ get_moves_for_player g p) ∧
  NoDup (get_moves_for_player g p) ∧
  move_candidates g = get_moves_for_player g (next_player g).
Proof.
  assert (Hmem : ∀ m, m ∈ get_moves_for_player g p ↔ candidate_conditions g p m).
  { intros m. rewrite get_moves_for_player_moves_from, list_elem_of_bind.
    unfold candidate_conditions. split.
    - intros ([s u] & Hm & [Hu Hp]%elem_of_player_units). simpl in Hm.
      apply elem_of_moves_from in Hm as [<- Hm]. exists u. naive_solver.
    - intros (u & Hu & Hp & Hm). exists (src m, u). split.
      + apply elem_of_moves_from. naive_solver.
      + by apply elem_of_player_units. }
  split; [done|]. split; [|split; [|done]].
  - intros s u Hu Hp. apply Hmem. exists u. simpl. auto.
  - rewrite get_moves_for_player_moves_from.
    apply NoDup_bind; [| |apply NoDup_player_units].
    + intros [s1 u1] [s2 u2] m [H1 ?]%elem_of_player_units [H2 ?]%elem_of_player_units
             [E1 _]%elem_of_moves_from [E2 _]%elem_of_moves_from.
      simpl in *. subst s1 s2. rewrite H1 in H2. by simplify_eq.
    + intros [s u] _. apply NoDup_moves_from.
Qed.

Section with_alpha_beta.
Variable b : bool.

Lemma ab_get g c : get (with_alpha_beta g b) c = get g c.
Proof. done. Qed.

Lemma ab_set g c u : set (with_alpha_beta g b) c u = with_alpha_beta (set g c u) b.
Proof.
  unfold set. change (is_valid_coord (with_alpha_beta g b) c) with (is_valid_coord g c).
  by destruct (is_valid_coord g c).
Qed.

Lemma ab_remove_dead g c : remove_dead (with_alpha_beta g b) c = with_alpha_beta (remove_dead g c) b.
Proof.
  unfold remove_dead. rewrite ab_get, ab_set.
  by repeat case_match.
Qed.

Lemma ab_mod_health g c d : mod_health (with_alpha_beta g b) c d = with_alpha_beta (mod_health g c d) b.
Proof.
  unfold mod_health. rewrite ab_get. destruct (get g c); [|done].
  by rewrite ab_set, ab_remove_dead.
Qed.

Lemma ab_foldl_mod_health l d : ∀ g,
  foldl (λ g c, mod_health g c d) (with_alpha_beta g b) l = with_alpha_beta (foldl (λ g c, mod_health g c d) g l) b.
Proof.
  induction l as [|c l IH]; intros g; [done|]. simpl. by rewrite ab_mod_health, IH.
Qed.

Lemma ab_is_valid_move g m : is_valid_move (with_alpha_beta g b) m = is_valid_move g m.
Proof. done. Qed.
Lemma ab_is_valid_to_attack g m : is_valid_to_attack (with_alpha_beta g b) m = is_valid_to_attack g m.
Proof. done. Qed.
Lemma ab_is_valid_to_repair g m : is_valid_to_repair (with_alpha_beta g b) m = is_valid_to_repair g m.
Proof. done. Qed.
Lemma ab_is_valid_to_self_destruct g m :
  is_valid_to_self_destruct (with_alpha_beta g b) m = is_valid_to_self_destruct g m.
Proof. done. Qed.

Lemma ab_perform_move g m :
  perform_move (with_alpha_beta g b) m = (λ x, (with_alpha_beta (fst x) b, snd x)) <$> perform_move g m.
Proof.
  unfold perform_move.
  rewrite ab_is_valid_move, ab_is_valid_to_attack, ab_is_valid_to_repair,
    ab_is_valid_to_self_destruct.
  destruct (is_valid_move g m).
  { by rewrite ab_get, !ab_set. }
  destruct (is_valid_to_attack g m).
  { unfold attack. rewrite !ab_get.
    destruct (get g (src m)); [|done]. destruct (get g (dst m)); [|done].
    simpl. by rewrite !ab_mod_health. }
  destruct (is_valid_to_repair g m).
  { unfold repair. rewrite !ab_get.
    destruct (get g (src m)); [|done]. destruct (get g (dst m)); [|done].
    simpl. by rewrite !ab_mod_health. }
  destruct (is_valid_to_self_destruct g m); [|done].
  unfold self_destruct. rewrite !ab_get. destruct (get g (src m)); [|done].
  simpl. by rewrite ab_mod_health, ab_foldl_mod_health.
Qed.

Lemma ab_child g m : child (with_alpha_beta g b) m = (λ g, with_alpha_beta g b) <$> child g m.
Proof.
  unfold child. change (clone (with_alpha_beta g b)) with (with_alpha_beta (clone g) b).
  rewrite ab_perform_move. destruct (perform_move (clone g) m) as [[g' [[] t]]|]; done.
Qed.

Lemma ab_has_winner g : has_winner (with_alpha_beta g b) = has_winner g.
Proof. done. Qed.

Lemma ab_player_units g p : player_units (with_alpha_beta g b) p = player_units g p.
Proof. done. Qed.

Lemma ab_move_candidates g : move_candidates (with_alpha_beta g b) = move_candidates g.
Proof. done. Qed.

Lemma ab_get_moves_for_player g p :
  get_moves_for_player (with_alpha_beta g b) p = get_moves_for_player g p.
Proof. done. Qed.

Lemma ab_alpha_beta g : alpha_beta (options (with_alpha_beta g b)) = b.
Proof. done. Qed.
End with_alpha_beta.

Lemma ab_evaluate b1 b2 s g mp :
  evaluate (with_alpha_beta s b1) (with_alpha_beta g b2) mp = evaluate s g mp.
Proof. done. Qed.

Lemma clone_id g : clone g = g.
Proof. by destruct g. Qed.

(** ** The loops, one candidate at a time *)

Section loop_steps.
Variable recurse : Game → Z → Z → SearchStats → option SearchResult.
Variable game : Game.
Variable depth : nat.

Lemma max_loop_skip m ms e bm a b st :
  child game m = None →
  max_loop recurse game depth (m :: ms) e bm a b st
  = max_loop recurse game depth ms e bm a b (count_eval depth st).
Proof.
  unfold child. simpl. destruct (perform_move_total (clone game) m) as [[g' [[] t]] ->];
    [done|]. done.
Qed.

Lemma max_loop_visit m ms e bm a b st c v mv st' :
  child game m = Some c →
  recurse c a b (count_eval depth st) = Some (v, mv, st') →
  max_loop recurse game depth (m :: ms) e bm a b st
  = if alpha_beta (options game) then
      if b <=? Z.max a v
      then Some (Z.max e v, if e <? v then Some m else bm, st')
      else max_loop recurse game depth ms (Z.max e v)
                    (if e <? v then Some m else bm) (Z.max a v) b st'
    else max_loop recurse game depth ms (Z.max e v)
                  (if e <? v then Some m else bm) a b st'.
Proof.
  unfold child. simpl. destruct (perform_move (clone game) m) as [[g' [[] t]]|];
    [|done|done].
  intros [= <-]. simpl. intros ->. simpl.
  destruct (e <? v) eqn:E; [apply Z.ltb_lt in E|apply Z.ltb_ge in E];
    [rewrite (Z.max_r e v) by lia|rewrite (Z.max_l e v) by lia]; done.
Qed.

Lemma max_loop_fail m ms e bm a b st c :
  child game m = Some c →
  recurse c a b (count_eval depth st) = None →
  max_loop recurse game depth (m :: ms) e bm a b st = None.
Proof.
  unfold child. simpl. destruct (perform_move (clone game) m) as [[g' [[] t]]|];
    [|done|done].
  intros [= <-]. simpl. by intros ->.
Qed.

Lemma min_loop_skip m ms e bm a b st :
  child game m = None →
  min_loop recurse game depth (m :: ms) e bm a b st
  = min_loop recurse game depth ms e bm a b (count_eval depth st).
Proof.
  unfold child. simpl. destruct (perform_move_total (clone game) m) as [[g' [[] t]] ->];
    [done|]. done.
Qed.

Lemma min_loop_visit m ms e bm a b st c v mv st' :
  child game m = Some c →
  recurse c a b (count_eval depth st) = Some (v, mv, st') →
  min_loop recurse game depth (m :: ms) e bm a b st
  = if alpha_beta (options game) then
      if Z.min b v <=? a
      then Some (Z.min e v, if v <? e then Some m else bm, st')
      else min_loop recurse game depth ms (Z.min e v)
                    (if v <? e then Some m else bm) a (Z.min b v) st'
    else min_loop recurse game depth ms (Z.min e v)
                  (if v <? e then Some m else bm) a b st'.
Proof.
  unfold child. simpl. destruct (perform_move (clone game) m) as [[g' [[] t]]|];
    [|done|done].
  intros [= <-]. simpl. intros ->. simpl.
  destruct (v <? e) eqn:E; [apply Z.ltb_lt in E|apply Z.ltb_ge in E];
    [rewrite (Z.min_r e v) by lia|rewrite (Z.min_l e v) by lia]; done.
Qed.

(** The running best only grows in a maximizing loop and only shrinks
    in a minimizing one. *)
Lemma max_loop_ge ms : ∀ e bm a b st r,
  max_loop recurse game depth ms e bm a b st = Some r → e ≤ score r.
Proof.
  induction ms as [|m ms IH]; intros e bm a b st r.
  - intros [= <-]. unfold score; cbn [fst]. lia.
  - destruct (child game m) as [c|] eqn:Hc.
    + destruct (recurse c a b (count_eval depth st)) as [[[v mv] st']|] eqn:Hr.
      * rewrite (max_loop_visit _ _ _ _ _ _ _ _ _ _ _ Hc Hr).
        repeat case_match;
          first [intros [= <-]; unfold score; cbn [fst]; lia | intros HH%IH; lia].
      * by rewrite (max_loop_fail _ _ _ _ _ _ _ _ Hc Hr).
    + rewrite max_loop_skip by done. apply IH.
Qed.

Lemma min_loop_le ms : ∀ e bm a b st r,
  min_loop recurse game depth ms e bm a b st = Some r → score r ≤ e.
Proof.
  induction ms as [|m ms IH]; intros e bm a b st r.
  - intros [= <-]. unfold score; cbn [fst]. lia.
  - destruct (child game m) as [c|] eqn:Hc.
    + destruct (recurse c a b (count_eval depth st)) as [[[v mv] st']|] eqn:Hr.
      * rewrite (min_loop_visit _ _ _ _ _ _ _ _ _ _ _ Hc Hr).
        repeat case_match;
          first [intros [= <-]; unfold score; cbn [fst]; lia | intros HH%IH; lia].
      * unfold child in Hc. simpl.
        destruct (perform_move (clone game) m) as [[g' [[] t]]|]; [|done|done].
        injection Hc as <-. simpl. by rewrite Hr.
    + rewrite min_loop_skip by done. apply IH.
Qed.

(** A maximizing loop stays below any bound on its start value and on
    the values of the children; dually for a minimizing loop. *)
Lemma max_loop_le B ms : ∀ e bm a b st r,
  (∀ m c a b st r, child game m = Some c → recurse c a b st = Some r → score r ≤ B) →
  e ≤ B →
  max_loop recurse game depth ms e bm a b st = Some r → score r ≤ B.
Proof.
  intros e bm a b st r Hch. revert e bm a b st r.
  induction ms as [|m ms IH]; intros e bm a b st r He.
  - intros [= <-]. done.
  - destruct (child game m) as [c|] eqn:Hc.
    + destruct (recurse c a b (count_eval depth st)) as [[[v mv] st']|] eqn:Hr.
      * rewrite (max_loop_visit _ _ _ _ _ _ _ _ _ _ _ Hc Hr).
        pose proof (Hch _ _ _ _ _ _ Hc Hr) as Hv. unfold score in Hv; cbn [fst] in Hv.
        repeat case_match;
          first [intros [= <-]; unfold score; cbn [fst]; lia | apply IH; lia].
      * by rewrite (max_loop_fail _ _ _ _ _ _ _ _ Hc Hr).
    + rewrite max_loop_skip by done. by apply IH.
Qed.

Lemma min_loop_ge B ms : ∀ e bm a b st r,
  (∀ m c a b st r, child game m = Some c → recurse c a b st = Some r → B ≤ score r) →
  B ≤ e →
  min_loop recurse game depth ms e bm a b st = Some r → B ≤ score r.
Proof.
  intros e bm a b st r Hch. revert e bm a b st r.
  induction ms as [|m ms IH]; intros e bm a b st r He.
  - intros [= <-]. done.
  - destruct (child game m) as [c|] eqn:Hc.
    + destruct (recurse c a b (count_eval depth st)) as [[[v mv] st']|] eqn:Hr.
      * rewrite (min_loop_visit _ _ _ _ _ _ _ _ _ _ _ Hc Hr).
        pose proof (Hch _ _ _ _ _ _ Hc Hr) as Hv. unfold score in Hv; cbn [fst] in Hv.
        repeat case_match;
          first [intros [= <-]; unfold score; cbn [fst]; lia | apply IH; lia].
      * unfold child in Hc. simpl.
        destruct (perform_move (clone game) m) as [[g' [[] t]]|]; [|done|done].
        injection Hc as <-. simpl. by rewrite Hr.
    + rewrite min_loop_skip by done. by apply IH.
Qed.
End loop_steps.

(** ** Pruning is sound *)

Section pruning.
(** The searches below a node, with and without pruning, on the same
    position: the pruned one is sound in any proper window. *)
Variables pruned plain : Game → Z → Z → SearchStats → option SearchResult.
Variable depth : nat.
Hypothesis below : ∀ c alpha beta alpha' beta' st1 st2,
  alpha < beta →
  ∃ r1 r2,
    pruned (with_alpha_beta c true) alpha beta st1 = Some r1 ∧
    plain (with_alpha_beta c false) alpha' beta' st2 = Some r2 ∧
    window_sound alpha beta (score r1) (score r2).

Lemma plain_total c alpha' beta' st2 :
  ∃ r2, plain (with_alpha_beta c false) alpha' beta' st2 = Some r2.
Proof.
  destruct (below c 0 1 alpha' beta' st2 st2) as (r1 & r2 & _ & H & _); [lia|]. eauto.
Qed.

Lemma plain_max_loop_total g ms : ∀ e bm a b st,
  ∃ r, max_loop plain (with_alpha_beta g false) depth ms e bm a b st = Some r.
Proof.
  induction ms as [|m ms IH]; intros e bm a b st; [by eexists|].
  destruct (child (with_alpha_beta g false) m) as [c|] eqn:Hc.
  - pose proof Hc as Hc'. rewrite ab_child in Hc'.
    destruct (child g m) as [c0|]; [|done]. injection Hc' as <-.
    destruct (plain_total c0 a b (count_eval depth st)) as [[[v mv] st'] Hr].
    rewrite (max_loop_visit _ _ _ _ _ _ _ _ _ _ _ _ _ _ Hc Hr). simpl. apply IH.
  - rewrite max_loop_skip by done. apply IH.
Qed.

Lemma plain_min_loop_total g ms : ∀ e bm a b st,
  ∃ r, min_loop plain (with_alpha_beta g false) depth ms e bm a b st = Some r.
Proof.
  induction ms as [|m ms IH]; intros e bm a b st; [by eexists|].
  destruct (child (with_alpha_beta g false) m) as [c|] eqn:Hc.
  - pose proof Hc as Hc'. rewrite ab_child in Hc'.
    destruct (child g m) as [c0|]; [|done]. injection Hc' as <-.
    destruct (plain_total c0 a b (count_eval depth st)) as [[[v mv] st'] Hr].
    rewrite (min_loop_visit _ _ _ _ _ _ _ _ _ _ _ _ _ _ Hc Hr). simpl. apply IH.
  - rewrite min_loop_skip by done. apply IH.
Qed.

(** The maximizing loop.  [alpha0] is the bound the node was entered
    with, [a] the bound tightened so far; [e] and [e'] are the running
    best values of the pruned and of the plain loop. *)
Lemma max_loop_window_sound g alpha0 beta alpha' beta' ms :
  ∀ e a e' bm1 bm2 st1 st2,
    a < beta → alpha0 ≤ a → a ≤ Z.max alpha0 e → e' ≤ e → (e ≤ e' ∨ e ≤ alpha0) →
    ∃ r1 r2,
      max_loop pruned (with_alpha_beta g true) depth ms e bm1 a beta st1 = Some r1 ∧
      max_loop plain (with_alpha_beta g false) depth ms e' bm2 alpha' beta' st2 = Some r2 ∧
      window_sound alpha0 beta (score r1) (score r2).
Proof.
  induction ms as [|m ms IH]; intros e a e' bm1 bm2 st1 st2 H1 H2 H3 H4 H5.
  { eexists _, _. do 2 (split; [done|]). unfold window_sound, score; cbn [fst]. lia. }
  destruct (child g m) as [c|] eqn:Hc.
  - assert (Hc1 : child (with_alpha_beta g true) m = Some (with_alpha_beta c true))
      by by rewrite ab_child, Hc.
    assert (Hc2 : child (with_alpha_beta g false) m = Some (with_alpha_beta c false))
      by by rewrite ab_child, Hc.
    destruct (below c a beta alpha' beta' (count_eval depth st1) (count_eval depth st2) H1)
      as ([[v mv1] st1'] & [[w mv2] st2'] & Hr1 & Hr2 & Hs).
    unfold window_sound, score in Hs; cbn [fst] in Hs.
    rewrite (max_loop_visit _ _ _ _ _ _ _ _ _ _ _ _ _ _ Hc1 Hr1).
    rewrite (max_loop_visit _ _ _ _ _ _ _ _ _ _ _ _ _ _ Hc2 Hr2).
    rewrite !ab_alpha_beta.
    destruct (beta <=? Z.max a v) eqn:Hcut;
      [apply Z.leb_le in Hcut|apply Z.leb_gt in Hcut].
    + destruct (plain_max_loop_total g ms (Z.max e' w)
                  (if e' <? w then Some m else bm2) alpha' beta' st2') as [r2 Hr].
      pose proof (max_loop_ge _ _ _ _ _ _ _ _ _ _ Hr) as Hge.
      eexists _, r2. do 2 (split; [done|]).
      unfold window_sound, score in *; cbn [fst] in *. lia.
    + apply IH; lia.
  - rewrite !max_loop_skip by by rewrite ab_child, Hc.
    by apply IH.
Qed.

(** The minimizing loop, with [beta0] and the tightened [b]. *)
Lemma min_loop_window_sound g alpha beta0 alpha' beta' ms :
  ∀ e b e' bm1 bm2 st1 st2,
    alpha < b → b ≤ beta0 → Z.min beta0 e ≤ b → e ≤ e' → (e' ≤ e ∨ beta0 ≤ e) →
    ∃ r1 r2,
      min_loop pruned (with_alpha_beta g true) depth ms e bm1 alpha b st1 = Some r1 ∧
      min_loop plain (with_alpha_beta g false) depth ms e' bm2 alpha' beta' st2 = Some r2 ∧
      window_sound alpha beta0 (score r1) (score r2).
Proof.
  induction ms as [|m ms IH]; intros e b e' bm1 bm2 st1 st2 H1 H2 H3 H4 H5.
  { eexists _, _. do 2 (split; [done|]). unfold window_sound, score; cbn [fst]. lia. }
  destruct (child g m) as [c|] eqn:Hc.
  - assert (Hc1 : child (with_alpha_beta g true) m = Some (with_alpha_beta c true))
      by by rewrite ab_child, Hc.
    assert (Hc2 : child (with_alpha_beta g false) m = Some (with_alpha_beta c false))
      by by rewrite ab_child, Hc.
    destruct (below c alpha b alpha' beta' (count_eval depth st1) (count_eval depth st2) H1)
      as ([[v mv1] st1'] & [[w mv2] st2'] & Hr1 & Hr2 & Hs).
    unfold window_sound, score in Hs; cbn [fst] in Hs.
    rewrite (min_loop_visit _ _ _ _ _ _ _ _ _ _ _ _ _ _ Hc1 Hr1).
    rewrite (min_loop_visit _ _ _ _ _ _ _ _ _ _ _ _ _ _ Hc2 Hr2).
    rewrite !ab_alpha_beta.
    destruct (Z.min b v <=? alpha) eqn:Hcut;
      [apply Z.leb_le in Hcut|apply Z.leb_gt in Hcut].
    + destruct (plain_min_loop_total g ms (Z.min e' w)
                  (if w <? e' then Some m else bm2) alpha' beta' st2') as [r2 Hr].
      pose proof (min_loop_le _ _ _ _ _ _ _ _ _ _ Hr) as Hle.
      eexists _, r2. do 2 (split; [done|]).
      unfold window_sound, score in *; cbn [fst] in *. lia.
    + apply IH; lia.
  - rewrite !min_loop_skip by by rewrite ab_child, Hc.
    by apply IH.
Qed.
End pruning.

(** The pruned search and the plain search at every node: both return,
    and the pruned value is sound in its window. *)
Lemma minimax_window_sound s mp depth :
  ∀ g is_max alpha beta alpha' beta' st1 st2,
    alpha < beta →
    ∃ r1 r2,
      minimax (with_alpha_beta s true) (with_alpha_beta g true) depth is_max mp
              alpha beta st1 = Some r1 ∧
      minimax (with_alpha_beta s false) (with_alpha_beta g false) depth is_max mp
              alpha' beta' st2 = Some r2 ∧
      window_sound alpha beta (score r1) (score r2).
Proof.
  induction depth as [|d IH]; intros g is_max alpha beta alpha' beta' st1 st2 Hw.
  { simpl. eexists _, _. do 2 (split; [done|]).
    unfold window_sound, score; cbn [fst]. rewrite !ab_evaluate. lia. }
  cbn [minimax]. rewrite !ab_has_winner, !ab_move_candidates.
  destruct (has_winner g).
  { eexists _, _. do 2 (split; [done|]).
    unfold window_sound, score; cbn [fst]. rewrite !ab_evaluate. lia. }
  destruct is_max.
  - apply max_loop_window_sound; [|lia..].
    intros c a b a' b' s1 s2 Hab. by apply IH.
  - apply min_loop_window_sound; [|lia..].
    intros c a b a' b' s1 s2 Hab. by apply IH.
Qed.

Lemma count_if_acc {A} (P : A → bool) l : ∀ n,
  foldl (λ n x, if P x then n + 1 else n) n l = n + count_if P l.
Proof.
  unfold count_if. induction l as [|x l IH]; intros n; simpl; [lia|].
  rewrite IH, (IH (if P x then 0 + 1 else 0)). destruct (P x); lia.
Qed.

Lemma count_if_nil {A} (P : A → bool) : count_if P [] = 0.
Proof. done. Qed.

Lemma count_if_cons {A} (P : A → bool) x l :
  count_if P (x :: l) = (if P x then 1 else 0) + count_if P l.
Proof. unfold count_if at 1. simpl. rewrite count_if_acc. by destruct (P x). Qed.

Lemma count_if_app {A} (P : A → bool) l k :
  count_if P (l ++ k) = count_if P l + count_if P k.
Proof.
  induction l as [|x l IH]; simpl; [by rewrite count_if_nil|].
  rewrite !count_if_cons, IH. lia.
Qed.

Lemma count_if_range {A} (P : A → bool) l : 0 ≤ count_if P l ≤ Z.of_nat (length l).
Proof.
  induction l as [|x l IH]; [by rewrite count_if_nil|].
  rewrite count_if_cons. simpl length. destruct (P x); lia.
Qed.

Lemma count_if_true {A} (l : list A) : count_if (λ _, true) l = Z.of_nat (length l).
Proof.
  induction l as [|x l IH]; [done|]. rewrite count_if_cons, IH. simpl length. lia.
Qed.

Lemma length_bind_le {A B} (f : A → list B) k l :
  (∀ x, (length (f x) ≤ k)%nat) → (length (l ≫= f) ≤ k * length l)%nat.
Proof.
  intros Hf. induction l as [|x l IH]; [simpl; lia|].
  rewrite bind_cons, length_app. specialize (Hf x). simpl length. lia.
Qed.

Lemma length_player_units g p :
  Z.of_nat (length (player_units g p)) ≤ cell_count g.
Proof.
  unfold player_units, cell_count. apply inj_le.
  etrans; [apply (length_bind_le _ 1)|].
  - intros c. repeat case_match; simpl; lia.
  - unfold CoordPair_iter_rectangle, CoordPair_from_dim. simpl.
    rewrite length_rect, !length_range. lia.
Qed.

Lemma length_moves_from g s : (length (moves_from g s) ≤ 5)%nat.
Proof.
  unfold moves_from. rewrite length_app. simpl length.
  pose proof (length_filter
    (λ move, is_valid_move g move || is_valid_to_attack g move || is_valid_to_repair g move)
    ((λ d, mkCoordPair s d) <$> Coord_iter_adjacent s)) as H.
  rewrite length_fmap in H. simpl in H. lia.
Qed.

Lemma length_get_moves_for_player g p :
  0 ≤ Z.of_nat (length (get_moves_for_player g p))
    ≤ 5 * Z.of_nat (length (player_units g p)).
Proof.
  split; [lia|]. rewrite get_moves_for_player_moves_from.
  pose proof (length_bind_le (λ x, moves_from g (fst x)) 5 (player_units g p)
                (λ x, length_moves_from g (fst x))). lia.
Qed.

(** One side's material in each heuristic, against its unit count. *)
Lemma material_e0 (l : list (Coord * Unit)) :
  0 ≤ 3 * (count_if (has_type Virus) l + count_if (has_type Tech) l
           + count_if (has_type Firewall) l + count_if (has_type Program) l)
      + 9999 * count_if (has_type AI) l
    ≤ 9999 * Z.of_nat (length l).
Proof.
  induction l as [|[c u] l IH]; [by rewrite !count_if_nil|].
  rewrite !count_if_cons. change (length ((c, u) :: l)) with (S (length l)).
  rewrite Nat2Z.inj_succ.
  destruct u as [p [] h]; decide_types; lia.
Qed.

Lemma material_e1 g (l : list (Coord * Unit)) :
  0 ≤ - 100 * count_if (ai_in_combat g) l
      + (count_if (λ _, true) l + 9999 * count_if (has_type AI) l)
    ≤ 10000 * Z.of_nat (length l).
Proof.
  induction l as [|[c u] l IH]; [by rewrite !count_if_nil|].
  rewrite !count_if_cons. change (length ((c, u) :: l)) with (S (length l)).
  rewrite Nat2Z.inj_succ. unfold ai_in_combat at 1 3. cbn [fst].
  destruct u as [p [] h], (is_engaged_in_combat g c);
    decide_types; cbn [andb]; lia.
Qed.

Lemma material_e2 (l : list (Coord * Unit)) :
  0 ≤ 9999 * count_if (has_type AI) l + 1000 * count_if (has_type Virus) l
      + 1000 * count_if (has_type Tech) l
    ≤ 9999 * Z.of_nat (length l).
Proof.
  induction l as [|[c u] l IH]; [by rewrite !count_if_nil|].
  rewrite !count_if_cons. change (length ((c, u) :: l)) with (S (length l)).
  rewrite Nat2Z.inj_succ.
  destruct u as [p [] h]; decide_types; lia.
Qed.

Lemma heuristic_e0_range g mp : Z.abs (heuristic_e0 g mp) ≤ 9999 * cell_count g.
Proof.
  unfold heuristic_e0.
  pose proof (material_e0 (player_units g mp)).
  pose proof (material_e0 (player_units g (opponent_of mp))).
  pose proof (length_player_units g mp).
  pose proof (length_player_units g (opponent_of mp)). lia.
Qed.

Lemma heuristic_e1_range g mp : Z.abs (heuristic_e1 g mp) ≤ 10000 * cell_count g.
Proof.
  unfold heuristic_e1.
  pose proof (material_e1 g (player_units g mp)).
  pose proof (material_e1 g (player_units g (opponent_of mp))).
  pose proof (length_player_units g mp).
  pose proof (length_player_units g (opponent_of mp)). lia.
Qed.

Lemma heuristic_e2_range g mp : Z.abs (heuristic_e2 g mp) ≤ 10004 * cell_count g.
Proof.
  unfold heuristic_e2.
  pose proof (material_e2 (player_units g mp)).
  pose proof (material_e2 (player_units g (opponent_of mp))).
  pose proof (length_get_moves_for_player g mp).
  pose proof (length_get_moves_for_player g (opponent_of mp)).
  pose proof (length_player_units g mp).
  pose proof (length_player_units g (opponent_of mp)). lia.
Qed.

Lemma evaluate_range s g mp : Z.abs (evaluate s g mp) ≤ 10004 * cell_count g.
Proof.
  unfold evaluate.
  pose proof (heuristic_e0_range g mp). pose proof (heuristic_e1_range g mp).
  pose proof (heuristic_e2_range g mp).
  assert (0 ≤ cell_count g) by (unfold cell_count; lia).
  repeat case_match; lia.
Qed.

(** Up to dimension 447 no score reaches the two extreme constants. *)
Lemma evaluate_within s g mp :
  dim (options g) ≤ 447 →
  MIN_HEURISTIC_SCORE ≤ evaluate s g mp ≤ MAX_HEURISTIC_SCORE.
Proof.
  intros Hd. pose proof (evaluate_range s g mp) as H.
  assert (cell_count g ≤ 447 * 447).
  { unfold cell_count. rewrite Nat2Z.inj_mul.
    assert (0 ≤ Z.of_nat (Z.to_nat (dim (options g))) ≤ 447) by lia. nia. }
  unfold MIN_HEURISTIC_SCORE, MAX_HEURISTIC_SCORE. lia.
Qed.

(** ** The root of the search *)

Lemma perform_move_options g m g' r :
  perform_move g m = Some (g', r) → options g' = options g.
Proof.
  unfold perform_move.
  destruct (is_valid_move g m).
  { intros [= <- _]. by rewrite !set_options. }
  destruct (is_valid_to_attack g m).
  { unfold attack. destruct (get g (src m)); [|done]. destruct (get g (dst m)); [|done].
    simpl. intros [= <- _]. by rewrite !mod_health_options. }
  destruct (is_valid_to_repair g m).
  { unfold repair. destruct (get g (src m)); [|done]. destruct (get g (dst m)); [|done].
    simpl. intros [= <- _]. by rewrite !mod_health_options. }
  destruct (is_valid_to_self_destruct g m).
  { unfold self_destruct. destruct (get g (src m)); [|done].
    simpl. intros [= <- _].
    destruct (foldl_mod_health_fields (Coord_iter_range (src m) 1) (-2)
                (mod_health g (src m) (- health u))) as [-> _].
    by rewrite mod_health_options. }
  by intros [= <- _].
Qed.

Lemma child_options g m c : child g m = Some c → options c = options g.
Proof.
  unfold child. destruct (perform_move (clone g) m) as [[g' [[] t]]|] eqn:E; try done.
  intros [= <-]. apply perform_move_options in E. by rewrite clone_id in E.
Qed.

(** A minimizing node never returns more than the maximal score, a
    maximizing node never less than the minimal one, as long as the leaf
    score is in range. *)
Lemma minimax_min_node_le s g depth mp a b st r :
  evaluate s g mp ≤ MAX_HEURISTIC_SCORE →
  minimax s g depth false mp a b st = Some r → score r ≤ MAX_HEURISTIC_SCORE.
Proof.
  intros He. destruct depth as [|d]; simpl.
  { by intros [= <-]. }
  destruct (has_winner g); [by intros [= <-]|]. apply min_loop_le.
Qed.

Lemma minimax_max_node_ge s g depth mp a b st r :
  MIN_HEURISTIC_SCORE ≤ evaluate s g mp →
  minimax s g depth true mp a b st = Some r → MIN_HEURISTIC_SCORE ≤ score r.
Proof.
  intros He. destruct depth as [|d]; simpl.
  { by intros [= <-]. }
  destruct (has_winner g); [by intros [= <-]|]. apply max_loop_ge.
Qed.

(** Every value of a search over positions whose scores are in range is
    in range. *)
Lemma minimax_within s mp depth : ∀ g is_max a b st r,
  dim (options g) ≤ 447 →
  minimax s g depth is_max mp a b st = Some r →
  MIN_HEURISTIC_SCORE ≤ score r ≤ MAX_HEURISTIC_SCORE.
Proof.
  induction depth as [|d IH]; intros g is_max a b st r Hdim.
  { simpl. intros [= <-]. by apply evaluate_within. }
  cbn [minimax]. destruct (has_winner g).
  { intros [= <-]. by apply evaluate_within. }
  assert (Hch : ∀ is_max m c a b st r,
            child g m = Some c → minimax s c d is_max mp a b st = Some r →
            MIN_HEURISTIC_SCORE ≤ score r ≤ MAX_HEURISTIC_SCORE).
  { intros ? m c ? ? ? ? Hc. apply IH. by rewrite (child_options _ _ _ Hc). }
  destruct is_max; intros Hr; split.
  - by eapply max_loop_ge.
  - eapply max_loop_le; [| |exact Hr]; [|done].
    intros m c a' b' st' r' Hc Hr'. by destruct (Hch _ _ _ _ _ _ _ Hc Hr').
  - eapply min_loop_ge; [| |exact Hr]; [|done].
    intros m c a' b' st' r' Hc Hr'. by destruct (Hch _ _ _ _ _ _ _ Hc Hr').
  - by eapply min_loop_le.
Qed.

(** C8, amended. On every board of dimension at most 447 (where no
    heuristic score can reach [MAX_HEURISTIC_SCORE] or
    [MIN_HEURISTIC_SCORE]), for every depth and perspective player, the
    search from the window [MIN_HEURISTIC_SCORE, MAX_HEURISTIC_SCORE]
    returns with alpha-beta on, returns with alpha-beta off, and the two
    scores are equal. *)
Theorem alpha_beta_same_score g depth is_max mp st1 st2 :
  dim (options g) ≤ 447 →
  ∃ v mv1 mv2 st1' st2',
    minimax (with_alpha_beta g true) (with_alpha_beta g true) depth is_max mp
            MIN_HEURISTIC_SCORE MAX_HEURISTIC_SCORE st1 = Some (v, mv1, st1') ∧
    minimax (with_alpha_beta g false) (with_alpha_beta g false) depth is_max mp
            MIN_HEURISTIC_SCORE MAX_HEURISTIC_SCORE st2 = Some (v, mv2, st2').
Proof.
  intros Hdim.
  destruct (minimax_window_sound g mp depth g is_max MIN_HEURISTIC_SCORE
              MAX_HEURISTIC_SCORE MIN_HEURISTIC_SCORE MAX_HEURISTIC_SCORE st1 st2)
    as ([[v mv1] st1'] & [[w mv2] st2'] & H1 & H2 & Hs); [done|].
  pose proof (minimax_within _ _ _ (with_alpha_beta g true) _ _ _ _ _ Hdim H1) as B1.
  pose proof (minimax_within _ _ _ (with_alpha_beta g false) _ _ _ _ _ Hdim H2) as B2.
  unfold window_sound, score in *; cbn [fst] in *.
  assert (v = w) as -> by lia.
  by exists w, mv1, mv2, st1', st2'.
Qed.

Section Zsum.
Context {A : Type}.
Implicit Types (f : A → Z) (l : list A).

Lemma Zsum_cons f x l : Zsum f (x :: l) = f x + Zsum f l.
Proof. done. Qed.

Lemma Zsum_app f l k : Zsum f (l ++ k) = Zsum f l + Zsum f k.
Proof. induction l as [|x l IH]; simpl; [done|]. rewrite IH. lia. Qed.

Lemma Zsum_replicate f n x : Zsum f (replicate n x) = Z.of_nat n * f x.
Proof. induction n as [|n IH]; simpl; [done|]. rewrite IH. lia. Qed.

Lemma Zsum_ext f f' l : (∀ x, x ∈ l → f x = f' x) → Zsum f l = Zsum f' l.
Proof.
  induction l as [|x l IH]; intros H; simpl; [done|].
  rewrite (H x), IH; [done| |by left]. intros y Hy. apply H. by right.
Qed.

Lemma Zsum_fmap {B} (h : B → A) f (l : list B) : Zsum f (h <$> l) = Zsum (f ∘ h) l.
Proof. induction l as [|x l IH]; [done|]. by rewrite fmap_cons, !Zsum_cons, IH. Qed.

Lemma Zsum_bind {B} (k : B → list A) f (l : list B) :
  Zsum f (l ≫= k) = Zsum (λ x, Zsum f (k x)) l.
Proof.
  induction l as [|x l IH]; [done|]. by rewrite bind_cons, Zsum_app, IH.
Qed.

Lemma count_if_Zsum (P : A → bool) l :
  count_if P l = Zsum (λ x, if P x then 1 else 0) l.
Proof.
  induction l as [|x l IH]; [done|]. by rewrite count_if_cons, IH.
Qed.

End Zsum.

(** Reading a list index by index visits its elements in order. *)
Lemma Zsum_lookup_seq {A} (h : option A → Z) (l : list A) :
  Zsum (λ i, h (l !! i)) (seq 0 (length l)) = Zsum (λ x, h (Some x)) l.
Proof.
  induction l as [|x l IH]; [done|].
  simpl length. rewrite <- cons_seq, <- fmap_S_seq.
  rewrite (Zsum_cons _ 0%nat), (Zsum_cons _ x), Zsum_fmap.
  simpl. by rewrite <- IH.
Qed.

Lemma Zsum_lookup_seqZ {A} (h : option A → Z) (l : list A) n :
  length l = Z.to_nat n →
  Zsum (λ k, h (l !! Z.to_nat k)) (seqZ 0 n) = Zsum (λ x, h (Some x)) l.
Proof.
  intros Hn. unfold seqZ. rewrite Zsum_fmap, <- Hn, <- Zsum_lookup_seq.
  apply Zsum_ext. intros i _. simpl. do 2 f_equal. lia.
Qed.

Lemma count_player_units g p (Q : Unit → bool) :
  wf_game g →
  count_if (λ x, Q (snd x)) (player_units g p)
  = tally (λ u, bool_decide (player u = p) && Q u) (board g).
Proof.
  intros [Hlen Hrows]. set (P := λ u, bool_decide (player u = p) && Q u).
  rewrite count_if_Zsum. unfold player_units, CoordPair_iter_rectangle, CoordPair_from_dim.
  cbn [src dst row col]. unfold range.
  replace (dim (options g) - 1 + 1 - 0) with (dim (options g)) by lia.
  rewrite !Zsum_bind.
  (* the cell at a scanned coordinate *)
  assert (Hcell : ∀ r k, r ∈ seqZ 0 (dim (options g)) → k ∈ seqZ 0 (dim (options g)) →
            Zsum (λ x : Coord * Unit, if Q (snd x) then 1 else 0)
                 (match get g (mkCoord r k) with
                  | Some unit => if bool_decide (player unit = p)
                                 then [(mkCoord r k, unit)] else []
                  | None => []
                  end)
            = cell_value P (mjoin (default [] (board g !! Z.to_nat r) !! Z.to_nat k))).
  { intros r k Hr%elem_of_seqZ Hk%elem_of_seqZ. unfold get.
    rewrite (proj2 (is_valid_coord_true g (mkCoord r k))) by (simpl; lia).
    unfold board_cell. cbn [row col].
    destruct (board g !! Z.to_nat r) as [rw|]; simpl; [|done].
    destruct (rw !! Z.to_nat k) as [[u|]|]; simpl; try done.
    unfold P. destruct (bool_decide (player u = p)); simpl; [|done].
    destruct (Q u); done. }
  rewrite (Zsum_ext _ (λ r, Zsum (cell_value P) (default [] (board g !! Z.to_nat r)))).
  - rewrite (Zsum_lookup_seqZ (λ o, Zsum (cell_value P) (default [] o))) by done. done.
  - intros r Hr. rewrite Zsum_bind.
    rewrite (Zsum_ext _ (λ k, cell_value P
               (mjoin (default [] (board g !! Z.to_nat r) !! Z.to_nat k)))).
    + destruct (board g !! Z.to_nat r) as [rw|] eqn:Erw.
      * simpl. rewrite (Zsum_lookup_seqZ (λ o, cell_value P (mjoin o))); [done|].
        rewrite Forall_forall in Hrows. apply Hrows. by eapply list_elem_of_lookup_2.
      * apply lookup_ge_None in Erw. apply elem_of_seqZ in Hr. lia.
    + intros k Hk. unfold Zsum at 1. cbn [foldr]. rewrite Z.add_0_r. by apply Hcell.
Qed.

(** *** The material score by counting *)

Lemma count_has_type g p t :
  wf_game g →
  count_if (has_type t) (player_units g p)
  = tally (λ u, bool_decide (player u = p) && bool_decide (type u = t)) (board g).
Proof.
  intros Hwf. exact (count_player_units g p (λ u : Unit, bool_decide (type u = t)) Hwf).
Qed.

Lemma tally_corner_board P x0 x1 x2 y0 y1 y2 a :
  tally P (corner_board x0 x1 x2 y0 y1 y2 a)
  = cell_value P x0 + cell_value P x1 + cell_value P x2
    + cell_value P y0 + cell_value P y1 + cell_value P y2
    + 200698 * cell_value P a.
Proof.
  unfold tally, corner_board. rewrite !Zsum_cons, !Zsum_replicate. lia.
Qed.

Lemma wf_corner_game x0 x1 x2 y0 y1 y2 p t f :
  wf_game (corner_game x0 x1 x2 y0 y1 y2 p t f).
Proof.
  split; cbn [board corner_game options huge_options dim].
  - unfold corner_board. cbn [length]. by rewrite length_replicate.
  - unfold corner_board.
    apply Forall_cons_2; [|apply Forall_cons_2; [|apply Forall_replicate]].
    + cbn [length]. by rewrite length_replicate.
    + cbn [length]. by rewrite length_replicate.
    + by rewrite length_replicate.
Qed.

Lemma heuristic_e0_corner_game x0 x1 x2 y0 y1 y2 p t f mp :
  heuristic_e0 (corner_game x0 x1 x2 y0 y1 y2 p t f) mp
  = let side q :=
      let n ty := tally (λ u, bool_decide (player u = q) && bool_decide (type u = ty))
                    (corner_board x0 x1 x2 y0 y1 y2 (Some (mkUnit Attacker AI 9))) in
      3 * (n Virus + n Tech + n Firewall + n Program) + 9999 * n AI in
    side mp - side (opponent_of mp).
Proof.
  unfold heuristic_e0. by rewrite !count_has_type by apply wf_corner_game.
Qed.

Lemma heuristic_e0_huge_after_00 : heuristic_e0 huge_after_00 Attacker = 2006799303.
Proof.
  unfold huge_after_00. rewrite heuristic_e0_corner_game. cbv beta zeta.
  rewrite !tally_corner_board. by vm_compute.
Qed.

Lemma heuristic_e0_huge_after_01 : heuristic_e0 huge_after_01 Attacker = 2006809299.
Proof.
  unfold huge_after_01. rewrite heuristic_e0_corner_game. cbv beta zeta.
  rewrite !tally_corner_board. by vm_compute.
Qed.

(** *** The first candidate *)

Lemma move_candidates_moves_from g :
  move_candidates g = (x ← player_units g (next_player g); moves_from g (fst x)).
Proof. unfold move_candidates. apply list_bind_ext; [|done]. by intros [s u]. Qed.

Lemma player_units_head g p u :
  0 < dim (options g) → get g (mkCoord 0 0) = Some u → player u = p →
  ∃ rest, player_units g p = (mkCoord 0 0, u) :: rest.
Proof.
  intros Hdim Hu Hp. unfold player_units, CoordPair_iter_rectangle, CoordPair_from_dim.
  cbn [src dst row col]. unfold range.
  rewrite (seqZ_cons 0) by lia. rewrite bind_cons. cbv beta.
  rewrite bind_cons. cbv beta.
  rewrite <- !app_assoc, bind_app, bind_singleton, Hu, (bool_decide_eq_true_2 _ Hp).
  by eexists.
Qed.

Lemma move_candidates_head g u :
  0 < dim (options g) → get g (mkCoord 0 0) = Some u → player u = next_player g →
  ∃ rest, move_candidates g = moves_from g (mkCoord 0 0) ++ rest.
Proof.
  intros Hdim Hu Hp. rewrite move_candidates_moves_from.
  destruct (player_units_head g _ u Hdim Hu Hp) as [rest ->].
  rewrite bind_cons. by eexists.
Qed.

Lemma huge_first_candidate :
  ∃ rest, move_candidates huge = self_destruct_at 0 0 :: rest.
Proof.
  destruct (move_candidates_head huge (mkUnit Attacker AI 9)) as [rest ->];
    [vm_compute; reflexivity..|].
  exists rest. vm_compute (moves_from huge (mkCoord 0 0)). reflexivity.
Qed.

(** The two self-destructs only read and write the corner, whatever
    the rest of the board holds. *)
Lemma child_corner_00 t0 t1 tl :
  child (mkGame ((Some (mkUnit Attacker AI 9) :: Some (mkUnit Attacker Virus 9)
                    :: Some (mkUnit Defender AI 9) :: t0)
                 :: (Some (mkUnit Attacker AI 9) :: Some (mkUnit Attacker AI 9)
                       :: Some (mkUnit Attacker AI 9) :: t1) :: tl)
               Attacker 0 huge_options (mkStats ∅ 0%Q) true true)
        (self_destruct_at 0 0)
  = Some (mkGame ((None :: Some (mkUnit Attacker Virus 7)
                     :: Some (mkUnit Defender AI 9) :: t0)
                  :: (Some (mkUnit Attacker AI 7) :: Some (mkUnit Attacker AI 7)
                        :: Some (mkUnit Attacker AI 9) :: t1) :: tl)
                Defender 1 huge_options (mkStats ∅ 0%Q) false true).
Proof. vm_compute. reflexivity. Qed.

Lemma child_corner_01 t0 t1 tl :
  child (mkGame ((Some (mkUnit Attacker AI 9) :: Some (mkUnit Attacker Virus 9)
                    :: Some (mkUnit Defender AI 9) :: t0)
                 :: (Some (mkUnit Attacker AI 9) :: Some (mkUnit Attacker AI 9)
                       :: Some (mkUnit Attacker AI 9) :: t1) :: tl)
               Attacker 0 huge_options (mkStats ∅ 0%Q) true true)
        (self_destruct_at 0 1)
  = Some (mkGame ((Some (mkUnit Attacker AI 7) :: None
                     :: Some (mkUnit Defender AI 7) :: t0)
                  :: (Some (mkUnit Attacker AI 7) :: Some (mkUnit Attacker AI 7)
                        :: Some (mkUnit Attacker AI 7) :: t1) :: tl)
                Defender 1 huge_options (mkStats ∅ 0%Q) true true).
Proof. vm_compute. reflexivity. Qed.

Lemma child_huge_00 : child huge (self_destruct_at 0 0) = Some huge_after_00.
Proof. exact (child_corner_00 _ _ _). Qed.

Lemma child_huge_01 : child huge (self_destruct_at 0 1) = Some huge_after_01.
Proof. exact (child_corner_01 _ _ _). Qed.

Lemma self_destruct_01_candidate : self_destruct_at 0 1 ∈ move_candidates huge.
Proof.
  rewrite move_candidates_moves_from. apply list_elem_of_bind.
  exists (mkCoord 0 1, mkUnit Attacker Virus 9). split.
  - apply elem_of_moves_from. simpl. auto.
  - apply elem_of_player_units. split; [vm_compute; reflexivity|reflexivity].
Qed.

(** *** The two searches at depth 1 *)

Lemma evaluate_e0 s g mp :
  heuristic (options s) = Some "e0"%string → evaluate s g mp = heuristic_e0 g mp.
Proof. unfold evaluate. by intros ->. Qed.

(** In a loop without pruning, every candidate that can be played
    pushes the result up to the value of its child. *)
Lemma max_loop_ge_child recurse game depth m c v :
  alpha_beta (options game) = false →
  child game m = Some c →
  (∀ a b st, ∃ mv st', recurse c a b st = Some (v, mv, st')) →
  ∀ ms e bm a b st r,
    m ∈ ms → max_loop recurse game depth ms e bm a b st = Some r → v ≤ score r.
Proof.
  intros Hplain Hc Hv. induction ms as [|m' ms IH]; intros e bm a b st r Hin.
  { by apply elem_of_nil in Hin. }
  destruct (decide (m' = m)) as [->|Hne].
  - destruct (Hv a b (count_eval depth st)) as (mv & st' & Hr).
    rewrite (max_loop_visit _ _ _ _ _ _ _ _ _ _ _ _ _ _ Hc Hr), Hplain.
    intros H%max_loop_ge. lia.
  - apply elem_of_cons in Hin as [->|Hin]; [done|].
    destruct (child game m') as [c'|] eqn:Hc'.
    + destruct (recurse c' a b (count_eval depth st)) as [[[w mv] st']|] eqn:Hr.
      * rewrite (max_loop_visit _ _ _ _ _ _ _ _ _ _ _ _ _ _ Hc' Hr), Hplain. by apply IH.
      * by rewrite (max_loop_fail _ _ _ _ _ _ _ _ _ _ _ Hc' Hr).
    + rewrite max_loop_skip by done. by apply IH.
Qed.

Lemma huge_pruned_score st :
  ∃ mv st',
    minimax (with_alpha_beta huge true) (with_alpha_beta huge true) 1 true Attacker
            MIN_HEURISTIC_SCORE MAX_HEURISTIC_SCORE st
    = Some (2006799303, mv, st').
Proof.
  cbn [minimax]. rewrite ab_has_winner, ab_move_candidates.
  destruct huge_first_candidate as [rest ->].
  change (has_winner huge) with (@None Player).
  erewrite max_loop_visit; cycle 1.
  - rewrite ab_child, child_huge_00. done.
  - simpl. rewrite ab_evaluate, evaluate_e0 by done.
    rewrite heuristic_e0_huge_after_00. done.
  - rewrite ab_alpha_beta. by eexists _, _.
Qed.

Lemma huge_plain_score st r :
  minimax (with_alpha_beta huge false) (with_alpha_beta huge false) 1 true Attacker
          MIN_HEURISTIC_SCORE MAX_HEURISTIC_SCORE st = Some r →
  2006809299 ≤ score r.
Proof.
  cbn [minimax]. rewrite ab_has_winner, ab_move_candidates.
  change (has_winner huge) with (@None Player).
  apply (max_loop_ge_child _ _ _ (self_destruct_at 0 1) (with_alpha_beta huge_after_01 false)).
  - done.
  - by rewrite ab_child, child_huge_01.
  - intros a b st0. eexists _, _. simpl.
    rewrite ab_evaluate, evaluate_e0 by done. by rewrite heuristic_e0_huge_after_01.
  - apply self_destruct_01_candidate.
Qed.

Lemma huge_invariant : wf_game huge ∧ game_invariant huge.
Proof.
  split; [apply wf_corner_game|]. split.
  - intros c u Hu. apply get_in_board in Hu as (r & Hr & Hin).
    assert (Hcell : ∀ o, o ∈ r → o = Some (mkUnit Attacker AI 9)
                       ∨ o = Some (mkUnit Attacker Virus 9) ∨ o = Some (mkUnit Defender AI 9)).
    { unfold huge, corner_game, corner_board in Hr. cbn [board] in Hr.
      rewrite !elem_of_cons in Hr. destruct Hr as [->|[->|Hr]].
      - intros o. rewrite !elem_of_cons. intros [->|[->|[->|Ho]]]; auto.
        apply elem_of_replicate in Ho as [-> _]. auto.
      - intros o. rewrite !elem_of_cons. intros [->|[->|[->|Ho]]]; auto.
        apply elem_of_replicate in Ho as [-> _]. auto.
      - apply elem_of_replicate in Hr as [-> _].
        intros o [-> _]%elem_of_replicate. auto. }
    destruct (Hcell _ Hin) as [[= ->]|[[= ->]|[= ->]]]; simpl; lia.
  - intros [|]; (split; [intros _|done]).
    + exists (mkCoord 0 0), (mkUnit Attacker AI 9).
      split; [vm_compute; reflexivity|done].
    + exists (mkCoord 0 2), (mkUnit Defender AI 9).
      split; [vm_compute; reflexivity|done].
Qed.

(** C8, as stated, fails.  [huge] is a well-formed board that satisfies
    the invariant of the data model; at depth 1 the search with
    alpha-beta stops after the first candidate, whose score 2006799303
    is above [MAX_HEURISTIC_SCORE], while the search without it goes on
    to a candidate scoring 2006809299. *)
Lemma alpha_beta_changes_score_on_huge_board :
  wf_game huge ∧ game_invariant huge ∧
  ∃ r1 r2,
    minimax (with_alpha_beta huge true) (with_alpha_beta huge true) 1 true Attacker
            MIN_HEURISTIC_SCORE MAX_HEURISTIC_SCORE (mkSearchStats ∅ 0) = Some r1 ∧
    minimax (with_alpha_beta huge false) (with_alpha_beta huge false) 1 true Attacker
            MIN_HEURISTIC_SCORE MAX_HEURISTIC_SCORE (mkSearchStats ∅ 0) = Some r2 ∧
    score r1 = 2006799303 ∧ 2006809299 ≤ score r2 ∧ score r1 ≠ score r2.
Proof.
  destruct huge_invariant as [Hwf Hinv]. do 2 (split; [done|]).
  destruct (huge_pruned_score (mkSearchStats ∅ 0)) as (mv & st' & H1).
  destruct (minimax_window_sound huge Attacker 1 huge true MIN_HEURISTIC_SCORE
              MAX_HEURISTIC_SCORE MIN_HEURISTIC_SCORE MAX_HEURISTIC_SCORE
              (mkSearchStats ∅ 0) (mkSearchStats ∅ 0)) as (r1 & r2 & _ & H2 & _); [done|].
  pose proof (huge_plain_score _ _ H2) as Hge.
  eexists _, r2. split; [exact H1|]. split; [exact H2|].
  unfold score in *; cbn [fst] in *. lia.
Qed.

(** *** The search always returns *)

Section loops_total.
Variable recurse : Game → Z → Z → SearchStats → option SearchResult.
Variable game : Game.
Variable depth : nat.
Hypothesis recurse_total : ∀ c a b st, is_Some (recurse c a b st).

Lemma max_loop_total ms : ∀ e bm a b st,
  is_Some (max_loop recurse game depth ms e bm a b st).
Proof.
  induction ms as [|m ms IH]; intros e bm a b st; [by eexists|].
  destruct (child game m) as [c|] eqn:Hc.
  - destruct (recurse_total c a b (count_eval depth st)) as [[[v mv] st'] Hr].
    rewrite (max_loop_visit _ _ _ _ _ _ _ _ _ _ _ _ _ _ Hc Hr).
    repeat case_match; first [apply IH | by eexists].
  - rewrite max_loop_skip by done. apply IH.
Qed.

Lemma min_loop_total ms : ∀ e bm a b st,
  is_Some (min_loop recurse game depth ms e bm a b st).
Proof.
  induction ms as [|m ms IH]; intros e bm a b st; [by eexists|].
  destruct (child game m) as [c|] eqn:Hc.
  - destruct (recurse_total c a b (count_eval depth st)) as [[[v mv] st'] Hr].
    rewrite (min_loop_visit _ _ _ _ _ _ _ _ _ _ _ _ _ _ Hc Hr).
    repeat case_match; first [apply IH | by eexists].
  - rewrite min_loop_skip by done. apply IH.
Qed.
End loops_total.

Lemma minimax_total s mp depth : ∀ g is_max a b st,
  is_Some (minimax s g depth is_max mp a b st).
Proof.
  induction depth as [|d IH]; intros g is_max a b st; [by eexists|].
  cbn [minimax]. destruct (has_winner g); [by eexists|].
  destruct is_max; [apply max_loop_total|apply min_loop_total]; intros; apply IH.
Qed.

(** *** C10 *)

(** C10, as stated, fails.  On a position that already has a winner the
    search returns no move; called there after an earlier search has
    filled the process-wide counters, [suggest_move] answers none
    although the 1 second it took is within the budget of 5. *)
Lemma suggest_move_none_within_budget :
  has_winner attacker_ai_lost = Some Defender ∧
  answer_of (suggest_move attacker_ai_lost (1 # 1) stats_after_first_search) = Some None ∧
  ¬ timed_out attacker_ai_lost (1 # 1).
Proof.
  split; [vm_compute; reflexivity|]. split.
  - vm_compute. reflexivity.
  - unfold timed_out. vm_compute. discriminate.
Qed.

(** Within the budget the report can also fail before the move is
    returned: at depth 0 the mapping of counts is empty and has no last
    key, at depth 1 every visited node is a leaf and the branching
    factor divides by 0. *)
Lemma suggest_move_shallow_report_fails :
  suggest_move (opening_at_depth 0) (1 # 1) no_stats = None ∧
  suggest_move (opening_at_depth 1) (1 # 1) no_stats = None.
Proof. split; vm_compute; reflexivity. Qed.

Lemma Qle_bool_false x y : Qle_bool x y = false ↔ (y < x)%Q.
Proof.
  rewrite <- not_true_iff_false, Qle_bool_iff. split.
  - apply Qnot_le_lt.
  - apply Qlt_not_le.
Qed.

(** C10, amended. The complete search from the live game at the
    configured depth always returns, and its result does not depend on
    the time taken.  When the elapsed time exceeds [max_time],
    [suggest_move] answers none and hands the game back as it was.
    Otherwise, whenever it returns, it answers with the move the search
    returned (itself none when the game is already won or no candidate
    could be played), with the elapsed time added to the running total
    and the position untouched. *)
Theorem suggest_move_correct g elapsed_seconds st :
  ∃ score move st',
    minimax g g (max_depth (options g)) true (next_player g)
            MIN_HEURISTIC_SCORE MAX_HEURISTIC_SCORE st = Some (score, move, st') ∧
    (timed_out g elapsed_seconds →
     suggest_move g elapsed_seconds st = Some (g, None, st')) ∧
    (¬ timed_out g elapsed_seconds →
     ∀ g' answer st'',
       suggest_move g elapsed_seconds st = Some (g', answer, st'') →
       answer = move ∧ st'' = st' ∧
       total_seconds (stats g') = (total_seconds (stats g) + elapsed_seconds)%Q ∧
       board g' = board g ∧ next_player g' = next_player g ∧
       turns_played g' = turns_played g ∧ options g' = options g).
Proof.
  destruct (minimax_total g (next_player g) (max_depth (options g)) g true
              MIN_HEURISTIC_SCORE MAX_HEURISTIC_SCORE st) as [[[score move] st'] Hm].
  exists score, move, st'. split; [exact Hm|].
  unfold suggest_move, timed_out. rewrite Hm. cbn [mbind option_bind].
  destruct (Qle_bool elapsed_seconds (max_time (options g))) eqn:Ht; cbn [negb].
  - apply Qle_bool_iff in Ht. split; [intros Hlt; by apply Qle_not_lt in Ht|].
    intros _ g' answer st''.
    destruct (get_cumulative_evals _ st'); [|done].
    destruct (get_cumulative_evals_by_depth _ st'); [|done].
    destruct (get_cumulative_perc_evals _ st'); [|done].
    destruct (get_avg_branching_factor _ st'); [|done].
    cbn [mbind option_bind]. by intros [= <- <- <-].
  - apply Qle_bool_false in Ht. split; [done|]. by intros [].
Qed.

(** At depth 2 from the opening position, within the budget, the call
    returns and answers with the move of the search. *)
Lemma suggest_move_correct_witness :
  ¬ timed_out (opening_at_depth 2) (1 # 1) ∧
  answer_of (suggest_move (opening_at_depth 2) (1 # 1) no_stats)
  = Some (Some (mkCoordPair (mkCoord 2 4) (mkCoord 1 4))) ∧
  ∃ score st',
    minimax (opening_at_depth 2) (opening_at_depth 2) 2 true Attacker
            MIN_HEURISTIC_SCORE MAX_HEURISTIC_SCORE no_stats
    = Some (score, Some (mkCoordPair (mkCoord 2 4) (mkCoord 1 4)), st').
Proof.
  assert (Hin : ¬ timed_out (opening_at_depth 2) (1 # 1))
    by (unfold timed_out; vm_compute; discriminate).
  assert (Hans : answer_of (suggest_move (opening_at_depth 2) (1 # 1) no_stats)
                 = Some (Some (mkCoordPair (mkCoord 2 4) (mkCoord 1 4))))
    by (vm_compute; reflexivity).
  split; [exact Hin|]. split; [exact Hans|].
  destruct (suggest_move_correct (opening_at_depth 2) (1 # 1) no_stats)
    as (score & move & st' & Hm & _ & Hret).
  destruct (suggest_move (opening_at_depth 2) (1 # 1) no_stats)
    as [[[g' answer] st'']|] eqn:Hs; [|discriminate Hans].
  destruct (Hret Hin g' answer st'' eq_refl) as (Ha & _).
  injection Hans as Hans. simpl in Hans. subst answer. subst move.
  exists score, st'. exact Hm.
Defined.

(** ** The theorems at concrete positions *)

(** A Virus attacks a Program: 6 against 3, both survive. *)
Lemma attack_correct_witness :
  units_healthy skirmish ∧
  is_valid_to_attack skirmish (mkCoordPair (mkCoord 2 1) (mkCoord 1 1)) = true ∧
  ∃ g', attack skirmish (mkCoordPair (mkCoord 2 1) (mkCoord 1 1)) = Some g' ∧
        get g' (mkCoord 2 1) = Some (mkUnit Attacker Virus 6) ∧
        get g' (mkCoord 1 1) = Some (mkUnit Defender Program 3).
Proof.
  assert (Hh : units_healthy skirmish)
    by (apply units_healthy_check_sound; vm_compute; reflexivity).
  assert (Hv : is_valid_to_attack skirmish (mkCoordPair (mkCoord 2 1) (mkCoord 1 1)) = true)
    by (vm_compute; reflexivity).
  split; [exact Hh|]. split; [exact Hv|].
  destruct (attack_correct skirmish (mkCoordPair (mkCoord 2 1) (mkCoord 1 1))
              (mkUnit Attacker Virus 9) (mkUnit Defender Program 9) Hh Hv)
    as (_ & _ & _ & _ & g' & Ha & Hs & Hd & _);
    [vm_compute; reflexivity..|].
  exists g'. split; [exact Ha|]. split; [exact Hs|exact Hd].
Defined.

(** The Virus next to the Attacker's AI self-destructs from the opening
    position: it is gone, the Firewall beside it is down to 7, the
    Defender's camp is out of reach. *)
Lemma self_destruct_correct_witness :
  units_healthy opening ∧
  is_valid_to_self_destruct opening (mkCoordPair (mkCoord 3 4) (mkCoord 3 4)) = true ∧
  ∃ g', self_destruct opening (mkCoordPair (mkCoord 3 4) (mkCoord 3 4)) = Some g' ∧
        get g' (mkCoord 3 4) = None ∧
        get g' (mkCoord 3 3) = Some (mkUnit Attacker Firewall 7) ∧
        get g' (mkCoord 1 1) = Some (mkUnit Defender Program 9).
Proof.
  assert (Hh : units_healthy opening)
    by (apply units_healthy_check_sound; vm_compute; reflexivity).
  assert (Hv : is_valid_to_self_destruct opening
                 (mkCoordPair (mkCoord 3 4) (mkCoord 3 4)) = true)
    by (vm_compute; reflexivity).
  split; [exact Hh|]. split; [exact Hv|].
  destruct (self_destruct_correct opening (mkCoordPair (mkCoord 3 4) (mkCoord 3 4)) Hh Hv)
    as (g' & Hsd & Hsrc & Hblock & _ & Hout & _).
  exists g'. split; [exact Hsd|]. split; [exact Hsrc|]. split.
  - apply (Hblock (mkCoord 3 3) (mkUnit Attacker Firewall 9)).
    + discriminate.
    + unfold in_block. simpl. lia.
    + vm_compute. reflexivity.
  - rewrite (Hout (mkCoord 1 1)).
    + vm_compute. reflexivity.
    + unfold in_block. simpl. lia.
Defined.

(** A Tech repairs a Program at 5: the entry is 3, the Program ends at 8. *)
Lemma repair_correct_witness :
  units_healthy workshop ∧
  is_valid_to_repair workshop (mkCoordPair (mkCoord 1 0) (mkCoord 1 1)) = true ∧
  ∃ g', repair workshop (mkCoordPair (mkCoord 1 0) (mkCoord 1 1)) = Some g' ∧
        get g' (mkCoord 1 1) = Some (mkUnit Defender Program 8) ∧
        get g' (mkCoord 1 0) = Some (mkUnit Defender Tech 9).
Proof.
  assert (Hh : units_healthy workshop)
    by (apply units_healthy_check_sound; vm_compute; reflexivity).
  assert (Hv : is_valid_to_repair workshop (mkCoordPair (mkCoord 1 0) (mkCoord 1 1)) = true)
    by (vm_compute; reflexivity).
  split; [exact Hh|]. split; [exact Hv|].
  destruct (repair_correct workshop (mkCoordPair (mkCoord 1 0) (mkCoord 1 1)))
    as (_ & _ & Hres).
  destruct (Hres Hh Hv) as (s & d & g' & Hs & Hd & Hr & _ & Hdst & Hsrc & _).
  assert (s = mkUnit Defender Tech 9) as ->
    by (apply (inj Some); rewrite <- Hs; vm_compute; reflexivity).
  assert (d = mkUnit Defender Program 5) as ->
    by (apply (inj Some); rewrite <- Hd; vm_compute; reflexivity).
  exists g'. split; [exact Hr|]. split; [exact Hdst|exact Hsrc].
Defined.

(** The default options: a 5 by 5 board. *)
Lemma game_invariant_reachable_witness :
  3 ≤ dim default_Options ∧
  game_invariant opening ∧
  game_invariant (next_turn opening).
Proof.
  assert (Hdim : 3 ≤ dim default_Options) by (vm_compute; discriminate).
  destruct (game_invariant_reachable default_Options Hdim) as [Hinit Hreach].
  split; [exact Hdim|]. split; [exact Hinit|].
  exact (proj2 (proj2 (Hreach opening (reachable_new default_Options)))).
Defined.

(** The opening position at the default depth 4. *)
Lemma alpha_beta_same_score_witness :
  dim (options opening) ≤ 447 ∧
  ∃ v mv1 mv2 st1 st2,
    minimax (with_alpha_beta opening true) (with_alpha_beta opening true) 4 true Attacker
            MIN_HEURISTIC_SCORE MAX_HEURISTIC_SCORE (mkSearchStats ∅ 0)
    = Some (v, mv1, st1) ∧
    minimax (with_alpha_beta opening false) (with_alpha_beta opening false) 4 true Attacker
            MIN_HEURISTIC_SCORE MAX_HEURISTIC_SCORE (mkSearchStats ∅ 0)
    = Some (v, mv2, st2).
Proof.
  assert (Hdim : dim (options opening) ≤ 447) by (vm_compute; discriminate).
  split; [exact Hdim|].
  exact (alpha_beta_same_score opening 4 true Attacker (mkSearchStats ∅ 0)
           (mkSearchStats ∅ 0) Hdim).
Defined.

(** ** The specification's end-to-end example *)

(** From the opening position the Attacker's AI cannot step onto the
    cell of its own Firewall: the move is refused and nothing changes. *)
Example ai_onto_own_firewall :
  perform_move opening (mkCoordPair (mkCoord 4 4) (mkCoord 3 3))
  = Some (opening, (false, "invalid move"%string)).
Proof. vm_compute. reflexivity. Qed.

(** At depth 2 and 3 from the opening position both searches return 0. *)
Example opening_scores :
  score <$> minimax (with_alpha_beta opening true) (with_alpha_beta opening true) 3 true
                    Attacker MIN_HEURISTIC_SCORE MAX_HEURISTIC_SCORE (mkSearchStats ∅ 0)
  = Some 0 ∧
  score <$> minimax (with_alpha_beta opening false) (with_alpha_beta opening false) 3 true
                    Attacker MIN_HEURISTIC_SCORE MAX_HEURISTIC_SCORE (mkSearchStats ∅ 0)
  = Some 0.
Proof. split; vm_compute; reflexivity. Qed.

(** ** Geometry *)

(** X1.  [Coord.iter_range(dist)] yields exactly the coordinates within
    Chebyshev distance [dist] of the centre, each once: (2 dist + 1)^2 of
    them, none when [dist] is negative. *)
Theorem Coord_iter_range_spec center dist :
  (∀ c, c ∈ Coord_iter_range center dist ↔
        Z.abs (row c - row center) ≤ dist ∧ Z.abs (col c - col center) ≤ dist)
  ∧ NoDup (Coord_iter_range center dist)
  ∧ length (Coord_iter_range center dist)
    = (Z.to_nat (2 * dist + 1) * Z.to_nat (2 * dist + 1))%nat.
Proof.
  split; [|split].
  - intros c. unfold Coord_iter_range. rewrite elem_of_rect, !elem_of_range. lia.
  - apply NoDup_iter_range.
  - unfold Coord_iter_range. rewrite length_rect, !length_range. f_equal; f_equal; lia.
Qed.

(** X2.  [CoordPair.from_dim(dim).iter_rectangle()] yields exactly the
    coordinates [is_valid_coord] accepts, each once: dim^2 of them. *)
Theorem iter_rectangle_board g :
  let cells := CoordPair_iter_rectangle (CoordPair_from_dim (dim (options g))) in
  (∀ c, c ∈ cells ↔ is_valid_coord g c = true)
  ∧ NoDup cells
  ∧ Z.of_nat (length cells) = cell_count g.
Proof.
  split; [|split].
  - intros c. by rewrite elem_of_iter_rectangle, is_valid_coord_true.
  - apply NoDup_iter_rectangle.
  - unfold CoordPair_iter_rectangle, CoordPair_from_dim, cell_count. simpl.
    rewrite length_rect, !length_range. do 2 f_equal; lia.
Qed.

(** X3.  [is_adjacent] holds exactly for the four coordinates
    [iter_adjacent] yields, it is symmetric, never holds between a cell
    and itself, and coincides with the pair being a one-step move down,
    right, up or left. *)
Theorem is_adjacent_spec s d :
  (is_adjacent s d = true ↔ d ∈ Coord_iter_adjacent s)
  ∧ is_adjacent s d = is_adjacent d s
  ∧ is_adjacent s s = false
  ∧ is_adjacent s d = is_unit_step (mkCoordPair s d).
Proof.
  split; [|split; [|split]].
  - by rewrite is_adjacent_true, is_adjacent_iter_adjacent.
  - apply eq_true_iff_eq. rewrite !is_adjacent_true. unfold orthogonally_adjacent. lia.
  - apply not_true_is_false. intros H%is_adjacent_ne. done.
  - apply eq_true_iff_eq. unfold is_unit_step. rewrite !orb_true_iff.
    rewrite is_adjacent_true, is_move_down_true, is_move_right_true,
      is_move_up_true, is_move_left_true.
    unfold orthogonally_adjacent, moves_down, moves_right, moves_up, moves_left.
    simpl. lia.
Qed.

(** ** Reading and writing cells *)

(** X4.  On a board of [dim] rows of [dim] cells, [get] after [set]
    reads the value written at that coordinate and the old value
    anywhere else; a [set] at an invalid coordinate changes nothing. *)
Theorem get_after_set g c u c' :
  wf_game g →
  get (set g c u) c'
  = (if bool_decide (c' = c) && is_valid_coord g c then u else get g c')
  ∧ (is_valid_coord g c = false → set g c u = g)
  ∧ wf_game (set g c u).
Proof.
  intros Hwf. split; [|split].
  - destruct (is_valid_coord g c) eqn:Hv.
    + rewrite get_set by by apply wf_has_cell.
      rewrite andb_true_r. by destruct (decide (c' = c)); simplify_eq;
        [rewrite bool_decide_eq_true_2|rewrite bool_decide_eq_false_2].
    + rewrite andb_false_r. unfold set. by rewrite Hv.
  - intros Hv. unfold set. by rewrite Hv.
  - by apply wf_set.
Qed.

Lemma list_index_lookup {A} (l : list A) (i : Z) :
  list_index l i
  = if (- Z.of_nat (length l) <=? i) && (i <? Z.of_nat (length l))
    then l !! Z.to_nat (i `mod` Z.of_nat (length l)) else None.
Proof.
  unfold list_index.
  destruct (Z.ltb_spec i 0), (Z.ltb_spec (i + Z.of_nat (length l)) 0),
    (Z.leb_spec (- Z.of_nat (length l)) i), (Z.ltb_spec i (Z.of_nat (length l)));
    simpl; try lia; try done.
  - f_equal. f_equal. apply Z.mod_unique with (-1); lia.
  - f_equal. f_equal. symmetry. apply Z.mod_small. lia.
  - apply lookup_ge_None_2. lia.
Qed.

(** X5.  [is_empty] skips the bounds check of [get]: on a board of
    dimension [d] it answers for every index pair in [-d, d), reading a
    negative index from the far side as Python does, and raises
    [IndexError] outside that range. *)
Theorem is_empty_spec g c :
  wf_game g →
  let d := dim (options g) in
  is_empty g c
  = if (- d <=? row c) && (row c <? d) && (- d <=? col c) && (col c <? d)
    then Some (bool_decide (get g (wrapped d c) = None))
    else None.
Proof.
  intros [Hlen Hrows] d. unfold is_empty. rewrite list_index_lookup, Hlen. fold d.
  destruct (Z.le_gt_cases d 0) as [Hd|Hd].
  { replace (Z.to_nat d) with 0%nat by lia.
    change (Z.of_nat 0) with 0. change (- 0) with 0.
    destruct (Z.leb_spec (- d) (row c)), (Z.ltb_spec (row c) d),
      (Z.leb_spec 0 (row c)), (Z.ltb_spec (row c) 0); simpl; try done; lia. }
  rewrite Z2Nat.id by lia.
  destruct (Z.leb_spec (- d) (row c)), (Z.ltb_spec (row c) d); simpl; try done.
  assert (0 ≤ row c `mod` d < d) as Hr by (apply Z.mod_pos_bound; lia).
  destruct (board g !! Z.to_nat (row c `mod` d)) as [r|] eqn:Er.
  2: { apply lookup_ge_None_1 in Er. lia. }
  assert (length r = Z.to_nat d) as Hlr.
  { eapply (proj1 (Forall_forall _ _) Hrows), list_elem_of_lookup_2, Er. }
  simpl. rewrite list_index_lookup, Hlr, Z2Nat.id by lia.
  destruct (Z.leb_spec (- d) (col c)), (Z.ltb_spec (col c) d); simpl; try done.
  assert (0 ≤ col c `mod` d < d) as Hk by (apply Z.mod_pos_bound; lia).
  destruct (r !! Z.to_nat (col c `mod` d)) as [cell|] eqn:Ek.
  2: { apply lookup_ge_None_1 in Ek. lia. }
  simpl. f_equal. unfold get, wrapped.
  rewrite (proj2 (is_valid_coord_true g _)) by (simpl; fold d; lia).
  unfold board_cell. simpl. rewrite Er. simpl. rewrite Ek. done.
Qed.

(** X6.  [player_units] lists exactly the cells that hold a unit of the
    player, each cell once, so no cell is listed for both players. *)
Theorem player_units_spec g p :
  (∀ c u, (c, u) ∈ player_units g p ↔ get g c = Some u ∧ player u = p)
  ∧ NoDup (fst <$> player_units g p)
  ∧ (∀ x, x ∈ player_units g p → x ∉ player_units g (Player_next p)).
Proof.
  split; [|split].
  - intros c u. apply elem_of_player_units.
  - apply NoDup_fmap_2_strong; [|apply NoDup_player_units].
    intros [c1 u1] [c2 u2] [H1 _]%elem_of_player_units [H2 _]%elem_of_player_units.
    simpl. intros ->. congruence.
  - intros [c u] [_ Hp]%elem_of_player_units [_ Hq]%elem_of_player_units.
    rewrite Hp in Hq. by destruct p.
Qed.

(** ** The four actions *)

(** X7.  At most one of [is_valid_move], [is_valid_to_attack],
    [is_valid_to_repair] and [is_valid_to_self_destruct] holds of a
    pair, so the order in which [perform_move] tries them never decides
    the outcome. *)
Theorem actions_exclusive g m : valid_actions g m ≤ 1.
Proof.
  assert (is_valid_move g m = true →
          get g (dst m) = None ∧ is_adjacent (src m) (dst m) = true) as Hm.
  { intros (_ & _ & u & _ & _ & Hadj & ? & _)%is_valid_move_conditions.
    by rewrite is_adjacent_true. }
  assert (is_valid_to_attack g m = true →
          ∃ s d, get g (src m) = Some s ∧ get g (dst m) = Some d ∧
                 is_adjacent (src m) (dst m) = true ∧ player s ≠ player d) as Ha.
  { unfold is_valid_to_attack.
    destruct (get g (src m)) as [s|]; [|done]. destruct (get g (dst m)) as [d|]; [|done].
    intros [[Hadj _]%andb_true_iff Hne%negb_true_iff]%andb_true_iff.
    apply bool_decide_eq_false in Hne. by exists s, d. }
  assert (is_valid_to_repair g m = true →
          ∃ s d, get g (src m) = Some s ∧ get g (dst m) = Some d ∧
                 is_adjacent (src m) (dst m) = true ∧ player s = player d) as Hr.
  { unfold is_valid_to_repair.
    destruct (get g (src m)) as [s|]; [|done]. destruct (get g (dst m)) as [d|]; [|done].
    rewrite !andb_true_iff. intros [[[[Hadj _] Heq] _] _].
    apply bool_decide_eq_true in Heq. by exists s, d. }
  assert (is_valid_to_self_destruct g m = true →
          is_adjacent (src m) (dst m) = false) as Hs.
  { unfold is_valid_to_self_destruct. destruct (get g (src m)); [|done].
    case_match; [|done]. intros E%bool_decide_eq_true. rewrite <- E.
    apply not_true_is_false. by intros Hadj%is_adjacent_ne. }
  unfold valid_actions.
  destruct (is_valid_move g m), (is_valid_to_attack g m), (is_valid_to_repair g m),
    (is_valid_to_self_destruct g m); simpl; try lia; exfalso;
    repeat match goal with
      | H : true = true → _ |- _ => specialize (H eq_refl)
      | H : false = true → _ |- _ => clear H
      end;
    naive_solver congruence.
Qed.

(** X8.  Engagement in combat is mutual: when the unit on a cell is
    engaged, an adjacent cell holds a unit of the other player and that
    unit is engaged as well. *)
Theorem engagement_mutual g c u :
  get g c = Some u → is_engaged_in_combat g c = true →
  ∃ c' u', c' ∈ Coord_iter_adjacent c ∧ get g c' = Some u' ∧
           player u' ≠ player u ∧ is_engaged_in_combat g c' = true.
Proof.
  intros Hu H. apply (is_engaged_in_combat_true g c u Hu) in H as (n & e & Hadj & He & Hp).
  exists n, e. split; [by apply is_adjacent_iter_adjacent|]. split; [done|]. split; [done|].
  apply (is_engaged_in_combat_true g n e He). exists c, u. split; [|done].
  unfold orthogonally_adjacent in *. lia.
Qed.

Lemma bind_singletons {A B} (f : A → list B) (h : A → B) (l : list A) :
  (∀ x, x ∈ l → f x = [h x]) → l ≫= f = h <$> l.
Proof.
  induction l as [|x l IH]; intros H; [done|].
  rewrite bind_cons, fmap_cons, (H x) by (apply elem_of_cons; by left).
  simpl. f_equal. apply IH. intros y Hy. apply H. apply elem_of_cons. by right.
Qed.

Lemma filter_none {A} (P : A → Prop) `{∀ x, Decision (P x)} (l : list A) :
  (∀ x, x ∈ l → ¬ P x) → filter P l = [].
Proof.
  induction l as [|x l IH]; intros Hl; [done|].
  rewrite filter_cons_False by (apply Hl, elem_of_cons; by left).
  apply IH. intros y Hy. apply Hl, elem_of_cons. by right.
Qed.

(** X9.  For the player who is not to move, [get_moves_for_player]
    yields one pair per unit and nothing else, the one from the unit's
    cell to itself: the three legality tests all require the source
    unit to belong to the player to move.  The number of moves
    heuristic e2 counts for that player is therefore the number of its
    units. *)
Theorem get_moves_for_player_off_turn g p :
  p ≠ next_player g →
  get_moves_for_player g p = (λ x, mkCoordPair (fst x) (fst x)) <$> player_units g p
  ∧ length (get_moves_for_player g p) = unit_count g p.
Proof.
  intros Hp.
  assert (get_moves_for_player g p
          = (λ x, mkCoordPair (fst x) (fst x)) <$> player_units g p) as E;
    [|split; [exact E|by rewrite E, length_fmap]].
  rewrite get_moves_for_player_moves_from. apply bind_singletons.
  intros [s u] [Hu Hpl]%elem_of_player_units. unfold moves_from. cbn [fst].
  rewrite filter_none; [done|].
  intros m (d & -> & _)%list_elem_of_fmap.
  unfold is_valid_move, is_valid_to_attack, is_valid_to_repair. cbn [src dst].
  rewrite Hu, Hpl, (bool_decide_eq_false_2 (p = next_player g)) by done.
  intros H. apply Is_true_true in H.
  repeat case_match; simpl in *; try done;
    rewrite ?andb_false_r in *; simpl in *; done.
Qed.

Lemma elem_of_move_candidates g m :
  m ∈ move_candidates g ↔ candidate_conditions g (next_player g) m.
Proof.
  rewrite move_candidates_moves_from, list_elem_of_bind. unfold candidate_conditions. split.
  - intros ([s u] & (Hs & H)%elem_of_moves_from & [Hu Hp]%elem_of_player_units).
    cbn [fst] in *. subst s. exists u. naive_solver.
  - intros (u & Hu & Hp & H). exists (src m, u). split.
    + apply elem_of_moves_from. naive_solver.
    + by apply elem_of_player_units.
Qed.

Lemma candidate_performed g m :
  m ∈ move_candidates g → ∃ g' tag, perform_move g m = Some (g', (true, tag)).
Proof.
  intros (u & Hu & Hp & H)%elem_of_move_candidates. unfold perform_move.
  destruct (is_valid_move g m) eqn:Hm; [by eexists _, _|].
  destruct (is_valid_to_attack g m) eqn:Ha.
  { destruct (attack_defined _ _ Ha) as [g' ->]. by eexists _, _. }
  destruct (is_valid_to_repair g m) eqn:Hr.
  { destruct (repair_defined _ _ Hr) as [g' ->]. by eexists _, _. }
  assert (is_valid_to_self_destruct g m = true) as Hs.
  { destruct H as [[_ [?|[?|?]]]|Hd]; try congruence.
    unfold is_valid_to_self_destruct.
    rewrite Hu, (bool_decide_eq_true_2 _ Hp). apply bool_decide_eq_true_2. done. }
  rewrite Hs. destruct (self_destruct_defined _ _ Hs) as [g' ->]. by eexists _, _.
Qed.

(** X10.  Every pair [move_candidates] yields is accepted by
    [perform_move]: the [if success] tests in [minimax] never fail, and
    no candidate is wasted. *)
Theorem move_candidates_performable g m :
  m ∈ move_candidates g → ∃ g' tag, perform_move g m = Some (g', (true, tag)).
Proof. apply candidate_performed. Qed.

(** ** What an action leaves alone *)

Lemma same_turn_refl g : same_turn g g.
Proof. unfold same_turn. intuition. Qed.

Lemma same_turn_trans g1 g2 g3 : same_turn g1 g2 → same_turn g2 g3 → same_turn g1 g3.
Proof.
  intros (E1&E2&E3&E4&W1&A1) (F1&F2&F3&F4&W2&A2).
  unfold same_turn. rewrite F1, F2, F3, F4. intuition.
Qed.

Lemma same_turn_set g c u : same_turn g (set g c u).
Proof.
  unfold same_turn.
  rewrite set_next_player, set_turns_played, set_options, set_stats.
  do 4 (split; [done|]). split; [apply wf_set|].
  intros p. by rewrite set_has_ai.
Qed.

Lemma same_turn_mod_health g c d : same_turn g (mod_health g c d).
Proof.
  unfold same_turn.
  rewrite mod_health_next_player, mod_health_turns_played, mod_health_options,
    mod_health_stats.
  do 4 (split; [done|]). split; [apply wf_mod_health|].
  intros p. rewrite has_ai_mod_health. by intros [? _]%andb_true_iff.
Qed.

Lemma same_turn_foldl_mod_health l d : ∀ g,
  same_turn g (foldl (λ g c, mod_health g c d) g l).
Proof.
  induction l as [|c l IH]; intros g; [apply same_turn_refl|].
  simpl. eapply same_turn_trans; [apply same_turn_mod_health|apply IH].
Qed.

Lemma same_turn_perform_move g m g' r :
  perform_move g m = Some (g', r) → same_turn g g'.
Proof.
  unfold perform_move.
  destruct (is_valid_move g m).
  { intros [= <- _]. eapply same_turn_trans; apply same_turn_set. }
  destruct (is_valid_to_attack g m).
  { unfold attack. destruct (get g (src m)); [|done]. destruct (get g (dst m)); [|done].
    simpl. intros [= <- _]. eapply same_turn_trans; apply same_turn_mod_health. }
  destruct (is_valid_to_repair g m).
  { unfold repair. destruct (get g (src m)); [|done]. destruct (get g (dst m)); [|done].
    simpl. intros [= <- _]. apply same_turn_mod_health. }
  destruct (is_valid_to_self_destruct g m).
  { unfold self_destruct. destruct (get g (src m)); [|done].
    simpl. intros [= <- _].
    eapply same_turn_trans; [apply same_turn_mod_health|apply same_turn_foldl_mod_health]. }
  intros [= <- _]. apply same_turn_refl.
Qed.

(** X11.  [perform_move] never passes the turn: the player to move, the
    turn counter, the options and the statistics are those of the game
    it was given, the board keeps its shape, and an AI flag that was
    cleared is never set again. *)
Theorem perform_move_same_turn g m g' r :
  perform_move g m = Some (g', r) → same_turn g g'.
Proof. apply same_turn_perform_move. Qed.

(** X12.  A valid plain move relocates the unit: afterwards the
    destination holds the unit that stood on the source, the source is
    empty, every other cell and both AI flags are as before. *)
Theorem perform_move_relocates g m :
  wf_game g → is_valid_move g m = true →
  ∃ g', perform_move g m = Some (g', (true, "move"%string)) ∧
        get g' (dst m) = get g (src m) ∧ get g' (src m) = None ∧
        (∀ c, c ≠ src m → c ≠ dst m → get g' c = get g c) ∧
        (∀ p, has_ai g' p = has_ai g p).
Proof.
  intros Hwf Hm. unfold perform_move. rewrite Hm. eexists. split; [done|].
  pose proof (get_relocate g m Hwf Hm) as H.
  assert (src m ≠ dst m) as Hne.
  { apply is_valid_move_conditions in Hm as (_ & _ & u & _ & _ & Hadj & _).
    intros E. rewrite <- E in Hadj. destruct Hadj; lia. }
  split; [|split; [|split]].
  - rewrite H. rewrite decide_False by done. by rewrite decide_True.
  - rewrite H. by rewrite decide_True.
  - intros c ? ?. rewrite H. by rewrite !decide_False.
  - intros p. by rewrite !set_has_ai.
Qed.

(** ** Units are never created *)

Lemma NoDup_player_cells g p : NoDup (fst <$> player_units g p).
Proof.
  apply NoDup_fmap_2_strong; [|apply NoDup_player_units].
  intros [c1 u1] [c2 u2] [H1 _]%elem_of_player_units [H2 _]%elem_of_player_units.
  simpl. intros ->. congruence.
Qed.

Lemma elem_of_player_cells g p c :
  c ∈ fst <$> player_units g p ↔ ∃ u, get g c = Some u ∧ player u = p.
Proof.
  rewrite list_elem_of_fmap. split.
  - intros ([c' u] & -> & H%elem_of_player_units). by exists u.
  - intros (u & H). exists (c, u). split; [done|]. by apply elem_of_player_units.
Qed.

(** The cells of [g'] map one-to-one into the cells of [g]. *)
Lemma unit_count_le g g' p (f : Coord → Coord) :
  (∀ c1 c2 u1 u2, get g' c1 = Some u1 → get g' c2 = Some u2 → f c1 = f c2 → c1 = c2) →
  (∀ c u', get g' c = Some u' → player u' = p →
           ∃ u, get g (f c) = Some u ∧ player u = p) →
  (unit_count g' p ≤ unit_count g p)%nat.
Proof.
  intros Hinj Hsub. unfold unit_count.
  rewrite <- (length_fmap fst (player_units g' p)), <- (length_fmap fst (player_units g p)).
  rewrite <- (length_fmap f (fst <$> player_units g' p)).
  apply submseteq_length, NoDup_submseteq.
  - apply NoDup_fmap_2_strong; [|apply NoDup_player_cells].
    intros c1 c2 (u1 & H1 & _)%elem_of_player_cells (u2 & H2 & _)%elem_of_player_cells.
    by eapply Hinj.
  - intros c (c' & -> & (u' & Hu' & Hp)%elem_of_player_cells)%list_elem_of_fmap.
    apply elem_of_player_cells. by eapply Hsub.
Qed.

Lemma unit_count_mod_health g c d p :
  (unit_count (mod_health g c d) p ≤ unit_count g p)%nat.
Proof.
  apply (unit_count_le _ _ _ id); [done|].
  intros c' u'. rewrite get_mod_health. simpl. destruct (decide (c' = c)) as [->|]; [|eauto].
  intros (u & Hu & _ & Hp & _)%struck_Some ?. exists u. split; [done|congruence].
Qed.

Lemma unit_count_foldl_mod_health l d p : ∀ g,
  (unit_count (foldl (λ g c, mod_health g c d) g l) p ≤ unit_count g p)%nat.
Proof.
  induction l as [|c l IH]; intros g; [done|].
  simpl. etrans; [apply IH|apply unit_count_mod_health].
Qed.

Lemma unit_count_relocate g m p :
  wf_game g → is_valid_move g m = true →
  unit_count (set (set g (dst m) (get g (src m))) (src m) None) p = unit_count g p.
Proof.
  intros Hwf Hm. pose proof (get_relocate g m Hwf Hm) as H.
  assert (get g (dst m) = None) as Hd.
  { by apply is_valid_move_conditions in Hm as (_ & _ & u & _ & _ & _ & ? & _). }
  apply Nat.le_antisymm.
  - apply (unit_count_le _ _ _ (λ c, if decide (c = dst m) then src m else c)).
    + intros c1 c2 u1 u2. rewrite !H. repeat case_decide; congruence.
    + intros c u'. rewrite H. repeat case_decide; try done; eauto.
  - apply (unit_count_le _ _ _ (λ c, if decide (c = src m) then dst m else c)).
    + intros c1 c2 u1 u2 H1 H2. repeat case_decide; congruence.
    + intros c u Hu Hp. rewrite H.
      destruct (decide (c = src m)) as [->|].
      * destruct (decide (dst m = src m)) as [E|]; [congruence|].
        rewrite decide_True by done. eauto.
      * rewrite decide_False by done.
        destruct (decide (c = dst m)) as [->|]; [congruence|eauto].
Qed.

(** X13.  No action ever adds a unit: after [perform_move] neither
    player has more units on the board than before, and a plain move
    leaves both counts as they were. *)
Theorem perform_move_unit_count g m g' r p :
  wf_game g → perform_move g m = Some (g', r) →
  (unit_count g' p ≤ unit_count g p)%nat
  ∧ (is_valid_move g m = true → unit_count g' p = unit_count g p).
Proof.
  intros Hwf. unfold perform_move.
  destruct (is_valid_move g m) eqn:Hm.
  { intros [= <- _]. by rewrite unit_count_relocate. }
  split; [|done]. revert H.
  destruct (is_valid_to_attack g m).
  { unfold attack. destruct (get g (src m)); [|done]. destruct (get g (dst m)); [|done].
    simpl. intros [= <- _]. etrans; apply unit_count_mod_health. }
  destruct (is_valid_to_repair g m).
  { unfold repair. destruct (get g (src m)); [|done]. destruct (get g (dst m)); [|done].
    simpl. intros [= <- _]. apply unit_count_mod_health. }
  destruct (is_valid_to_self_destruct g m).
  { unfold self_destruct. destruct (get g (src m)); [|done].
    simpl. intros [= <- _].
    etrans; [apply unit_count_foldl_mod_health|apply unit_count_mod_health]. }
  by intros [= <- _].
Qed.

(** ** The end of the game *)

(** X14.  A finished game stays finished: once [has_winner] names a
    winner it names one after every further action and turn change, and
    a verdict for the Defender is never taken back. *)
Theorem finished_stays_finished g m g' r :
  perform_move g m = Some (g', r) →
  (is_finished g = true → is_finished (next_turn g') = true)
  ∧ (has_winner g = Some Defender → has_winner (next_turn g') = Some Defender).
Proof.
  intros (_ & Ht & Ho & _ & _ & Hai)%same_turn_perform_move.
  pose proof (Hai Attacker) as Ha. pose proof (Hai Defender) as Hd. simpl in Ha, Hd.
  unfold is_finished, has_winner, next_turn. cbn [options turns_played _attacker_has_ai
    _defender_has_ai]. rewrite Ho, Ht.
  destruct (max_turns (options g)) as [mt|];
    [destruct (Z.leb_spec mt (turns_played g)), (Z.leb_spec mt (turns_played g + 1));
       try lia|];
    destruct (_attacker_has_ai g), (_defender_has_ai g),
      (_attacker_has_ai g'), (_defender_has_ai g'); simpl; split; try done;
    try (by specialize (Ha eq_refl)); try (by specialize (Hd eq_refl)).
Qed.

(** ** The heuristics *)

Lemma opponent_of_involutive p : opponent_of (opponent_of p) = p.
Proof. by destruct p. Qed.

(** X15.  The three heuristics are zero-sum: the score of a position
    for one player is the negation of its score for the other. *)
Theorem heuristics_zero_sum g p :
  heuristic_e0 g (opponent_of p) = - heuristic_e0 g p
  ∧ heuristic_e1 g (opponent_of p) = - heuristic_e1 g p
  ∧ heuristic_e2 g (opponent_of p) = - heuristic_e2 g p.
Proof.
  unfold heuristic_e0, heuristic_e1, heuristic_e2. cbv zeta.
  rewrite !opponent_of_involutive. repeat split; lia.
Qed.

Lemma cell_count_447 g : dim (options g) ≤ 447 → 0 ≤ cell_count g ≤ 447 * 447.
Proof.
  intros Hd. unfold cell_count. rewrite Nat2Z.inj_mul.
  assert (0 ≤ Z.of_nat (Z.to_nat (dim (options g))) ≤ 447) by lia. nia.
Qed.

Lemma evaluate_strict s g mp :
  dim (options g) ≤ 447 →
  MIN_HEURISTIC_SCORE < evaluate s g mp < MAX_HEURISTIC_SCORE.
Proof.
  intros Hd. pose proof (evaluate_range s g mp). pose proof (cell_count_447 g Hd).
  unfold MIN_HEURISTIC_SCORE, MAX_HEURISTIC_SCORE. lia.
Qed.

(** X16.  A heuristic score is bounded by the number of cells of the
    board: 9999, 10000 and 10004 points per cell for e0, e1 and e2.  Up
    to dimension 447 every score therefore lies strictly between
    [MIN_HEURISTIC_SCORE] and [MAX_HEURISTIC_SCORE]. *)
Theorem heuristic_scores_bounded g p :
  Z.abs (heuristic_e0 g p) ≤ 9999 * cell_count g
  ∧ Z.abs (heuristic_e1 g p) ≤ 10000 * cell_count g
  ∧ Z.abs (heuristic_e2 g p) ≤ 10004 * cell_count g
  ∧ (dim (options g) ≤ 447 →
     ∀ e, e ∈ [heuristic_e0 g p; heuristic_e1 g p; heuristic_e2 g p] →
          MIN_HEURISTIC_SCORE < e < MAX_HEURISTIC_SCORE).
Proof.
  pose proof (heuristic_e0_range g p). pose proof (heuristic_e1_range g p).
  pose proof (heuristic_e2_range g p).
  do 3 (split; [done|]). intros Hd e He. pose proof (cell_count_447 g Hd).
  unfold MIN_HEURISTIC_SCORE, MAX_HEURISTIC_SCORE.
  rewrite !elem_of_cons, elem_of_nil in He. destruct He as [->|[->|[->|[]]]]; lia.
Qed.

(** ** The move a search returns *)

Section loop_moves.
Variable recurse : Game → Z → Z → SearchStats → option SearchResult.
Variable game : Game.
Variable depth : nat.

Lemma max_loop_move ms : ∀ e bm a b st v m st',
max_loop recurse game depth ms e bm a b st = Some (v, Some m, st') →
bm = Some m ∨ (m ∈ ms ∧ is_Some (child game m)).
Proof.
induction ms as [|m0 ms IH]; intros e bm a b st v m st'.
{ simpl. intros [= _ -> _]. by left. }
destruct (child game m0) as [c|] eqn:Hc.
- destruct (recurse c a b (count_eval depth st)) as [[[w mv] st1]|] eqn:Hr.
  + rewrite (max_loop_visit _ _ _ _ _ _ _ _ _ _ _ _ _ _ Hc Hr).
    assert ((if e <? w then Some m0 else bm) = Some m →
            bm = Some m ∨ m ∈ m0 :: ms ∧ is_Some (child game m)) as Hstep.
    { destruct (e <? w); [|by left].
      intros [= ->]. right. split; [apply elem_of_cons; by left|by rewrite Hc]. }
    repeat case_match;
      first [ intros [= _ Hm _]; apply Hstep; congruence
            | intros [Hb|[Hin Hch]]%IH;
              [by apply Hstep|right; split; [apply elem_of_cons; by right|done]] ].
  + by rewrite (max_loop_fail _ _ _ _ _ _ _ _ _ _ _ Hc Hr).
- rewrite max_loop_skip by done. intros [Hb|[Hin Hch]]%IH; [by left|].
  right. split; [apply elem_of_cons; by right|done].
Qed.

Lemma min_loop_fail m ms e bm a b st c :
child game m = Some c →
recurse c a b (count_eval depth st) = None →
min_loop recurse game depth (m :: ms) e bm a b st = None.
Proof.
unfold child. simpl. destruct (perform_move (clone game) m) as [[g' [[] t]]|];
  [|done|done].
intros [= <-]. simpl. by intros ->.
Qed.

Lemma min_loop_move ms : ∀ e bm a b st v m st',
min_loop recurse game depth ms e bm a b st = Some (v, Some m, st') →
bm = Some m ∨ (m ∈ ms ∧ is_Some (child game m)).
Proof.
induction ms as [|m0 ms IH]; intros e bm a b st v m st'.
{ simpl. intros [= _ -> _]. by left. }
destruct (child game m0) as [c|] eqn:Hc.
- destruct (recurse c a b (count_eval depth st)) as [[[w mv] st1]|] eqn:Hr.
  + rewrite (min_loop_visit _ _ _ _ _ _ _ _ _ _ _ _ _ _ Hc Hr).
    assert ((if w <? e then Some m0 else bm) = Some m →
            bm = Some m ∨ m ∈ m0 :: ms ∧ is_Some (child game m)) as Hstep.
    { destruct (w <? e); [|by left].
      intros [= ->]. right. split; [apply elem_of_cons; by left|by rewrite Hc]. }
    repeat case_match;
      first [ intros [= _ Hm _]; apply Hstep; congruence
            | intros [Hb|[Hin Hch]]%IH;
              [by apply Hstep|right; split; [apply elem_of_cons; by right|done]] ].
  + by rewrite (min_loop_fail _ _ _ _ _ _ _ _ Hc Hr).
- rewrite min_loop_skip by done. intros [Hb|[Hin Hch]]%IH; [by left|].
  right. split; [apply elem_of_cons; by right|done].
Qed.

(** With every candidate playable and every child scoring above the
  minimal score, a maximizing loop that visits a candidate ends with
  a move; dually for a minimizing loop. *)
Hypothesis children : ∀ m, m ∈ move_candidates game → is_Some (child game m).

Lemma max_loop_finds ms : ∀ e bm a b st r,
(∀ m c a b st r, child game m = Some c → recurse c a b st = Some r →
                 MIN_HEURISTIC_SCORE < score r) →
ms ⊆ move_candidates game →
ms ≠ [] ∨ MIN_HEURISTIC_SCORE < e →
(MIN_HEURISTIC_SCORE < e → is_Some bm) →
max_loop recurse game depth ms e bm a b st = Some r →
MIN_HEURISTIC_SCORE < score r ∧ is_Some (best_move r).
Proof.
intros e bm a b st r Hrec. revert e bm a b st r.
induction ms as [|m ms IH]; intros e bm a b st r Hsub Hne Hbm.
{ intros [= <-]. destruct Hne as [|He]; [done|]. unfold score, best_move. simpl. auto. }
destruct (children m) as [c Hc]; [apply Hsub, elem_of_cons; by left|].
destruct (recurse c a b (count_eval depth st)) as [[[w mv] st1]|] eqn:Hr.
2: { by rewrite (max_loop_fail _ _ _ _ _ _ _ _ _ _ _ Hc Hr). }
rewrite (max_loop_visit _ _ _ _ _ _ _ _ _ _ _ _ _ _ Hc Hr).
pose proof (Hrec _ _ _ _ _ _ Hc Hr) as Hw. unfold score in Hw; cbn [fst] in Hw.
assert (is_Some (if e <? w then Some m else bm)) as Hbm'.
{ destruct (Z.ltb_spec e w); [done|]. apply Hbm. lia. }
assert (ms ⊆ move_candidates game) as Hsub'.
{ intros x Hx. apply Hsub, elem_of_cons. by right. }
repeat case_match;
  first [ intros [= <-]; unfold score, best_move; simpl; split; [lia|done]
        | apply IH; [done|right; lia|done] ].
Qed.

Lemma min_loop_finds ms : ∀ e bm a b st r,
(∀ m c a b st r, child game m = Some c → recurse c a b st = Some r →
                 score r < MAX_HEURISTIC_SCORE) →
ms ⊆ move_candidates game →
ms ≠ [] ∨ e < MAX_HEURISTIC_SCORE →
(e < MAX_HEURISTIC_SCORE → is_Some bm) →
min_loop recurse game depth ms e bm a b st = Some r →
score r < MAX_HEURISTIC_SCORE ∧ is_Some (best_move r).
Proof.
intros e bm a b st r Hrec. revert e bm a b st r.
induction ms as [|m ms IH]; intros e bm a b st r Hsub Hne Hbm.
{ intros [= <-]. destruct Hne as [|He]; [done|]. unfold score, best_move. simpl. auto. }
destruct (children m) as [c Hc]; [apply Hsub, elem_of_cons; by left|].
destruct (recurse c a b (count_eval depth st)) as [[[w mv] st1]|] eqn:Hr.
2: { by rewrite (min_loop_fail _ _ _ _ _ _ _ _ Hc Hr). }
rewrite (min_loop_visit _ _ _ _ _ _ _ _ _ _ _ _ _ _ Hc Hr).
pose proof (Hrec _ _ _ _ _ _ Hc Hr) as Hw. unfold score in Hw; cbn [fst] in Hw.
assert (is_Some (if w <? e then Some m else bm)) as Hbm'.
{ destruct (Z.ltb_spec w e); [done|]. apply Hbm. lia. }
assert (ms ⊆ move_candidates game) as Hsub'.
{ intros x Hx. apply Hsub, elem_of_cons. by right. }
repeat case_match;
  first [ intros [= <-]; unfold score, best_move; simpl; split; [lia|done]
        | apply IH; [done|right; lia|done] ].
Qed.
End loop_moves.

Lemma child_candidate g m : m ∈ move_candidates g → is_Some (child g m).
Proof.
  intros (g' & tag & H)%candidate_performed. unfold child. rewrite clone_id, H. by eexists.
Qed.

Lemma child_performed g m :
  is_Some (child g m) → ∃ g' tag, perform_move g m = Some (g', (true, tag)).
Proof.
  unfold child. rewrite clone_id.
  destruct (perform_move g m) as [[g' [[] tag]]|]; intros [c Hc]; try done.
  by eexists _, _.
Qed.

Lemma minimax_move s g depth is_max mp a b st v m st' :
  minimax s g depth is_max mp a b st = Some (v, Some m, st') →
  depth ≠ 0%nat ∧ has_winner g = None ∧ m ∈ move_candidates g ∧
  ∃ g' tag, perform_move g m = Some (g', (true, tag)).
Proof.
  destruct depth as [|d]; [done|]. cbn [minimax].
  destruct (has_winner g); [done|].
  destruct is_max.
  - intros [?|[Hin Hc]]%max_loop_move; [done|]. auto using child_performed.
  - intros [?|[Hin Hc]]%min_loop_move; [done|]. auto using child_performed.
Qed.

(** X17.  A move returned by [minimax] is one of the candidates of the
    position searched, and [perform_move] accepts it there; a search at
    depth 0 or on a finished game returns no move. *)
Theorem minimax_move_performable s g depth is_max mp a b st v m st' :
  minimax s g depth is_max mp a b st = Some (v, Some m, st') →
  depth ≠ 0%nat ∧ has_winner g = None ∧ m ∈ move_candidates g ∧
  ∃ g' tag, perform_move g m = Some (g', (true, tag)).
Proof. apply minimax_move. Qed.

(** ** A search from a live position finds a move *)

Lemma strong_invariant_candidates g :
  strong_invariant g → has_winner g = None → move_candidates g ≠ [].
Proof.
  intros (_ & _ & Hf & _) Hw.
  assert (has_ai g (next_player g) = true) as Hai.
  { unfold has_winner in Hw. destruct (next_player g); simpl; repeat case_match; done. }
  apply Hf in Hai as (c & u & Hu & _ & Hp).
  assert (mkCoordPair c c ∈ move_candidates g) as Hin.
  { apply elem_of_move_candidates. exists u. auto. }
  intros E. rewrite E in Hin. by apply elem_of_nil in Hin.
Qed.

Lemma child_strong_invariant g m c :
  strong_invariant g → child g m = Some c → strong_invariant c.
Proof.
  intros Hg. unfold child. rewrite clone_id.
  destruct (perform_move g m) as [[g' [[] t]]|] eqn:E; try done.
  intros [= <-]. by eapply strong_invariant_next_turn, strong_invariant_perform_move.
Qed.

Lemma minimax_strict s mp depth : ∀ g is_max a b st r,
  strong_invariant g → dim (options g) ≤ 447 →
  minimax s g depth is_max mp a b st = Some r →
  MIN_HEURISTIC_SCORE < score r < MAX_HEURISTIC_SCORE
  ∧ (depth ≠ 0%nat → has_winner g = None → is_Some (best_move r)).
Proof.
  induction depth as [|d IH]; intros g is_max a b st r Hg Hdim.
  { simpl. intros [= <-]. split; [by apply evaluate_strict|done]. }
  cbn [minimax]. destruct (has_winner g) eqn:Hw.
  { intros [= <-]. split; [by apply evaluate_strict|done]. }
  assert (Hch : ∀ is_max m c a b st r,
            child g m = Some c → minimax s c d is_max mp a b st = Some r →
            MIN_HEURISTIC_SCORE < score r < MAX_HEURISTIC_SCORE).
  { intros ? m c ? ? ? ? Hc Hr. eapply IH; [| |exact Hr].
    - by eapply child_strong_invariant.
    - by rewrite (child_options _ _ _ Hc). }
  pose proof (strong_invariant_candidates g Hg Hw) as Hne.
  destruct is_max; intros Hr.
  - destruct (max_loop_finds (λ temp a b st, minimax s temp d false mp a b st)
                g (S d) (child_candidate g) (move_candidates g)
                MIN_HEURISTIC_SCORE None a b st r) as [Hlo Hmv];
      [intros m c ? ? ? ? Hc Hr'; by eapply Hch|done|by left|lia|exact Hr|].
    split; [split; [done|]|done].
    assert (score r ≤ MAX_HEURISTIC_SCORE - 1); [|lia].
    eapply max_loop_le; [| |exact Hr].
    + intros m c a' b' st' r' Hc Hr'. destruct (Hch _ _ _ _ _ _ _ Hc Hr'). lia.
    + unfold MIN_HEURISTIC_SCORE, MAX_HEURISTIC_SCORE. lia.
  - destruct (min_loop_finds (λ temp a b st, minimax s temp d true mp a b st)
                g (S d) (child_candidate g) (move_candidates g)
                MAX_HEURISTIC_SCORE None a b st r) as [Hhi Hmv];
      [intros m c ? ? ? ? Hc Hr'; by eapply Hch|done|by left|lia|exact Hr|].
    split; [split; [|done]|done].
    assert (MIN_HEURISTIC_SCORE + 1 ≤ score r); [|lia].
    eapply min_loop_ge; [| |exact Hr].
    + intros m c a' b' st' r' Hc Hr'. destruct (Hch _ _ _ _ _ _ _ Hc Hr'). lia.
    + unfold MIN_HEURISTIC_SCORE, MAX_HEURISTIC_SCORE. lia.
Qed.

Lemma reachable_options opts g : reachable opts g → options g = opts.
Proof.
  induction 1 as [|g m g' r _ IH Hm|g _ IH].
  - apply new_Game_options.
  - by rewrite (perform_move_options _ _ _ _ Hm).
  - done.
Qed.

(** X18.  In a game on a board of dimension 3 to 447, from every
    position that play can reach and that has no winner yet, a search
    of depth 1 or more returns a move, and a score strictly between the
    two extreme constants, whatever the window and the side to
    maximize. *)
Theorem minimax_finds_move opts g s d is_max mp a b st :
  3 ≤ dim opts ≤ 447 → reachable opts g → has_winner g = None →
  ∃ v m st', minimax s g (S d) is_max mp a b st = Some (v, Some m, st')
             ∧ MIN_HEURISTIC_SCORE < v < MAX_HEURISTIC_SCORE.
Proof.
  intros [Hlo Hhi] Hreach Hw.
  destruct (minimax_total s mp (S d) g is_max a b st) as [[[v mv] st'] Hr].
  destruct (minimax_strict s mp (S d) g is_max a b st _
              (reachable_strong_invariant _ _ Hlo Hreach)
              ltac:(by rewrite (reachable_options _ _ Hreach)) Hr) as [Hv Hmv].
  destruct (Hmv ltac:(done) Hw) as [m Hm]. unfold best_move in Hm. simpl in Hm. subst mv.
  by exists v, m, st'.
Qed.

(** ** Coordinates as text *)

Lemma row_letter_check :
  forallb (λ r, match row_letter r with
                | Some ch => plain ch && bool_decide (find_row (String ch "") = r)
                             && bool_decide (str_index row_letters r = Some ch)
                | None => false
                end) (range 0 26) = true.
Proof. vm_compute. reflexivity. Qed.

Lemma col_digit_check :
  forallb (λ k, match col_digit k with
                | Some ch => plain ch && bool_decide (find_col (String ch "") = k)
                             && bool_decide (str_index col_digits k = Some ch)
                | None => false
                end) (range 0 16) = true.
Proof. vm_compute. reflexivity. Qed.

Lemma row_letter_facts r :
  0 ≤ r < 26 →
  ∃ ch, str_index row_letters r = Some ch ∧ plain ch = true ∧ find_row (String ch "") = r.
Proof.
  intros Hr. pose proof row_letter_check as H. rewrite forallb_forall in H.
  specialize (H r). rewrite <- list_elem_of_In, elem_of_range in H. specialize (H Hr).
  destruct (row_letter r) as [ch|]; [|done]. exists ch.
  apply andb_true_iff in H as [[? ?%bool_decide_eq_true]%andb_true_iff ?%bool_decide_eq_true].
  done.
Qed.

Lemma col_digit_facts k :
  0 ≤ k < 16 →
  ∃ ch, str_index col_digits k = Some ch ∧ plain ch = true ∧ find_col (String ch "") = k.
Proof.
  intros Hk. pose proof col_digit_check as H. rewrite forallb_forall in H.
  specialize (H k). rewrite <- list_elem_of_In, elem_of_range in H. specialize (H Hk).
  destruct (col_digit k) as [ch|]; [|done]. exists ch.
  apply andb_true_iff in H as [[? ?%bool_decide_eq_true]%andb_true_iff ?%bool_decide_eq_true].
  done.
Qed.

Lemma Coord_to_string_nameable c :
  nameable c →
  ∃ r k, Coord_to_string c = Some (String r (String k "")) ∧
         plain r = true ∧ plain k = true ∧
         find_row (String r "") = row c ∧ find_col (String k "") = col c.
Proof.
  intros [Hr Hk].
  destruct (row_letter_facts _ Hr) as (r & Er & Pr & Fr).
  destruct (col_digit_facts _ Hk) as (k & Ek & Pk & Fk).
  exists r, k. split; [|done].
  unfold Coord_to_string, Coord_row_string, Coord_col_string.
  destruct (Z.ltb_spec (row c) 26); [|lia]. destruct (Z.ltb_spec (col c) 16); [|lia].
  rewrite Er, Ek. done.
Qed.

Lemma plain_not_space c : plain c = true → is_space c = false.
Proof. by intros [?%negb_true_iff _]%andb_true_iff. Qed.

Lemma plain_kept c sep : plain c = true → sep ∈ separators → Ascii.eqb c sep = false.
Proof.
  intros [_ H]%andb_true_iff Hin. rewrite forallb_forall in H.
  apply negb_true_iff, H, list_elem_of_In, Hin.
Qed.

Lemma str_remove_plain c sep s :
  plain c = true → sep ∈ separators →
  str_remove sep (String c s) = String c (str_remove sep s).
Proof. intros Hc Hs. simpl. by rewrite (plain_kept c sep Hc Hs). Qed.

Lemma foldl_remove_empty (l : list ascii) :
  foldl (λ s sep, str_remove sep s) "" l = "".
Proof. by induction l. Qed.

Lemma foldl_remove_cons c s (l : list ascii) :
  plain c = true → Forall (λ sep, sep ∈ separators) l →
  foldl (λ s sep, str_remove sep s) (String c s) l
  = String c (foldl (λ s sep, str_remove sep s) s l).
Proof.
  intros Hc. revert s. induction l as [|sep l IH]; intros s Hl; [done|].
  apply Forall_cons in Hl as [Hsep Hl]. simpl.
  rewrite (plain_kept c sep Hc Hsep). by apply IH.
Qed.

Lemma Forall_separators : Forall (λ sep, sep ∈ separators) separators.
Proof. by apply Forall_forall. Qed.

Lemma space_separator : " "%char ∈ separators.
Proof. apply elem_of_cons. by left. Qed.

Lemma clean_two a b :
  plain a = true → plain b = true →
  clean (String a (String b "")) = String a (String b "").
Proof.
  intros Ha Hb. unfold clean, str_strip. cbn [str_lstrip].
  rewrite (plain_not_space a Ha). cbn [String.rev String.rev_app str_lstrip].
  rewrite (plain_not_space b Hb). cbn [String.rev String.rev_app].
  rewrite !foldl_remove_cons by auto using Forall_separators.
  by rewrite foldl_remove_empty.
Qed.

Lemma clean_pair a b c d :
  plain a = true → plain b = true → plain c = true → plain d = true →
  clean (String a (String b (String " " (String c (String d "")))))
  = String a (String b (String c (String d ""))).
Proof.
  intros Ha Hb Hc Hd. unfold clean, str_strip. cbn [str_lstrip].
  rewrite (plain_not_space a Ha). cbn [String.rev String.rev_app str_lstrip].
  rewrite (plain_not_space d Hd). cbn [String.rev String.rev_app].
  pose proof Forall_separators as Hs. pose proof space_separator as Hsp.
  change separators with (" "%char :: tail separators) in Hs |- * at 1.
  apply Forall_cons in Hs as [_ Hs]. cbn [foldl].
  rewrite !str_remove_plain by done.
  change (str_remove " " (String " " (String c (String d ""))))
    with (str_remove " " (String c (String d ""))).
  rewrite !str_remove_plain by done. cbn [str_remove].
  rewrite !foldl_remove_cons by done.
  by rewrite foldl_remove_empty.
Qed.

Lemma find_pair a b c d :
  let s := String a (String b (String c (String d ""))) in
  (String.length s =? 4)%nat = true ∧
  String.substring 0 1 s = String a "" ∧ String.substring 1 1 s = String b "" ∧
  String.substring 2 1 s = String c "" ∧ String.substring 3 1 s = String d "".
Proof. done. Qed.

(** X19.  A coordinate in rows A to Z and columns 0 to f is read back
    from its own text: [Coord.from_string(c.to_string())] is [c]. *)
Theorem Coord_string_round_trip c :
  nameable c →
  ∃ s, Coord_to_string c = Some s ∧ Coord_from_string s = Some c.
Proof.
  intros (r & k & Es & Pr & Pk & Fr & Fk)%Coord_to_string_nameable.
  eexists. split; [exact Es|].
  unfold Coord_from_string. rewrite clean_two by done. cbn [String.length Nat.eqb].
  cbn [String.substring]. rewrite Fr, Fk. by destruct c.
Qed.

(** X20.  A pair of such coordinates is read back from its own text:
    [CoordPair.from_string(p.to_string())] is [p]. *)
Theorem CoordPair_string_round_trip p :
  nameable (src p) → nameable (dst p) →
  ∃ s, CoordPair_to_string p = Some s ∧ CoordPair_from_string s = Some p.
Proof.
  intros (a & b & Es & Pa & Pb & Fa & Fb)%Coord_to_string_nameable
         (c & d & Ed & Pc & Pd & Fc & Fd)%Coord_to_string_nameable.
  unfold CoordPair_to_string. rewrite Es, Ed. eexists. split; [done|].
  unfold CoordPair_from_string.
  change (String a (String b "") +:+ " " +:+ String c (String d ""))
    with (String a (String b (String " " (String c (String d ""))))).
  rewrite clean_pair by done. cbn [String.length Nat.eqb String.substring].
  rewrite Fa, Fb, Fc, Fd. by destruct p as [[] []].
Qed.

Lemma substring_one k s :
  String.substring k 1 s = "" ∨ ∃ c, String.substring k 1 s = String c "".
Proof.
  revert k. induction s as [|a s IH]; intros [|k]; simpl; eauto.
  destruct s; simpl; eauto.
Qed.

Lemma find_row_one c : -1 ≤ find_row (String c "") ≤ 25.
Proof. destruct c as [[] [] [] [] [] [] [] []]; vm_compute; split; discriminate. Qed.

Lemma find_col_one c : -1 ≤ find_col (String c "") ≤ 15.
Proof. destruct c as [[] [] [] [] [] [] [] []]; vm_compute; split; discriminate. Qed.

Lemma find_row_range k s : -1 ≤ find_row (String.substring k 1 s) ≤ 25.
Proof.
  destruct (substring_one k s) as [->|[c ->]]; [vm_compute; split; discriminate|].
  apply find_row_one.
Qed.

Lemma find_col_range k s : -1 ≤ find_col (String.substring k 1 s) ≤ 15.
Proof.
  destruct (substring_one k s) as [->|[c ->]]; [vm_compute; split; discriminate|].
  apply find_col_one.
Qed.

Lemma CoordPair_from_string_range s p :
  CoordPair_from_string s = Some p →
  (-1 ≤ row (src p) ≤ 25 ∧ -1 ≤ col (src p) ≤ 15) ∧
  (-1 ≤ row (dst p) ≤ 25 ∧ -1 ≤ col (dst p) ≤ 15).
Proof.
  unfold CoordPair_from_string. case_match; [|done]. intros [= <-]. cbn [src dst row col].
  auto using find_row_range, find_col_range.
Qed.

(** X21.  The two [from_string] never raise and never check the board:
    a text is accepted exactly when stripping it and dropping the
    separators leaves 2 characters (4 for a pair), and each character is
    looked up on its own, so every row read lies between -1 and 25 and
    every column between -1 and 15, -1 standing for a character that is
    no row letter or no column digit. *)
Theorem from_string_range s :
  (is_Some (Coord_from_string s) ↔ String.length (clean s) = 2%nat)
  ∧ (is_Some (CoordPair_from_string s) ↔ String.length (clean s) = 4%nat)
  ∧ (∀ c, Coord_from_string s = Some c → -1 ≤ row c ≤ 25 ∧ -1 ≤ col c ≤ 15)
  ∧ (∀ p, CoordPair_from_string s = Some p →
          (-1 ≤ row (src p) ≤ 25 ∧ -1 ≤ col (src p) ≤ 15) ∧
          (-1 ≤ row (dst p) ≤ 25 ∧ -1 ≤ col (dst p) ≤ 15)).
Proof.
  split; [|split; [|split]].
  - unfold Coord_from_string.
    destruct (Nat.eqb_spec (String.length (clean s)) 2); split; try done; by intros [? ?].
  - unfold CoordPair_from_string.
    destruct (Nat.eqb_spec (String.length (clean s)) 4); split; try done; by intros [? ?].
  - unfold Coord_from_string. intros c. case_match; [|done]. intros [= <-]. cbn [row col].
    auto using find_row_range, find_col_range.
  - apply CoordPair_from_string_range.
Qed.

(** ** Units as text *)

Lemma Unit_to_string_letters u :
  Unit_to_string u
  = String (player_letter (player u)) (String (type_letter (type u)) (pretty (health u))).
Proof. by destruct u as [[] [] h]. Qed.

Lemma player_letter_inj : Inj (=) (=) player_letter.
Proof. by intros [] []. Qed.

Lemma type_letter_inj : Inj (=) (=) type_letter.
Proof. by intros [] []. Qed.

Lemma Unit_to_string_inj : Inj (=) (=) Unit_to_string.
Proof.
  intros [p1 t1 h1] [p2 t2 h2]. rewrite !Unit_to_string_letters. cbn [player type health].
  intros [= Hp%player_letter_inj Ht%type_letter_inj Hh%(inj pretty)]. congruence.
Qed.

Lemma pretty_digit h : 0 ≤ h ≤ 9 → String.length (pretty h) = 1%nat.
Proof.
  intros Hh.
  assert (h ∈ range 0 10) as Hin by (apply elem_of_range; lia).
  revert Hin. generalize h. apply Forall_forall. vm_compute.
  repeat constructor.
Qed.

Lemma Unit_text_three u :
  0 ≤ health u ≤ 9 →
  String.length (Unit_to_string u) = 3%nat
  ∧ center3 (Unit_to_string u) = Unit_to_string u.
Proof.
  intros Hh. rewrite Unit_to_string_letters.
  pose proof (pretty_digit _ Hh) as Hl.
  unfold center3. cbn [String.length]. rewrite Hl. split; [done|].
  cbn. destruct (pretty (health u)) as [|c [|]]; done.
Qed.

(** X22.  [Unit.to_string] tells units apart: two units with the same
    text have the same player, type and health.  The text is 3
    characters long when the health is a single digit, which is what
    keeps the columns of the printed board aligned. *)
Theorem Unit_to_string_spec u1 u2 :
  (Unit_to_string u1 = Unit_to_string u2 → u1 = u2)
  ∧ (0 ≤ health u1 ≤ 9 → String.length (Unit_to_string u1) = 3%nat
                          ∧ center3 (Unit_to_string u1) = Unit_to_string u1).
Proof. split; [apply Unit_to_string_inj|apply Unit_text_three]. Qed.

(** ** The report after a shallow search *)

(** X23.  With [max_depth] 0 the report of [suggest_move] always fails:
    whatever the position and the counters, a call that returns within
    the time budget raises ([IndexError], the mapping of counts has no
    last key) instead of answering. *)
Theorem suggest_move_depth_zero_raises g elapsed_seconds st :
  max_depth (options g) = 0%nat → in_time g elapsed_seconds →
  suggest_move g elapsed_seconds st = None.
Proof.
  intros Hd Ht. unfold suggest_move, in_time in *. rewrite Hd. cbn [minimax mbind option_bind].
  rewrite Ht. cbn [negb].
  unfold get_cumulative_evals, get_cumulative_evals_by_depth, sort_map. cbn [options].
  rewrite Hd. done.
Qed.

Lemma one_level_count n st :
  one_level n st → one_level (n + 1) (count_leaf (count_eval 1 st)).
Proof.
  intros (Hn & Hl & Hm). unfold one_level, count_leaf, count_eval.
  cbn [nb_of_leaf_nodes evals_map]. rewrite Hl, Hm.
  split; [lia|]. split; [done|].
  destruct (Z.eqb_spec (n + 1) 0); [lia|].
  destruct (Z.eqb_spec n 0) as [->|Hne].
  - by rewrite lookup_empty, insert_empty.
  - by rewrite lookup_singleton_eq, insert_singleton_eq.
Qed.

Lemma max_loop_one_level s g mp ms : ∀ e bm a b st n r,
  (∀ m, m ∈ ms → is_Some (child g m)) →
  one_level n st →
  max_loop (λ temp a b st, minimax s temp 0 false mp a b st) g 1 ms e bm a b st = Some r →
  ∃ n', one_level n' (snd r).
Proof.
  induction ms as [|m ms IH]; intros e bm a b st n r Hch Hst.
  { intros [= <-]. by exists n. }
  destruct (Hch m) as [c Hc]; [apply elem_of_cons; by left|].
  erewrite max_loop_visit by (done || reflexivity).
  assert (∀ m, m ∈ ms → is_Some (child g m)) as Hch'.
  { intros x Hx. apply Hch, elem_of_cons. by right. }
  pose proof (one_level_count _ _ Hst) as Hst'.
  repeat case_match; first [intros [= <-]; by eexists | by eapply IH].
Qed.

Lemma report_one_level g n st :
  max_depth (options g) = 1%nat → one_level n st →
  (_ ← get_cumulative_evals g st; _ ← get_cumulative_evals_by_depth g st;
   _ ← get_cumulative_perc_evals g st; get_avg_branching_factor g st) = None.
Proof.
  intros Hd (Hn & Hl & Hm).
  unfold get_cumulative_evals, get_cumulative_evals_by_depth, get_cumulative_perc_evals,
    get_avg_branching_factor, get_cumulative_evals, sort_map.
  rewrite Hd, Hm, Hl. cbn [seq Nat.add Nat.sub mapM].
  destruct (Z.eqb_spec n 0) as [->|Hne].
  - rewrite lookup_empty. reflexivity.
  - rewrite lookup_singleton_eq. cbn.
    replace (0 + n - n) with 0 by lia. change (0 =? 0) with true.
    by destruct (0 + n =? 0).
Qed.

Lemma report_no_counts g st :
  max_depth (options g) = 1%nat → evals_map st = ∅ →
  get_cumulative_evals g st = None.
Proof.
  intros Hd Hm. unfold get_cumulative_evals, sort_map. rewrite Hd, Hm.
  cbn [seq Nat.add Nat.sub mapM]. by rewrite lookup_empty.
Qed.

(** X24.  With [max_depth] 1 the first call of [suggest_move] always
    fails: starting from empty counters, on every position, a call that
    returns within the time budget raises instead of answering
    ([ZeroDivisionError] in the branching factor, every node counted
    being a leaf, or [KeyError] when nothing was counted). *)
Theorem suggest_move_depth_one_raises g elapsed_seconds :
  max_depth (options g) = 1%nat → in_time g elapsed_seconds →
  suggest_move g elapsed_seconds no_stats = None.
Proof.
  intros Hd Ht. unfold suggest_move, in_time in *. rewrite Hd.
  destruct (minimax g g 1 true (next_player g) MIN_HEURISTIC_SCORE MAX_HEURISTIC_SCORE
              no_stats) as [[[v mv] st]|] eqn:Hm; [|done].
  cbn [mbind option_bind]. rewrite Ht. cbn [negb].
  set (g' := mkGame _ _ _ _ _ _ _).
  assert (max_depth (options g') = 1%nat) as Hd' by done.
  cbn [minimax] in Hm. destruct (has_winner g).
  { injection Hm as _ _ <-. by rewrite report_no_counts. }
  apply (max_loop_one_level g g (next_player g) (move_candidates g) _ _ _ _ _ 0) in Hm
    as [n Hn]; [| apply child_candidate | by repeat split].
  pose proof (report_one_level g' n st Hd' Hn) as Hrep. cbn [snd] in Hn.
  destruct (get_cumulative_evals g' st); [|done].
  destruct (get_cumulative_evals_by_depth g' st); [|done].
  destruct (get_cumulative_perc_evals g' st); [|done].
  cbn [mbind option_bind] in *. by rewrite Hrep.
Qed.

(** ** The computer's turn *)

Lemma Coord_row_string_Some c : 0 ≤ row c → is_Some (Coord_row_string c).
Proof.
  intros Hr. unfold Coord_row_string. destruct (Z.ltb_spec (row c) 26); [|done].
  destruct (row_letter_facts (row c)) as (ch & -> & _); [lia|]. done.
Qed.

Lemma Coord_col_string_Some c : 0 ≤ col c → is_Some (Coord_col_string c).
Proof.
  intros Hk. unfold Coord_col_string. destruct (Z.ltb_spec (col c) 16); [|done].
  destruct (col_digit_facts (col c)) as (ch & -> & _); [lia|]. done.
Qed.

Lemma Coord_to_string_valid g c : is_valid_coord g c = true → is_Some (Coord_to_string c).
Proof.
  intros [Hr Hk]%is_valid_coord_true. unfold Coord_to_string.
  destruct (Coord_row_string_Some c) as [r ->]; [lia|].
  destruct (Coord_col_string_Some c) as [k ->]; [lia|]. done.
Qed.

Lemma turn_text_valid g verb mv tail :
  is_valid_coord g (src mv) = true → is_valid_coord g (dst mv) = true →
  is_Some (turn_text verb mv tail).
Proof.
  intros [s Hs]%Coord_to_string_valid [d Hd]%Coord_to_string_valid.
  unfold turn_text. rewrite Hs, Hd. done.
Qed.

Lemma candidate_valid g m :
  m ∈ move_candidates g →
  is_valid_coord g (src m) = true ∧ is_valid_coord g (dst m) = true.
Proof.
  intros (u & Hu & _ & H)%elem_of_move_candidates.
  pose proof (get_Some_valid _ _ _ Hu) as Hs. split; [done|].
  destruct H as [[_ [Hm|[Ha|Hr]]]|Hd]; [| | |by rewrite Hd].
  - by apply is_valid_move_conditions in Hm as (_ & ?%in_bounds_valid & _).
  - unfold is_valid_to_attack in Ha. rewrite Hu in Ha.
    destruct (get g (dst m)) eqn:E; [|done]. by eapply get_Some_valid.
  - unfold is_valid_to_repair in Hr. rewrite Hu in Hr.
    destruct (get g (dst m)) eqn:E; [|done]. by eapply get_Some_valid.
Qed.

Lemma suggest_move_position g elapsed_seconds st g' mv st' :
  suggest_move g elapsed_seconds st = Some (g', mv, st') →
  same_position g g' ∧
  ∀ m, mv = Some m → m ∈ move_candidates g.
Proof.
  unfold suggest_move.
  destruct (minimax g g (max_depth (options g)) true (next_player g) MIN_HEURISTIC_SCORE
              MAX_HEURISTIC_SCORE st) as [[[v mv0] st0]|] eqn:Hm; [|done].
  cbn [mbind option_bind]. destruct (negb _).
  { intros [= <- <- <-]. split; [by repeat split|done]. }
  destruct (get_cumulative_evals _ st0); [|done].
  destruct (get_cumulative_evals_by_depth _ st0); [|done].
  destruct (get_cumulative_perc_evals _ st0); [|done].
  destruct (get_avg_branching_factor _ st0); [|done].
  cbn [mbind option_bind]. intros [= <- <- <-]. split; [by repeat split|].
  intros m ->. by apply minimax_move in Hm as (_ & _ & ? & _).
Qed.

(** The actions do not read the statistics and carry them along. *)
Lemma set_with_stats g s c u : set (with_stats g s) c u = with_stats (set g c u) s.
Proof. unfold set. change (is_valid_coord (with_stats g s) c) with (is_valid_coord g c).
  by destruct (is_valid_coord g c). Qed.

Lemma remove_dead_with_stats g s c :
  remove_dead (with_stats g s) c = with_stats (remove_dead g c) s.
Proof.
  unfold remove_dead. change (get (with_stats g s) c) with (get g c).
  destruct (get g c) as [u|]; [|done]. destruct (negb _); [|done].
  rewrite set_with_stats. by repeat case_decide.
Qed.

Lemma mod_health_with_stats g s c delta :
  mod_health (with_stats g s) c delta = with_stats (mod_health g c delta) s.
Proof.
  unfold mod_health. change (get (with_stats g s) c) with (get g c).
  destruct (get g c) as [u|]; [|done].
  by rewrite set_with_stats, remove_dead_with_stats.
Qed.

Lemma foldl_mod_health_with_stats g s delta l :
  foldl (λ g coord, mod_health g coord delta) (with_stats g s) l
  = with_stats (foldl (λ g coord, mod_health g coord delta) g l) s.
Proof.
  revert g. induction l as [|c l IH]; intros g; [done|].
  cbn [foldl]. by rewrite mod_health_with_stats, IH.
Qed.

Lemma perform_move_with_stats g s m :
  perform_move (with_stats g s) m
  = (λ x, (with_stats (fst x) s, snd x)) <$> perform_move g m.
Proof.
  unfold perform_move.
  change (is_valid_move (with_stats g s) m) with (is_valid_move g m).
  change (is_valid_to_attack (with_stats g s) m) with (is_valid_to_attack g m).
  change (is_valid_to_repair (with_stats g s) m) with (is_valid_to_repair g m).
  change (is_valid_to_self_destruct (with_stats g s) m) with (is_valid_to_self_destruct g m).
  destruct (is_valid_move g m).
  { change (get (with_stats g s) (src m)) with (get g (src m)).
    by rewrite !set_with_stats. }
  destruct (is_valid_to_attack g m).
  { unfold attack. change (get (with_stats g s)) with (get g).
    destruct (get g (src m)) as [su|]; [|done].
    destruct (get g (dst m)) as [du|]; [|done].
    cbn [mbind option_bind fmap option_fmap option_map fst snd].
    by rewrite !mod_health_with_stats. }
  destruct (is_valid_to_repair g m).
  { unfold repair. change (get (with_stats g s)) with (get g).
    destruct (get g (src m)) as [su|]; [|done].
    destruct (get g (dst m)) as [du|]; [|done].
    cbn [mbind option_bind fmap option_fmap option_map fst snd].
    by rewrite !mod_health_with_stats. }
  destruct (is_valid_to_self_destruct g m); [|done].
  unfold self_destruct. change (get (with_stats g s)) with (get g).
  destruct (get g (src m)) as [su|]; [|done].
  cbn [mbind option_bind fmap option_fmap option_map fst snd].
  by rewrite mod_health_with_stats, foldl_mod_health_with_stats.
Qed.

Lemma same_position_with_stats g g' :
  same_position g g' → g' = with_stats g (stats g').
Proof.
  destruct g, g'. unfold same_position, with_stats. cbn.
  by intros (-> & -> & -> & -> & -> & ->).
Qed.

(** X25.  [computer_turn] plays what it returns: a move it returns is a
    candidate of the position it was called on, and the game is left as
    [perform_move] of that move leaves it (board and AI flags), the turn
    passed to the other player; when it returns no move the position is
    untouched. *)
Theorem computer_turn_plays g elapsed_seconds st g' mv st' :
  computer_turn g elapsed_seconds st = Some (g', mv, st') →
  match mv with
  | Some m => m ∈ move_candidates g ∧ turn_passed g g' ∧
              options g' = options g ∧ (wf_game g → wf_game g') ∧
              ∃ g2 tag, perform_move g m = Some (g2, (true, tag)) ∧
                        board g' = board g2 ∧ ∀ p, has_ai g' p = has_ai g2 p
  | None => same_position g g'
  end.
Proof.
  unfold computer_turn.
  destruct (suggest_move g elapsed_seconds st) as [[[g1 mv1] st1]|] eqn:Hs; [|done].
  apply suggest_move_position in Hs as [Hpos Hmv].
  pose proof (same_position_with_stats _ _ Hpos) as Hg1.
  destruct Hpos as (Hb & Hn & Ht & Ho & Ha & Hd).
  cbn [mbind option_bind]. destruct mv1 as [m|]; [|by intros [= <- <- <-]].
  specialize (Hmv m eq_refl).
  destruct (candidate_performed g m Hmv) as (g2 & tag & Hp).
  pose proof (perform_move_with_stats g (stats g1) m) as Hp1.
  rewrite <- Hg1, Hp in Hp1. cbn [fmap option_fmap option_map fst snd] in Hp1.
  rewrite Hp1. cbn [mbind option_bind].
  destruct (candidate_valid g m Hmv) as [Hvs Hvd].
  destruct (turn_text_valid g (tag +:+ " from ") m newline Hvs Hvd) as [text ->].
  cbn [mbind option_bind]. intros [= <- <- <-].
  destruct (same_turn_perform_move _ _ _ _ Hp) as (Hn2 & Ht2 & Ho2 & _ & Hwf & _).
  split; [done|]. split; [|split; [|split]].
  - unfold turn_passed, next_turn. cbn [turns_played next_player with_stats].
    by rewrite Hn2, Ht2.
  - done.
  - intros Hw. apply Hwf in Hw. unfold wf_game in *. exact Hw.
  - exists g2, tag. split; [done|]. split; [done|]. by intros [].
Qed.

(** ** The keyboard *)

Lemma read_move_returns g inputs mv rest :
  read_move g inputs = Returns mv rest →
  ∃ skipped s,
    inputs = skipped ++ s :: rest ∧ CoordPair_from_string s = Some mv ∧
    is_valid_coord g (src mv) = true ∧ is_valid_coord g (dst mv) = true ∧
    Forall (λ t, t ≠ "q"%string) (skipped ++ [s]).
Proof.
  induction inputs as [|s inputs IH]; [done|]. cbn [read_move].
  destruct (bool_decide (s = "q"%string)) eqn:Hq; [done|].
  apply bool_decide_eq_false in Hq.
  assert (read_move g inputs = Returns mv rest →
          ∃ skipped s0, s :: inputs = skipped ++ s0 :: rest ∧
            CoordPair_from_string s0 = Some mv ∧
            is_valid_coord g (src mv) = true ∧ is_valid_coord g (dst mv) = true ∧
            Forall (λ t, t ≠ "q"%string) (skipped ++ [s0])) as Hskip.
  { intros (skipped & s0 & -> & ? & ? & ? & ?)%IH.
    exists (s :: skipped), s0. repeat split; try done. by apply Forall_cons. }
  destruct (CoordPair_from_string s) as [coords|] eqn:E; [|done].
  destruct (is_valid_coord g (src coords) && is_valid_coord g (dst coords)) eqn:Hv; [|done].
  apply andb_true_iff in Hv as [? ?]. intros [= <- <-].
  exists [], s. repeat split; try done. by apply Forall_singleton.
Qed.

(** X26.  [read_move] returns the first line typed that parses to a
    pair with both ends on the board, skipping every other line; a line
    [q] before it ends the program instead.  What it returns is always
    on the board and within rows A to Z and columns 0 to f: on a board
    of more than 16 columns the cells beyond cannot be entered. *)
Theorem read_move_spec g inputs mv rest :
  read_move g inputs = Returns mv rest →
  typed_cell g (src mv) ∧ typed_cell g (dst mv) ∧
  ∃ skipped s,
    inputs = skipped ++ s :: rest ∧ CoordPair_from_string s = Some mv ∧
    Forall (λ t, t ≠ "q"%string) (skipped ++ [s]) ∧
    Forall (λ t, ∀ p, CoordPair_from_string t = Some p →
                      is_valid_coord g (src p) && is_valid_coord g (dst p) = false) skipped.
Proof.
  intros H. destruct (read_move_returns _ _ _ _ H) as (skipped & s & -> & Hs & Hvs & Hvd & Hq).
  destruct (CoordPair_from_string_range _ _ Hs) as [[? ?] [? ?]].
  split; [repeat split; first [done|lia]|]. split; [repeat split; first [done|lia]|].
  exists skipped, s. repeat split; try done.
  clear Hq. induction skipped as [|t skipped IH]; [done|].
  cbn [app read_move] in H. destruct (bool_decide (t = "q"%string)); [done|].
  destruct (CoordPair_from_string t) as [coords|] eqn:E.
  - destruct (is_valid_coord g (src coords) && is_valid_coord g (dst coords)) eqn:Hv.
    + injection H as _ Hrest. exfalso.
      apply (f_equal length) in Hrest. rewrite length_app in Hrest. simpl in Hrest. lia.
    + apply Forall_cons. split; [|by apply IH].
      intros p Hp. rewrite E in Hp. by injection Hp as <-.
  - apply Forall_cons. split; [|by apply IH].
    intros p Hp. by rewrite E in Hp.
Qed.

Lemma read_move_fuel g inputs : read_move g inputs ≠ OutOfFuel.
Proof. induction inputs as [|s inputs IH]; [done|]. simpl. by repeat case_match. Qed.

Lemma perform_move_tag g m g' success tag :
  perform_move g m = Some (g', (success, tag)) →
  if success
  then tag ∈ ["move"; "attack"; "repair"; "self-destruct"]%string
  else g' = g.
Proof.
  unfold perform_move.
  destruct (is_valid_move g m); [intros [= <- <- <-]; set_solver|].
  destruct (is_valid_to_attack g m).
  { destruct (attack g m); [|done]. intros [= <- <- <-]. set_solver. }
  destruct (is_valid_to_repair g m).
  { destruct (repair g m); [|done]. intros [= <- <- <-]. set_solver. }
  destruct (is_valid_to_self_destruct g m).
  { destruct (self_destruct g m); [|done]. intros [= <- <- <-]. set_solver. }
  by intros [= <- <- <-].
Qed.

Lemma perform_move_accepts g m g' success tag :
  is_valid_move g m = true → perform_move g m = Some (g', (success, tag)) →
  success = true.
Proof. unfold perform_move. intros ->. by intros [= _ <- _]. Qed.

(** X27.  With no broker configured, the keyboard loop of [human_turn]
    runs once and never raises: it stops with [read_move] when the
    player quits or the input ends, and otherwise hands the move read
    to [perform_move] and returns.  The turn passes exactly when the
    move was accepted; a refused move leaves the game as it was, the
    same player to move. *)
Theorem human_turn_spec fuel g inputs :
  broker (options g) = None →
  match read_move g inputs with
  | Returns mv rest =>
      ∃ g1 success tag text,
        perform_move g mv = Some (g1, (success, tag)) ∧
        human_turn (S fuel) g inputs
        = Some (Returns (if success then next_turn g1 else g, text) rest)
  | Exits => human_turn (S fuel) g inputs = Some Exits
  | EndOfInput => human_turn (S fuel) g inputs = Some EndOfInput
  | OutOfFuel => False
  end.
Proof.
  intros _.
  cbn [human_turn]. destruct (read_move g inputs) as [mv rest| | |] eqn:Hread; try done.
  - apply read_move_returns in Hread as (_ & _ & _ & _ & Hvs & Hvd & _).
    destruct (perform_move_total g mv) as [[g1 [success tag]] Hp].
    exists g1, success, tag. rewrite Hp. cbn [mbind option_bind].
    pose proof (perform_move_tag _ _ _ _ _ Hp) as Htag.
    assert (∀ verb tail, ∃ text, turn_text verb mv tail = Some text) as Htext.
    { intros verb tail. by destruct (turn_text_valid g verb mv tail Hvs Hvd) as [text ->];
        [exists text]. }
    destruct success.
    + rewrite !elem_of_cons, elem_of_nil in Htag.
      destruct Htag as [->|[->|[->|[->|[]]]]]; simpl;
        match goal with |- context [turn_text ?v mv ?t] =>
          destruct (Htext v t) as [text ->] end; by exists text.
    + subst g1. destruct (Htext " move from "%string
                            ". The move is not valid! Try again."%string) as [text ->].
      by exists text.
  - by apply read_move_fuel in Hread.
Qed.

(** ** Strings *)

Lemma str_app_cons c (s1 s2 : string) : String c s1 +:+ s2 = String c (s1 +:+ s2).
Proof. reflexivity. Qed.

Lemma str_app_assoc (s1 s2 s3 : string) : (s1 +:+ s2) +:+ s3 = s1 +:+ s2 +:+ s3.
Proof. induction s1 as [|c s1 IH]; [done|]. rewrite !str_app_cons. by rewrite IH. Qed.

Lemma str_length_app (s1 s2 : string) :
  String.length (s1 +:+ s2) = (String.length s1 + String.length s2)%nat.
Proof.
  induction s1 as [|c s1 IH]; [done|]. rewrite str_app_cons. cbn [String.length].
  by rewrite IH.
Qed.

Lemma str_app_inv (s1 s2 r1 r2 : string) :
  String.length s1 = String.length s2 → s1 +:+ r1 = s2 +:+ r2 → s1 = s2 ∧ r1 = r2.
Proof.
  revert s2. induction s1 as [|c s1 IH]; intros [|c' s2]; try done.
  rewrite !str_app_cons. cbn [String.length]. intros [= Hl] [= -> H].
  destruct (IH _ Hl H) as [-> ->]. done.
Qed.

Lemma str_app_inv_r (s1 s2 r1 r2 : string) :
  String.length r1 = String.length r2 → s1 +:+ r1 = s2 +:+ r2 → s1 = s2 ∧ r1 = r2.
Proof.
  intros Hr H. apply str_app_inv; [|done].
  apply (f_equal String.length) in H. rewrite !str_length_app in H. lia.
Qed.

Lemma str_concat_cons s l : str_concat (s :: l) = s +:+ str_concat l.
Proof. done. Qed.

Lemma str_concat_length {A} (f : A → string) n (l : list A) :
  (∀ x, x ∈ l → String.length (f x) = n) →
  String.length (str_concat (f <$> l)) = (length l * n)%nat.
Proof.
  induction l as [|x l IH]; intros Hl; [done|].
  rewrite fmap_cons, str_concat_cons, str_length_app, IH, Hl.
  - simpl. lia.
  - apply elem_of_cons. by left.
  - intros y Hy. apply Hl, elem_of_cons. by right.
Qed.

Lemma str_concat_inj {A} (f1 f2 : A → string) (l : list A) :
  (∀ x, x ∈ l → String.length (f1 x) = String.length (f2 x)) →
  str_concat (f1 <$> l) = str_concat (f2 <$> l) →
  ∀ x, x ∈ l → f1 x = f2 x.
Proof.
  induction l as [|y l IH]; intros Hl H x Hx; [by apply elem_of_nil in Hx|].
  rewrite !fmap_cons, !str_concat_cons in H.
  apply str_app_inv in H as [Hy Hrest]; [|apply Hl, elem_of_cons; by left].
  apply elem_of_cons in Hx as [->|Hx]; [done|].
  apply IH; [|done..]. intros z Hz. apply Hl, elem_of_cons. by right.
Qed.

Lemma mapM_fmap_total {A B} (f : A → option B) (h : A → B) (l : list A) :
  (∀ x, x ∈ l → f x = Some (h x)) → mapM f l = Some (h <$> l).
Proof.
  intros Hl. apply mapM_Some_2. induction l as [|x l IH]; [constructor|].
  rewrite fmap_cons. constructor.
  - apply Hl, elem_of_cons. by left.
  - apply IH. intros y Hy. apply Hl, elem_of_cons. by right.
Qed.

(** ** The printed game, part by part *)

Lemma col_label_Some k : 0 ≤ k → Coord_col_string (mkCoord 0 k) = Some (col_label k).
Proof.
  intros Hk. unfold col_label.
  by destruct (Coord_col_string_Some (mkCoord 0 k) Hk) as [s ->].
Qed.

Lemma row_label_Some r k : 0 ≤ r → Coord_row_string (mkCoord r k) = Some (row_label r).
Proof.
  intros Hr. unfold row_label.
  change (Coord_row_string (mkCoord r k)) with (Coord_row_string (mkCoord r 0)).
  by destruct (Coord_row_string_Some (mkCoord r 0) Hr) as [s ->].
Qed.

Lemma row_label_length r : 0 ≤ r → String.length (row_label r) = 1%nat.
Proof.
  intros Hr. unfold row_label, Coord_row_string. cbn [row].
  destruct (Z.ltb_spec r 26); [|done].
  by destruct (row_letter_facts r) as (ch & -> & _); [lia|].
Qed.

Lemma col_label_length k : 0 ≤ k → String.length (col_label k) = 1%nat.
Proof.
  intros Hk. unfold col_label, Coord_col_string. cbn [col].
  destruct (Z.ltb_spec k 16); [|done].
  by destruct (col_digit_facts k) as (ch & -> & _); [lia|].
Qed.

Lemma Game_to_string_parts g :
  Game_to_string g
  = Some (turn_lines g +:+ label_line (dim (options g)) +:+ row_lines g).
Proof.
  unfold Game_to_string.
  rewrite (mapM_fmap_total
             (λ col, label ← Coord_col_string (mkCoord 0 col); Some (center3 label +:+ " "))
             (λ k, center3 (col_label k) +:+ " ")).
  2: { intros k [Hk _]%elem_of_range. cbv beta. by rewrite col_label_Some. }
  cbn [mbind option_bind].
  rewrite (mapM_fmap_total _ (row_line g)).
  2: { intros r [Hr _]%elem_of_range. cbv beta. by rewrite row_label_Some. }
  cbn [mbind option_bind]. f_equal.
  unfold turn_lines, label_line, row_lines. by rewrite !str_app_assoc.
Qed.

Lemma cell_text_length g c :
  units_healthy g → String.length (cell_text (get g c)) = 4%nat.
Proof.
  intros Hh. destruct (get g c) as [u|] eqn:E; [|done]. cbn [cell_text].
  destruct (Unit_text_three u) as [Hl ->]; [specialize (Hh _ _ E); lia|].
  by rewrite str_length_app, Hl.
Qed.

Lemma cell_text_inj g1 g2 c1 c2 :
  units_healthy g1 → units_healthy g2 →
  cell_text (get g1 c1) = cell_text (get g2 c2) → get g1 c1 = get g2 c2.
Proof.
  intros H1 H2.
  destruct (get g1 c1) as [u1|] eqn:E1, (get g2 c2) as [u2|] eqn:E2; cbn [cell_text];
    try done.
  - destruct (Unit_text_three u1) as [L1 ->]; [specialize (H1 _ _ E1); lia|].
    destruct (Unit_text_three u2) as [L2 ->]; [specialize (H2 _ _ E2); lia|].
    intros [Hu _]%str_app_inv; [|congruence]. by apply Unit_to_string_inj in Hu as ->.
  - destruct (Unit_text_three u1) as [_ ->]; [specialize (H1 _ _ E1); lia|].
    rewrite Unit_to_string_letters. by destruct (player u1).
  - destruct (Unit_text_three u2) as [_ ->]; [specialize (H2 _ _ E2); lia|].
    rewrite Unit_to_string_letters. by destruct (player u2).
Qed.

Lemma row_cells_length g r :
  units_healthy g →
  String.length (row_cells g r) = (Z.to_nat (dim (options g)) * 4)%nat.
Proof.
  intros Hh. unfold row_cells.
  rewrite (str_concat_length _ 4) by (intros; by apply cell_text_length).
  rewrite length_range. f_equal. lia.
Qed.

Lemma row_line_length g r :
  units_healthy g → 0 ≤ r →
  String.length (row_line g r) = (Z.to_nat (dim (options g)) * 4 + 4)%nat.
Proof.
  intros Hh Hr. unfold row_line.
  rewrite !str_length_app, row_label_length, row_cells_length by done. simpl. lia.
Qed.

Lemma row_lines_length g :
  units_healthy g →
  String.length (row_lines g)
  = (Z.to_nat (dim (options g)) * (Z.to_nat (dim (options g)) * 4 + 4))%nat.
Proof.
  intros Hh. unfold row_lines.
  rewrite (str_concat_length _ (Z.to_nat (dim (options g)) * 4 + 4)).
  - rewrite length_range. f_equal. lia.
  - intros r [Hr _]%elem_of_range. by apply row_line_length.
Qed.

Lemma label_line_length dim :
  String.length (label_line dim) = (6 + Z.to_nat dim * 4)%nat.
Proof.
  unfold label_line. rewrite !str_length_app.
  rewrite (str_concat_length _ 4).
  - rewrite length_range. replace (Z.to_nat (dim - 0)) with (Z.to_nat dim) by lia.
    simpl. lia.
  - intros k [Hk _]%elem_of_range. rewrite str_length_app.
    unfold center3. rewrite !str_length_app, col_label_length by done. done.
Qed.

Lemma turn_lines_length g :
  String.length (turn_lines g) = (36 + String.length (pretty (turns_played g)))%nat.
Proof.
  unfold turn_lines. rewrite !str_length_app. by destruct (next_player g).
Qed.

Lemma turn_lines_inj g1 g2 :
  turn_lines g1 = turn_lines g2 →
  next_player g1 = next_player g2 ∧ turns_played g1 = turns_played g2.
Proof.
  unfold turn_lines. intros [_ H]%str_app_inv; [|done].
  apply str_app_inv in H as [Hp H]; [|by destruct (next_player g1), (next_player g2)].
  apply str_app_inv in H as [_ H]; [|done].
  apply str_app_inv in H as [_ H]; [|done].
  apply (inj pretty) in H. split; [|done].
  by destruct (next_player g1), (next_player g2).
Qed.

(** X28.  [Game.to_string] never raises, whatever the dimension of the
    board: a column past the 16th or a row past the 26th is labelled
    [?].  While every unit has a single-digit health each cell is
    printed on 4 characters, so the grid is aligned and the length of
    the text is fixed by the dimension and the number of digits of the
    turn counter. *)
Theorem Game_to_string_total g :
  ∃ text, Game_to_string g = Some text ∧
    (units_healthy g →
     let d := Z.to_nat (dim (options g)) in
     String.length text
     = (42 + String.length (pretty (turns_played g)) + 4 * d + d * (4 * d + 4))%nat).
Proof.
  eexists. split; [apply Game_to_string_parts|].
  intros Hh d. rewrite !str_length_app, turn_lines_length, label_line_length,
    row_lines_length by done. fold d. lia.
Qed.

(** ** The printed game shows the whole position *)

Lemma board_ext g1 g2 :
  wf_game g1 → wf_game g2 → dim (options g1) = dim (options g2) →
  (∀ c, is_valid_coord g1 c = true → get g1 c = get g2 c) →
  board g1 = board g2.
Proof.
  intros [L1 R1] [L2 R2] Hd Hget. rewrite <- Hd in *.
  set (d := dim (options g1)) in *.
  apply list_eq_same_length with (Z.to_nat d); [done..|].
  intros i r1 r2 Hi E1 E2.
  assert (length r1 = Z.to_nat d) as Lr1
    by (eapply (proj1 (Forall_forall _ _) R1), list_elem_of_lookup_2, E1).
  assert (length r2 = Z.to_nat d) as Lr2
    by (eapply (proj1 (Forall_forall _ _) R2), list_elem_of_lookup_2, E2).
  apply list_eq_same_length with (Z.to_nat d); [done..|].
  intros j o1 o2 Hj F1 F2.
  assert (is_valid_coord g1 (mkCoord (Z.of_nat i) (Z.of_nat j)) = true) as Hv.
  { apply is_valid_coord_true. simpl. fold d. lia. }
  specialize (Hget _ Hv). unfold get in Hget. rewrite Hv in Hget.
  assert (is_valid_coord g2 (mkCoord (Z.of_nat i) (Z.of_nat j)) = true) as Hv2.
  { apply is_valid_coord_true. simpl. rewrite <- Hd. fold d. lia. }
  rewrite Hv2 in Hget. unfold board_cell in Hget. simpl in Hget.
  rewrite !Nat2Z.id, E1, E2 in Hget. simpl in Hget. by rewrite F1, F2 in Hget.
Qed.

Lemma row_lines_inj g1 g2 :
  units_healthy g1 → units_healthy g2 → dim (options g1) = dim (options g2) →
  row_lines g1 = row_lines g2 →
  ∀ c, is_valid_coord g1 c = true → get g1 c = get g2 c.
Proof.
  intros H1 H2 Hd H c [Hr Hk]%is_valid_coord_true.
  unfold row_lines in H. rewrite <- Hd in H.
  assert (row_line g1 (row c) = row_line g2 (row c)) as Hrow.
  { apply (str_concat_inj _ _ _) with (x := row c) in H; [done| |by apply elem_of_range].
    intros r [? _]%elem_of_range. rewrite !row_line_length by done. by rewrite Hd. }
  unfold row_line in Hrow.
  apply str_app_inv in Hrow as [_ Hrow]; [|done].
  apply str_app_inv in Hrow as [_ Hrow]; [|done].
  apply str_app_inv_r in Hrow as [Hrow _]; [|done].
  unfold row_cells in Hrow. rewrite <- Hd in Hrow.
  assert (cell_text (get g1 (mkCoord (row c) (col c)))
          = cell_text (get g2 (mkCoord (row c) (col c)))) as Hcell.
  { apply (str_concat_inj (λ k, cell_text (get g1 (mkCoord (row c) k)))
             (λ k, cell_text (get g2 (mkCoord (row c) k))) _) with (x := col c) in Hrow;
      [done| |by apply elem_of_range].
    intros k _. cbv beta. by rewrite !cell_text_length. }
  apply cell_text_inj in Hcell; [|done..]. by destruct c.
Qed.

(** X29.  The printed game shows the whole position: two games on
    boards of the same dimension whose units all have a health from 1
    to 9 and whose texts are equal have the same board, the same
    player to move and the same number of turns played. *)
Theorem Game_to_string_shows_position g1 g2 :
  wf_game g1 → wf_game g2 → units_healthy g1 → units_healthy g2 →
  dim (options g1) = dim (options g2) →
  Game_to_string g1 = Game_to_string g2 →
  board g1 = board g2 ∧ next_player g1 = next_player g2
  ∧ turns_played g1 = turns_played g2.
Proof.
  intros W1 W2 H1 H2 Hd. rewrite !Game_to_string_parts. intros H. apply (inj Some) in H.
  rewrite <- Hd in H.
  assert (String.length (row_lines g1) = String.length (row_lines g2)) as Hl
    by (rewrite !row_lines_length by done; by rewrite Hd).
  apply str_app_inv_r in H as [Ht H]; [|by rewrite !str_length_app, Hl].
  apply str_app_inv in H as [_ Hrows]; [|done].
  apply turn_lines_inj in Ht as [? ?]. split; [|done].
  apply board_ext; [done..|]. by apply row_lines_inj.
Qed.

Lemma Zsum_Permutation {A} (f : A → Z) l k : l ≡ₚ k → Zsum f l = Zsum f k.
Proof.
  induction 1 as [|x l k _ IH|x y l|l k m _ IH1 _ IH2]; simpl; lia.
Qed.

Lemma count_if_Permutation {A} (P : A → bool) l k :
  l ≡ₚ k → count_if P l = count_if P k.
Proof. intros H. rewrite !count_if_Zsum. by apply Zsum_Permutation. Qed.

Lemma player_units_new_Game opts p :
  4 ≤ dim opts → player_units (new_Game opts) p ≡ₚ camp (dim opts - 1) p.
Proof.
  intros Hd. apply NoDup_Permutation.
  - apply NoDup_player_units.
  - destruct p; unfold camp;
      repeat (apply NoDup_cons; split;
              [rewrite ?elem_of_cons, elem_of_nil; intros H;
               repeat destruct H as [H|H]; try done; inversion H; lia|]);
      apply NoDup_nil_2.
  - intros [c u]. rewrite elem_of_player_units, get_new_Game by lia. cbv zeta.
    destruct p; unfold camp; rewrite !elem_of_cons, elem_of_nil; split.
    + repeat case_decide; intros [[= <-] Hp]; try done; subst; naive_solver.
    + intros H. repeat destruct H as [H|H]; try done; injection H as -> ->;
        (split; [|done]);
        repeat (rewrite decide_False by (intros [=]; lia));
        by rewrite decide_True by (f_equal; lia).
    + repeat case_decide; intros [[= <-] Hp]; try done; subst; naive_solver.
    + intros H. repeat destruct H as [H|H]; try done; injection H as -> ->;
        (split; [|done]);
        repeat (rewrite decide_False by (intros [=]; lia));
        by rewrite decide_True by (f_equal; lia).
Qed.

(** X30.  On a board of dimension 4 or more [__post_init__] lays out two
    camps that do not overlap: each player starts with exactly the six
    units of its camp, all at health 9, and heuristic e0 scores the
    opening position 0 for either player. *)
Theorem opening_position opts p :
  4 ≤ dim opts →
  player_units (new_Game opts) p ≡ₚ camp (dim opts - 1) p
  ∧ unit_count (new_Game opts) p = 6%nat
  ∧ (∀ c u, get (new_Game opts) c = Some u → health u = 9)
  ∧ heuristic_e0 (new_Game opts) p = 0.
Proof.
  intros Hd. split; [by apply player_units_new_Game|]. split; [|split].
  - unfold unit_count. rewrite (player_units_new_Game opts p Hd). by destruct p.
  - intros c u. rewrite get_new_Game by lia. cbv zeta.
    repeat case_decide; by intros [= <-].
  - unfold heuristic_e0. cbv zeta.
    rewrite !(count_if_Permutation _ _ _ (player_units_new_Game opts p Hd)).
    rewrite !(count_if_Permutation _ _ _
                (player_units_new_Game opts (opponent_of p) Hd)).
    by destruct p.
Qed.

(** ** The further properties at concrete positions *)

Lemma wf_game_opening : wf_game opening.
Proof. exact (wf_new_Game default_Options). Defined.

(** A Virus written to the empty centre of the opening board is read
    back there. *)
Lemma get_after_set_witness :
  wf_game opening ∧
  get (set opening (mkCoord 2 2) (Some (mkUnit Attacker Virus 9))) (mkCoord 2 2)
  = Some (mkUnit Attacker Virus 9).
Proof.
  split; [exact wf_game_opening|].
  exact (proj1 (get_after_set opening (mkCoord 2 2) (Some (mkUnit Attacker Virus 9))
                  (mkCoord 2 2) wf_game_opening)).
Defined.

(** On the 5 by 5 opening board the index pair (-1, -1) reads the
    Attacker's AI at E4, and row 5 raises. *)
Lemma is_empty_spec_witness :
  wf_game opening ∧
  is_empty opening (mkCoord (-1) (-1)) = Some false ∧
  is_empty opening (mkCoord 5 0) = None.
Proof.
  split; [exact wf_game_opening|]. split.
  - exact (is_empty_spec opening (mkCoord (-1) (-1)) wf_game_opening).
  - exact (is_empty_spec opening (mkCoord 5 0) wf_game_opening).
Defined.

(** The Virus dropped at C1 is engaged, and so is a Defender unit next
    to it. *)
Lemma engagement_mutual_witness :
  get skirmish (mkCoord 2 1) = Some (mkUnit Attacker Virus 9) ∧
  is_engaged_in_combat skirmish (mkCoord 2 1) = true ∧
  ∃ c' u', c' ∈ Coord_iter_adjacent (mkCoord 2 1) ∧ get skirmish c' = Some u' ∧
           player u' ≠ Attacker ∧ is_engaged_in_combat skirmish c' = true.
Proof.
  assert (H1 : get skirmish (mkCoord 2 1) = Some (mkUnit Attacker Virus 9))
    by (vm_compute; reflexivity).
  assert (H2 : is_engaged_in_combat skirmish (mkCoord 2 1) = true)
    by (vm_compute; reflexivity).
  split; [exact H1|]. split; [exact H2|].
  exact (engagement_mutual skirmish (mkCoord 2 1) (mkUnit Attacker Virus 9) H1 H2).
Defined.

(** At the opening position, the Attacker to move, the generator yields
    six pairs for the Defender. *)
Lemma get_moves_for_player_off_turn_witness :
  Defender ≠ next_player opening ∧
  length (get_moves_for_player opening Defender) = 6%nat.
Proof.
  assert (H : Defender ≠ next_player opening) by (vm_compute; discriminate).
  split; [exact H|].
  rewrite (proj1 (get_moves_for_player_off_turn opening Defender H)). vm_compute. reflexivity.
Defined.

Lemma virus_blast_candidate : virus_blast ∈ move_candidates opening.
Proof. refine (bool_decide_unpack _ _). vm_compute. exact I. Defined.

(** The self-destruction of the Virus is a candidate of the opening
    position and is performed. *)
Lemma move_candidates_performable_witness :
  virus_blast ∈ move_candidates opening ∧
  ∃ g' tag, perform_move opening virus_blast = Some (g', (true, tag)).
Proof.
  split; [exact virus_blast_candidate|].
  exact (move_candidates_performable opening virus_blast virus_blast_candidate).
Defined.

(** The self-destruction of the Virus leaves the turn with the
    Attacker. *)
Lemma perform_move_same_turn_witness :
  ∃ g' r, perform_move opening virus_blast = Some (g', r) ∧ same_turn opening g'.
Proof.
  destruct (perform_move opening virus_blast) as [[g' r]|] eqn:E;
    [|vm_compute in E; discriminate].
  exists g', r. split; [reflexivity|].
  exact (perform_move_same_turn opening virus_blast g' r E).
Defined.

(** The Program that steps up from C4 stands on B4 afterwards. *)
Lemma perform_move_relocates_witness :
  wf_game opening ∧ is_valid_move opening program_up = true ∧
  ∃ g', perform_move opening program_up = Some (g', (true, "move"%string)) ∧
        get g' (mkCoord 1 4) = Some (mkUnit Attacker Program 9) ∧
        get g' (mkCoord 2 4) = None.
Proof.
  assert (Hv : is_valid_move opening program_up = true) by (vm_compute; reflexivity).
  split; [exact wf_game_opening|]. split; [exact Hv|].
  destruct (perform_move_relocates opening program_up wf_game_opening Hv)
    as (g' & Hp & Hd & Hs & _).
  exists g'. split; [exact Hp|]. split; [exact Hd|exact Hs].
Defined.

(** After the self-destruction of the Virus the Attacker has at most
    its six units. *)
Lemma perform_move_unit_count_witness :
  wf_game opening ∧
  ∃ g' r, perform_move opening virus_blast = Some (g', r) ∧
          (unit_count g' Attacker ≤ unit_count opening Attacker)%nat.
Proof.
  split; [exact wf_game_opening|].
  destruct (perform_move opening virus_blast) as [[g' r]|] eqn:E;
    [|vm_compute in E; discriminate].
  exists g', r. split; [reflexivity|].
  exact (proj1 (perform_move_unit_count opening virus_blast g' r Attacker
                  wf_game_opening E)).
Defined.

(** The Defender has won; after one more action and turn it still has. *)
Lemma finished_stays_finished_witness :
  has_winner attacker_ai_lost = Some Defender ∧
  ∃ g' r, perform_move attacker_ai_lost virus_blast = Some (g', r) ∧
          has_winner (next_turn g') = Some Defender.
Proof.
  assert (Hw : has_winner attacker_ai_lost = Some Defender) by (vm_compute; reflexivity).
  split; [exact Hw|].
  destruct (perform_move attacker_ai_lost virus_blast) as [[g' r]|] eqn:E;
    [|vm_compute in E; discriminate].
  exists g', r. split; [reflexivity|].
  exact (proj2 (finished_stays_finished attacker_ai_lost virus_blast g' r E) Hw).
Defined.

(** The search of depth 1 from the opening position returns one of its
    candidates. *)
Lemma minimax_move_performable_witness :
  ∃ v m st', minimax opening opening 1 true Attacker MIN_HEURISTIC_SCORE
                     MAX_HEURISTIC_SCORE no_stats = Some (v, Some m, st') ∧
             m ∈ move_candidates opening.
Proof.
  destruct (minimax opening opening 1 true Attacker MIN_HEURISTIC_SCORE
              MAX_HEURISTIC_SCORE no_stats) as [[[v [m|]] st']|] eqn:E;
    [|vm_compute in E; discriminate..].
  exists v, m, st'. split; [reflexivity|].
  exact (proj1 (proj2 (proj2 (minimax_move_performable _ _ _ _ _ _ _ _ _ _ _ E)))).
Defined.

(** The opening position of the default game is reachable and has no
    winner: a search of depth 2 for the Attacker finds a move. *)
Lemma minimax_finds_move_witness :
  3 ≤ dim default_Options ≤ 447 ∧ reachable default_Options opening ∧
  has_winner opening = None ∧
  ∃ v m st', minimax opening opening 2 true Attacker MIN_HEURISTIC_SCORE
                     MAX_HEURISTIC_SCORE no_stats = Some (v, Some m, st')
             ∧ MIN_HEURISTIC_SCORE < v < MAX_HEURISTIC_SCORE.
Proof.
  assert (Hd : 3 ≤ dim default_Options ≤ 447) by (vm_compute; split; discriminate).
  assert (Hw : has_winner opening = None) by (vm_compute; reflexivity).
  split; [exact Hd|]. split; [exact (reachable_new default_Options)|].
  split; [exact Hw|].
  exact (minimax_finds_move default_Options opening opening 1 true Attacker
           MIN_HEURISTIC_SCORE MAX_HEURISTIC_SCORE no_stats Hd
           (reachable_new default_Options) Hw).
Defined.

Lemma nameable_D2 : nameable (mkCoord 3 2).
Proof. unfold nameable. simpl. lia. Defined.

Lemma nameable_E3 : nameable (mkCoord 4 3).
Proof. unfold nameable. simpl. lia. Defined.

(** The cell in row 3, column 2 is written D2 and read back. *)
Lemma Coord_string_round_trip_witness :
  nameable (mkCoord 3 2) ∧
  ∃ s, Coord_to_string (mkCoord 3 2) = Some s ∧ Coord_from_string s = Some (mkCoord 3 2).
Proof.
  split; [exact nameable_D2|].
  exact (Coord_string_round_trip (mkCoord 3 2) nameable_D2).
Defined.

(** The pair from E3 to D2 is written and read back. *)
Lemma CoordPair_string_round_trip_witness :
  nameable (mkCoord 4 3) ∧ nameable (mkCoord 3 2) ∧
  ∃ s, CoordPair_to_string (mkCoordPair (mkCoord 4 3) (mkCoord 3 2)) = Some s ∧
       CoordPair_from_string s = Some (mkCoordPair (mkCoord 4 3) (mkCoord 3 2)).
Proof.
  split; [exact nameable_E3|]. split; [exact nameable_D2|].
  exact (CoordPair_string_round_trip (mkCoordPair (mkCoord 4 3) (mkCoord 3 2))
           nameable_E3 nameable_D2).
Defined.

(** At depth 0, one second into a budget of five, the call raises. *)
Lemma suggest_move_depth_zero_raises_witness :
  max_depth (options (opening_at_depth 0)) = 0%nat ∧
  in_time (opening_at_depth 0) (1 # 1) ∧
  suggest_move (opening_at_depth 0) (1 # 1) stats_after_first_search = None.
Proof.
  assert (Hd : max_depth (options (opening_at_depth 0)) = 0%nat) by reflexivity.
  assert (Ht : in_time (opening_at_depth 0) (1 # 1)) by (vm_compute; reflexivity).
  split; [exact Hd|]. split; [exact Ht|].
  exact (suggest_move_depth_zero_raises (opening_at_depth 0) (1 # 1)
           stats_after_first_search Hd Ht).
Defined.

(** At depth 1, on empty counters, the call raises. *)
Lemma suggest_move_depth_one_raises_witness :
  max_depth (options (opening_at_depth 1)) = 1%nat ∧
  in_time (opening_at_depth 1) (1 # 1) ∧
  suggest_move (opening_at_depth 1) (1 # 1) no_stats = None.
Proof.
  assert (Hd : max_depth (options (opening_at_depth 1)) = 1%nat) by reflexivity.
  assert (Ht : in_time (opening_at_depth 1) (1 # 1)) by (vm_compute; reflexivity).
  split; [exact Hd|]. split; [exact Ht|].
  exact (suggest_move_depth_one_raises (opening_at_depth 1) (1 # 1) Hd Ht).
Defined.

(** At depth 2 from the opening position the computer plays a move and
    the turn passes to the Defender. *)
Lemma computer_turn_plays_witness :
  ∃ g' m st', computer_turn (opening_at_depth 2) (1 # 1) no_stats = Some (g', Some m, st') ∧
              m ∈ move_candidates (opening_at_depth 2) ∧
              turn_passed (opening_at_depth 2) g'.
Proof.
  destruct (computer_turn (opening_at_depth 2) (1 # 1) no_stats)
    as [[[g' [m|]] st']|] eqn:E; [|vm_compute in E; discriminate..].
  exists g', m, st'. split; [reflexivity|].
  pose proof (computer_turn_plays _ _ _ _ _ _ E) as H. cbv beta iota in H.
  split; [exact (proj1 H)|exact (proj1 (proj2 H))].
Defined.

(** Of the lines typed, the third is the first that names two cells of
    the board. *)
Lemma read_move_spec_witness :
  ∃ mv rest, read_move opening typed_lines = Returns mv rest ∧
             typed_cell opening (src mv) ∧ typed_cell opening (dst mv).
Proof.
  destruct (read_move opening typed_lines) as [mv rest| | |] eqn:E;
    [|vm_compute in E; discriminate..].
  exists mv, rest. split; [reflexivity|].
  pose proof (read_move_spec opening typed_lines mv rest E) as H.
  split; [exact (proj1 H)|exact (proj1 (proj2 H))].
Defined.

(** The default game has no broker; the lines typed move the Program
    and pass the turn to the Defender. *)
Lemma human_turn_spec_witness :
  broker (options opening) = None ∧
  ∃ g' text rest, human_turn 1 opening typed_lines = Some (Returns (g', text) rest) ∧
                  next_player g' = Defender.
Proof.
  assert (Hb : broker (options opening) = None) by reflexivity.
  split; [exact Hb|].
  pose proof (human_turn_spec 0 opening typed_lines Hb) as H.
  assert (E : read_move opening typed_lines = Returns program_up ["q"%string])
    by (vm_compute; reflexivity).
  assert (Hv : is_valid_move opening program_up = true) by (vm_compute; reflexivity).
  rewrite E in H. destruct H as (g1 & success & tag & text & Hp & Hh).
  pose proof (perform_move_accepts _ _ _ _ _ Hv Hp) as Hs.
  rewrite Hs in Hh.
  exists (next_turn g1), text, ["q"%string]. split; [exact Hh|].
  apply same_turn_perform_move in Hp as [Hn _]. unfold next_turn. cbn [next_player].
  rewrite Hn. reflexivity.
Defined.

(** The opening position printed with pruning on and with pruning off
    is the same text, and the same board. *)
Lemma Game_to_string_shows_position_witness :
  wf_game opening ∧ units_healthy opening ∧
  Game_to_string opening = Game_to_string (with_alpha_beta opening false) ∧
  board opening = board (with_alpha_beta opening false).
Proof.
  assert (Hh : units_healthy opening)
    by (apply units_healthy_check_sound; vm_compute; reflexivity).
  split; [exact wf_game_opening|]. split; [exact Hh|]. split; [reflexivity|].
  exact (proj1 (Game_to_string_shows_position opening (with_alpha_beta opening false)
                  wf_game_opening wf_game_opening Hh Hh eq_refl eq_refl)).
Defined.

(** The default board has dimension 5: six units each, the score 0. *)
Lemma opening_position_witness :
  4 ≤ dim default_Options ∧
  unit_count opening Attacker = 6%nat ∧ heuristic_e0 opening Attacker = 0.
Proof.
  assert (Hd : 4 ≤ dim default_Options) by (vm_compute; discriminate).
  split; [exact Hd|].
  pose proof (opening_position default_Options Attacker Hd) as H.
  split; [exact (proj1 (proj2 H))|exact (proj2 (proj2 (proj2 H)))].
Defined.
